(** * contessa-boilerplates: the persisted-state hook and the installer

    A shallow embedding of the two programs of the repository:

    - [useStoredState] (the React hook of [src/src/index.ts], second half):
      a piece of component state mirrored into [localStorage] or
      [sessionStorage] and re-read on the [storage] event and on the custom
      [<key>-changed] event;
    - [copyDirectory] / [copyDir] (the installers of [src/src/index.ts], first
      half, and of the post-install script): a recursive directory copy.

    The browser (the two [Storage] objects, [window] events, [console]) and
    the language runtime ([JSON.stringify], [JSON.parse], the values
    [null] and [undefined]) are not code of the repository.  The runtime is an
    interface, [JsRuntime], whose laws are those of ECMA-262; the storage
    objects are finite maps with a quota, as the HTML standard describes them.
    [MiniJS] is a runtime of primitive values used to run the model. *)

From stdpp Require Import gmap strings list fin_maps sorting.
From Stdlib Require Import DecimalString DecimalNat.
From Stdlib.Strings Require Import Byte.

Set Warnings "-register-all".

(** ** Exceptions *)

(** The error codes of the [fs] calls the installers make. *)
Inductive Errno : Type :=
  | ENOENT
  | ENOTDIR
  | EISDIR
  | EEXIST.

(** The exceptions the modelled calls can raise: [JSON.stringify] raises a
    [TypeError] (a BigInt, a cyclic object), [JSON.parse] a [SyntaxError],
    [Storage.setItem] a [QuotaExceededError], an [fs] call a system error
    with its code, and a recursion deeper than the call stack a
    [RangeError]. *)
Inductive JsError : Type :=
  | TypeError
  | SyntaxError
  | QuotaExceededError
  | RangeError
  | SystemError (code : Errno).

Inductive Result (A : Type) : Type :=
  | Ok (a : A)
  | Throw (e : JsError).
Arguments Ok {A} a.
Arguments Throw {A} e.

Definition is_Ok {A} (r : Result A) : Prop := ∃ a, r = Ok a.

(** ** The language runtime *)

(** [JSON_stringify v] is [Ok None] when [JSON.stringify] returns [undefined]
    (for [undefined] itself, for a function), [Ok (Some s)] when it returns
    the text [s], and [Throw TypeError] when it throws. *)
Class JsRuntime : Type := {
  Value : Type;
  Value_eq_dec :: EqDecision Value;
  undefined : Value;
  null : Value;
  JSON_stringify : Value → Result (option string);
  JSON_parse : string → Result Value;
  null_not_undefined : null ≠ undefined;
  stringify_undefined : JSON_stringify undefined = Ok None;
  stringify_null : JSON_stringify null = Ok (Some "null");
  stringify_nonempty : ∀ v s, JSON_stringify v = Ok (Some s) → s ≠ "";
  parse_stringify : ∀ v s,
    JSON_stringify v = Ok (Some s) →
    ∃ v', JSON_parse s = Ok v' ∧ JSON_stringify v' = Ok (Some s);
}.

(** ** Web storage *)

(** A [Storage] object: its items and the room the browser grants it.
    [getItem] and [removeItem] never throw; [setItem] throws
    [QuotaExceededError] when the items would outgrow the quota. *)
Record Storage : Type := {
  items : gmap string string;
  quota : nat;
}.

Definition usage (m : gmap string string) : nat :=
  map_fold (λ k v n, String.length k + String.length v + n) 0 m.

Definition getItem (k : string) (st : Storage) : option string :=
  items st !! k.

Definition setItem (k v : string) (st : Storage) : Result Storage :=
  let m := <[k := v]> (items st) in
  if decide (usage m ≤ quota st)
  then Ok {| items := m; quota := quota st |}
  else Throw QuotaExceededError.

Definition removeItem (k : string) (st : Storage) : Storage :=
  {| items := delete k (items st); quota := quota st |}.

(** [type: "local" | "session"] *)
Inductive StorageType : Type :=
  | local
  | session.

Global Instance StorageType_eq_dec : EqDecision StorageType.
Proof. solve_decision. Defined.

Definition type_name (t : StorageType) : string :=
  match t with
  | local => "local"
  | session => "session"
  end.

(** What the hook does that an observer outside it can see: calls of the
    backend, events dispatched on [window], lines on [console.error]. *)
Inductive Event : Type :=
  | SetItem (t : StorageType) (k v : string)
  | RemoveItem (t : StorageType) (k : string)
  | DispatchEvent (name : string)
  | ConsoleError (msg : string) (e : JsError).

Definition is_backend_write (e : Event) : bool :=
  match e with
  | SetItem _ _ _ | RemoveItem _ _ => true
  | _ => false
  end.

Definition is_notification (e : Event) : bool :=
  match e with
  | DispatchEvent _ => true
  | _ => false
  end.

Definition is_console_error (e : Event) : bool :=
  match e with
  | ConsoleError _ _ => true
  | _ => false
  end.

Section Hook.
Context `{JS : JsRuntime}.

(** [interface Params<T>] *)
Record Params : Type := {
  key : string;
  value : Value;
  type : StorageType;
}.

(** One mounted [useStoredState]: its parameters, the state cell of
    [useState] (the value the next render returns) and the cell of
    [useRef]. *)
Record Hook : Type := {
  params : Params;
  storedValue : Value;
  previousValueRef : Value;
}.

(** One browsing context: the two backends, the hooks mounted in it (each
    has its two listeners registered on [window]) and what has been
    observed so far, oldest first. *)
Record Window : Type := {
  localStorage : Storage;
  sessionStorage : Storage;
  hooks : list Hook;
  log : list Event;
}.

(** *** Computations: state passing with exceptions *)

(** A JavaScript computation changes the window and returns or throws; what
    it changed before it threw stays changed. *)
Definition Js (A : Type) : Type := Window → Window * Result A.

Global Instance Js_ret : MRet Js := λ A a w, (w, Ok a).

Global Instance Js_bind : MBind Js := λ A B f m w,
  match m w with
  | (w', Ok a) => f a w'
  | (w', Throw e) => (w', Throw e)
  end.

Definition lift {A} (r : Result A) : Js A := λ w, (w, r).

(** [try { body } catch (error) { handler }] *)
Definition try_catch {A} (body : Js A) (handler : JsError → Js A) : Js A :=
  λ w,
    match body w with
    | (w', Throw e) => handler e w'
    | r => r
    end.

Definition trace (e : Event) : Js unit :=
  λ w, ({| localStorage := localStorage w;
           sessionStorage := sessionStorage w;
           hooks := hooks w;
           log := log w ++ [e] |}, Ok tt).

(** [storageMap[type]] *)
Definition storageMap (t : StorageType) (w : Window) : Storage :=
  match t with
  | local => localStorage w
  | session => sessionStorage w
  end.

Definition set_storage (t : StorageType) (st : Storage) (w : Window) : Window :=
  match t with
  | local =>
      {| localStorage := st; sessionStorage := sessionStorage w;
         hooks := hooks w; log := log w |}
  | session =>
      {| localStorage := localStorage w; sessionStorage := st;
         hooks := hooks w; log := log w |}
  end.

Definition set_hooks (hs : list Hook) (w : Window) : Window :=
  {| localStorage := localStorage w; sessionStorage := sessionStorage w;
     hooks := hs; log := log w |}.

Definition storage_getItem (t : StorageType) (k : string) : Js (option string) :=
  λ w, (w, Ok (getItem k (storageMap t w))).

Definition backend_setItem (t : StorageType) (k v : string) : Js unit :=
  λ w, match setItem k v (storageMap t w) with
       | Ok st => (set_storage t st w, Ok tt)
       | Throw e => (w, Throw e)
       end.

Definition storage_setItem (t : StorageType) (k v : string) : Js unit :=
  trace (SetItem t k v) ;; backend_setItem t k v.

Definition backend_removeItem (t : StorageType) (k : string) : Js unit :=
  λ w, (set_storage t (removeItem k (storageMap t w)) w, Ok tt).

Definition storage_removeItem (t : StorageType) (k : string) : Js unit :=
  trace (RemoveItem t k) ;; backend_removeItem t k.

Definition console_error (msg : string) (e : JsError) : Js unit :=
  trace (ConsoleError msg e).

(** *** The hook *)

(** [item ? ... : ...]: a string is falsy when it is empty. *)
Definition truthy (s : string) : bool :=
  negb (bool_decide (s = "")).

(** An argument of type DOMString: [undefined] becomes the text
    "undefined". *)
Definition to_DOMString (o : option string) : string :=
  match o with
  | Some s => s
  | None => "undefined"
  end.

(** [`Unable to get ${key} from ${type} storage`] *)
Definition get_error_message (p : Params) : string :=
  "Unable to get " +:+ key p +:+ " from " +:+ type_name (type p) +:+ " storage".

(** [`Unable to set ${key} to ${type} storage`] *)
Definition set_error_message (p : Params) : string :=
  "Unable to set " +:+ key p +:+ " to " +:+ type_name (type p) +:+ " storage".

(** [getStoredValue] (lines 105-113). *)
Definition getStoredValue (p : Params) : Js Value :=
  try_catch
    (item ← storage_getItem (type p) (key p);
     match item with
     | Some s => if truthy s then lift (JSON_parse s) else mret (value p)
     | None => mret (value p)
     end)
    (λ error,
       console_error (get_error_message p) error ;;
       mret (value p)).

Definition with_storedValue (v : Value) (h : Hook) : Hook :=
  {| params := params h; storedValue := v; previousValueRef := previousValueRef h |}.

Definition with_previousValueRef (v : Value) (h : Hook) : Hook :=
  {| params := params h; storedValue := storedValue h; previousValueRef := v |}.

(** [setStoredValue(v)] of the hook at index [i]. *)
Definition setStoredValue (i : nat) (v : Value) : Js unit :=
  λ w, (set_hooks (alter (with_storedValue v) i (hooks w)) w, Ok tt).

(** [previousValueRef.current = v] of the hook at index [i]. *)
Definition set_previousValueRef (i : nat) (v : Value) : Js unit :=
  λ w, (set_hooks (alter (with_previousValueRef v) i (hooks w)) w, Ok tt).

(** The name of the same-context event: [`${key}-changed`]. *)
Definition changed_event (k : string) : string := k +:+ "-changed".

Global Arguments changed_event : simpl never.
Global Arguments get_error_message : simpl never.
Global Arguments set_error_message : simpl never.

(** [handleCustom] of the hook at index [j] (line 127), as a listener of the
    event [name]: it runs when the hook listens to that name.  An exception
    in a listener is reported by the browser and does not reach the caller
    of [dispatchEvent]. *)
Definition handleCustom (name : string) (j : nat) (w : Window) : Window :=
  match hooks w !! j with
  | Some h =>
      if bool_decide (changed_event (key (params h)) = name) then
        match getStoredValue (params h) w with
        | (w', Ok v) => fst (setStoredValue j v w')
        | (w', Throw _) => w'
        end
      else w
  | None => w
  end.

(** The listeners of the mounted hooks run one after the other, in the
    order of registration. *)
Definition run_listeners (listener : nat → Window → Window) : Js unit :=
  λ w, (foldl (λ w j, listener j w) w (seq 0 (length (hooks w))), Ok tt).

(** [window.dispatchEvent(new Event(name))]: the listeners have run when
    the call returns. *)
Definition dispatchEvent (name : string) : Js unit :=
  trace (DispatchEvent name) ;; run_listeners (handleCustom name).

(** [handleStorage] of the hook at index [j] (lines 124-126), for a
    [storage] event whose [key] is [k]. *)
Definition handleStorage (k : option string) (j : nat) (w : Window) : Window :=
  match hooks w !! j with
  | Some h =>
      if bool_decide (k = Some (key (params h))) then
        match getStoredValue (params h) w with
        | (w', Ok v) => fst (setStoredValue j v w')
        | (w', Throw _) => w'
        end
      else w
  | None => w
  end.

(** The browser delivers a [storage] event (a write in another context). *)
Definition storageEvent (k : option string) : Js unit :=
  run_listeners (handleStorage k).

(** [storedValue === null || storedValue === undefined] *)
Definition is_nullish (v : Value) : bool :=
  bool_decide (v = null) || bool_decide (v = undefined).

(** [removeStoredValue] (lines 117-120) of the hook at index [i]. *)
Definition removeStoredValue (i : nat) : Js unit :=
  λ w,
    match hooks w !! i with
    | Some h =>
        (storage_removeItem (type (params h)) (key (params h)) ;;
         dispatchEvent (changed_event (key (params h)))) w
    | None => (w, Ok tt)
    end.

(** The second effect (lines 137-150) of the hook at index [i], run by React
    after a render in which [storedValue] changed.  [storedValue] is the
    value of that render all along the body. *)
Definition persistEffect (i : nat) : Js unit :=
  λ w,
    match hooks w !! i with
    | Some h =>
        let p := params h in
        let storedValue := storedValue h in
        (a ← lift (JSON_stringify storedValue);
         b ← lift (JSON_stringify (previousValueRef h));
         let hasValueChanged := negb (bool_decide (a = b)) in
         if hasValueChanged then
           try_catch
             ((if is_nullish storedValue
               then storage_removeItem (type p) (key p)
               else
                 s ← lift (JSON_stringify storedValue);
                 storage_setItem (type p) (key p) (to_DOMString s)) ;;
              dispatchEvent (changed_event (key p)) ;;
              set_previousValueRef i storedValue)
             (λ error, console_error (set_error_message p) error)
         else mret tt) w
    | None => (w, Ok tt)
    end.

(** A hook joins the mounted ones; its index is returned. *)
Definition add_hook (h : Hook) : Js nat :=
  λ w, (set_hooks (hooks w ++ [h]) w, Ok (length (hooks w))).

(** The first render of a new hook: [useRef(null)] and
    [useState(getStoredValue)] (lines 103, 115). *)
Definition mount (p : Params) : Js nat :=
  v ← getStoredValue p;
  add_hook {| params := p; storedValue := v; previousValueRef := null |}.

(** [useStoredState(p)] in a component that mounts: the first render, then
    the effects (the listeners are registered, the second effect runs). *)
Definition useStoredState (p : Params) : Js nat :=
  i ← mount p;
  persistEffect i ;;
  mret i.

(** The state of the hook at [i] is set to [v], React renders the component
    again and the effect of that render runs: what a call of the setter does
    when [v] is not the state already. *)
Definition write (i : nat) (v : Value) : Js unit :=
  setStoredValue i v ;;
  persistEffect i.

(** A call of the setter, in an event of its own.  When [v] is the state
    already ([Object.is]) React renders nothing and runs no effect:
    [storedValue] is in the dependency array of the effect (line 150) and it
    has not changed.  Else the call is a [write]. *)
Definition setter (i : nat) (v : Value) : Js unit :=
  λ w,
    match hooks w !! i with
    | Some h =>
        if bool_decide (storedValue h = v) then (w, Ok tt) else write i v w
    | None => (w, Ok tt)
    end.

(** What the component reads: the first element of the returned tuple. *)
Definition mirror (i : nat) (w : Window) : option Value :=
  storedValue <$> hooks w !! i.

(** The slot of a key in a backend. *)
Definition slot (t : StorageType) (k : string) (w : Window) : option string :=
  getItem k (storageMap t w).

(** What [getStoredValue] returns, as a function of the backends: the
    parsed slot, or the default when the slot is absent, empty or does not
    parse. *)
Definition readStored (p : Params) (w : Window) : Value :=
  match getItem (key p) (storageMap (type p) w) with
  | Some s =>
      if truthy s then
        match JSON_parse s with
        | Ok v => v
        | Throw _ => value p
        end
      else value p
  | None => value p
  end.

(** What the listeners of the event [name] do to a hook. *)
Definition refresh (name : string) (w : Window) (h : Hook) : Hook :=
  if bool_decide (changed_event (key (params h)) = name)
  then with_storedValue (readStored (params h) w) h
  else h.

(** What the listeners of a [storage] event whose key is [ev] do to a
    hook. *)
Definition refresh_on_storage (ev : option string) (w : Window) (h : Hook) : Hook :=
  if bool_decide (ev = Some (key (params h)))
  then with_storedValue (readStored (params h) w) h
  else h.

Definition with_params (p : Params) (h : Hook) : Hook :=
  {| params := p; storedValue := storedValue h; previousValueRef := previousValueRef h |}.

Definition set_params (i : nat) (p : Params) : Js unit :=
  λ w, (set_hooks (alter (with_params p) i (hooks w)) w, Ok tt).

(** A render of the mounted hook at [i] with the parameters [p], whose key
    or backend is not the one of the render before.  [useState] returns
    the state as it is (its initializer runs in the first render only), the
    listeners are registered anew with the new key (the dependency array of
    line 134) and the second effect runs (the one of line 150). *)
Definition rerender (i : nat) (p : Params) : Js unit :=
  set_params i p ;;
  persistEffect i.

(** *** What can happen in a window *)

(** Another browsing context leaves the backend [t] as [st], and the
    browser delivers the [storage] event for the key [k] to this window. *)
Definition other_context (t : StorageType) (st : Storage) (k : option string) :
    Js unit :=
  λ w, storageEvent k (set_storage t st w).

(** One step of a window: a component mounts, a setter or a remover is
    called, React runs the second effect of a hook, another context writes.
    A step that throws leaves the window as it was when it threw. *)
Inductive step (w : Window) : Window → Prop :=
  | step_mount (p : Params) : step w (mount p w).1
  | step_setStoredValue (i : nat) (v : Value) : step w (setStoredValue i v w).1
  | step_removeStoredValue (i : nat) : step w (removeStoredValue i w).1
  | step_persistEffect (i : nat) : step w (persistEffect i w).1
  | step_other_context (t : StorageType) (st : Storage) (k : option string) :
      step w (other_context t st k w).1.

(** *** Relations between windows, for the statements *)

(** [quiet w w']: from [w] to [w'] the backends are untouched and only
    [console.error] lines were logged. *)
Definition quiet (w w' : Window) : Prop :=
  localStorage w' = localStorage w ∧
  sessionStorage w' = sessionStorage w ∧
  ∃ errs, log w' = log w ++ errs ∧ Forall (λ e, is_console_error e) errs.

(** [same_storage w w']: the two backends are the same in [w] and [w']. *)
Definition same_storage (w w' : Window) : Prop :=
  localStorage w' = localStorage w ∧ sessionStorage w' = sessionStorage w.

(** [alone i w]: no other hook mounted in [w] has the key of the hook at
    [i].  No other hook then listens to its [<key>-changed] event, and React
    has no other component to render after the hook's own events. *)
Definition alone (i : nat) (w : Window) : Prop :=
  ∀ h j hj,
    hooks w !! i = Some h → hooks w !! j = Some hj → j ≠ i →
    key (params hj) ≠ key (params h).

(** [refs_ok w]: [JSON.stringify] does not throw on the committed value of
    any hook.  The cell of [useRef] starts as [null] and is only ever set to
    a value that line 138 has just serialised. *)
Definition refs_ok (w : Window) : Prop :=
  ∀ j h, hooks w !! j = Some h → is_Ok (JSON_stringify (previousValueRef h)).

End Hook.

(** ** The installers *)

Module Installer.

(** A file with its bytes, or a directory with its entries. *)
Inductive Node : Type :=
  | File (data : list byte)
  | Dir (entries : gmap string Node).

(** A path is the list of its components, from the root. *)
Definition Path : Type := list string.

(** [path.join(dir, name)] for an entry [name] of [dir]. *)
Definition path_join (dir : Path) (name : string) : Path := dir ++ [name].

Fixpoint lookup_path (p : Path) (n : Node) : option Node :=
  match p with
  | [] => Some n
  | x :: p' =>
      match n with
      | Dir es =>
          match es !! x with
          | Some c => lookup_path p' c
          | None => None
          end
      | File _ => None
      end
  end.

(** An [fs] call changes the file system and returns or throws. *)
Definition Fs (A : Type) : Type := Node → Node * Result A.

Global Instance Fs_ret : MRet Fs := λ A a fs, (fs, Ok a).

Global Instance Fs_bind : MBind Fs := λ A B f m fs,
  match m fs with
  | (fs', Ok a) => f a fs'
  | (fs', Throw e) => (fs', Throw e)
  end.

(** [fs.existsSync(p)] *)
Definition existsSync (p : Path) : Fs bool :=
  λ fs, (fs, Ok (bool_decide (is_Some (lookup_path p fs)))).

(** The tree after [mkdir -p]: the missing directories of the path are
    created; a file on the way is an error. *)
Fixpoint mkdir_p (p : Path) (n : Node) : Result Node :=
  match n with
  | File _ => Throw (SystemError (match p with [] => EEXIST | _ => ENOTDIR end))
  | Dir es =>
      match p with
      | [] => Ok n
      | x :: p' =>
          match mkdir_p p' (default (Dir ∅) (es !! x)) with
          | Ok c => Ok (Dir (<[x := c]> es))
          | Throw e => Throw e
          end
      end
  end.

(** [fs.mkdirSync(p, { recursive: true })] *)
Definition mkdirSync_recursive (p : Path) : Fs unit :=
  λ fs,
    match mkdir_p p fs with
    | Ok fs' => (fs', Ok tt)
    | Throw e => (fs, Throw e)
    end.

(** The entries of a directory in the order in which [fs.readdirSync] lists
    them: sorted by name, byte by byte (node reads a directory with libuv's
    [scandir], which sorts the names with [strcmp]). *)
Definition entry_le (a b : string * Node) : Prop := String.le a.1 b.1.

Global Instance entry_le_dec : RelDecision entry_le.
Proof. intros a b. unfold entry_le. apply _. Defined.

Definition scandir (es : gmap string Node) : list (string * Node) :=
  merge_sort entry_le (map_to_list es).

(** [fs.readdirSync(p)]: the names of the entries. *)
Definition readdirSync (p : Path) : Fs (list string) :=
  λ fs,
    match lookup_path p fs with
    | Some (Dir es) => (fs, Ok ((scandir es).*1))
    | Some (File _) => (fs, Throw (SystemError ENOTDIR))
    | None => (fs, Throw (SystemError ENOENT))
    end.

Definition isDirectory (n : Node) : bool :=
  match n with
  | Dir _ => true
  | File _ => false
  end.

(** [fs.readdirSync(p, { withFileTypes: true })]: each entry with the
    answer of its [isDirectory()]. *)
Definition readdirSync_withFileTypes (p : Path) : Fs (list (string * bool)) :=
  λ fs,
    match lookup_path p fs with
    | Some (Dir es) => (fs, Ok (prod_map id isDirectory <$> scandir es))
    | Some (File _) => (fs, Throw (SystemError ENOTDIR))
    | None => (fs, Throw (SystemError ENOENT))
    end.

(** [fs.statSync(p).isDirectory()] *)
Definition statSync_isDirectory (p : Path) : Fs bool :=
  λ fs,
    match lookup_path p fs with
    | Some n => (fs, Ok (isDirectory n))
    | None => (fs, Throw (SystemError ENOENT))
    end.

(** The tree after the bytes [data] are written to the file at [p]: the
    file is created in an existing directory or overwritten. *)
Fixpoint write_file (p : Path) (data : list byte) (n : Node) : Result Node :=
  match p, n with
  | [], File _ => Ok (File data)
  | [], Dir _ => Throw (SystemError EISDIR)
  | _ :: _, File _ => Throw (SystemError ENOTDIR)
  | x :: p', Dir es =>
      match p', es !! x with
      | [], None => Ok (Dir (<[x := File data]> es))
      | _ :: _, None => Throw (SystemError ENOENT)
      | _, Some c =>
          match write_file p' data c with
          | Ok c' => Ok (Dir (<[x := c']> es))
          | Throw e => Throw e
          end
      end
  end.

(** [fs.copyFileSync(src, dest)] *)
Definition copyFileSync (src dest : Path) : Fs unit :=
  λ fs,
    match lookup_path src fs with
    | Some (File data) =>
        match write_file dest data fs with
        | Ok fs' => (fs', Ok tt)
        | Throw e => (fs, Throw e)
        end
    | Some (Dir _) => (fs, Throw (SystemError EISDIR))
    | None => (fs, Throw (SystemError ENOENT))
    end.

(** [for (const x of xs) { body }] *)
Fixpoint for_of {A} (xs : list A) (body : A → Fs unit) : Fs unit :=
  match xs with
  | [] => mret tt
  | x :: xs' => body x ;; for_of xs' body
  end.

(** [copyDirectory] of the TypeScript installer (lines 9-26).  [stack] is
    the room left on the call stack: a recursion that outgrows it throws a
    [RangeError]. *)
Fixpoint copyDirectory (stack : nat) (source target : Path) : Fs unit :=
  match stack with
  | 0 => λ fs, (fs, Throw RangeError)
  | S stack' =>
      there ← existsSync target;
      (if negb there then mkdirSync_recursive target else mret tt) ;;
      files ← readdirSync source;
      for_of files (λ file,
        let sourcePath := path_join source file in
        let targetPath := path_join target file in
        isDir ← statSync_isDirectory sourcePath;
        if (isDir : bool)
        then copyDirectory stack' sourcePath targetPath
        else copyFileSync sourcePath targetPath)
  end.

(** The TypeScript installer (lines 6-7 and 28-34): the exit status is 0
    after a run that did not throw and 1 otherwise; what was copied before
    an error stays. *)
Definition install (stack : nat) (dirname cwd : Path) (fs : Node) : Node * nat :=
  let SOURCE_DIR := dirname ++ ["contessa"] in
  let TARGET_DIR := cwd ++ ["src"; "contessa"] in
  match copyDirectory stack SOURCE_DIR TARGET_DIR fs with
  | (fs', Ok _) => (fs', 0)
  | (fs', Throw _) => (fs', 1)
  end.

(** [copyDir] of the post-install script (lines 17-31). *)
Fixpoint copyDir (stack : nat) (src dest : Path) : Fs unit :=
  match stack with
  | 0 => λ fs, (fs, Throw RangeError)
  | S stack' =>
      entries ← readdirSync_withFileTypes src;
      for_of entries (λ entry,
        let srcPath := path_join src entry.1 in
        let destPath := path_join dest entry.1 in
        if (entry.2 : bool)
        then mkdirSync_recursive destPath ;; copyDir stack' srcPath destPath
        else copyFileSync srcPath destPath)
  end.

(** The post-install script (lines 5-14 and 34-40).  The directory is made
    outside the [try]: an error there is uncaught and the process ends with
    status 1 as well. *)
Definition postinstall (stack : nat) (dirname cwd : Path) (fs : Node) : Node * nat :=
  let projectRoot := cwd in
  let targetDir := projectRoot ++ ["src"; "contessa"] in
  let sourceDir := removelast dirname ++ ["src"; "contessa"] in
  match
    (there ← existsSync targetDir;
     (if negb there then mkdirSync_recursive targetDir else mret tt) ;;
     copyDir stack sourceDir targetDir) fs
  with
  | (fs', Ok _) => (fs', 0)
  | (fs', Throw _) => (fs', 1)
  end.

(** The two installers, and where each reads and writes. *)
Inductive Script : Type :=
  | IndexTs
  | PostinstallJs.

Definition source_dir (script : Script) (dirname : Path) : Path :=
  match script with
  | IndexTs => dirname ++ ["contessa"]
  | PostinstallJs => removelast dirname ++ ["src"; "contessa"]
  end.

Definition target_dir (cwd : Path) : Path := cwd ++ ["src"; "contessa"].

Definition run (script : Script) : nat → Path → Path → Node → Node * nat :=
  match script with
  | IndexTs => install
  | PostinstallJs => postinstall
  end.

(** *** Relations between paths and trees, for the statements *)

(** Two paths diverge when they differ at a position that both have:
    neither is then a prefix of the other. *)
Fixpoint diverge (p q : Path) : Prop :=
  match p, q with
  | x :: p', y :: q' => x ≠ y ∨ diverge p' q'
  | _, _ => False
  end.

(** [inside p q]: the path [p] is below the directory [q]. *)
Definition inside (p q : Path) : Prop := q `prefix_of` p ∧ p ≠ q.

(** [frames target fs fs']: from [fs] to [fs'] nothing changed at the paths
    that diverge from [target]. *)
Definition frames (target : Path) (fs fs' : Node) : Prop :=
  ∀ q : Path, diverge target q → lookup_path q fs' = lookup_path q fs.

(** [copies source target fs fs']: each file under [source] in [fs] is in
    [fs'] under [target], at the same relative path with the same bytes. *)
Definition copies (source target : Path) (fs fs' : Node) : Prop :=
  ∀ (rel : Path) (data : list byte),
    lookup_path (source ++ rel) fs = Some (File data) →
    lookup_path (target ++ rel) fs' = Some (File data).

(** [keeps source target fs fs']: where [fs] has nothing under [source],
    [fs'] has under [target] what [fs] had there. *)
Definition keeps (source target : Path) (fs fs' : Node) : Prop :=
  ∀ rel : Path,
    lookup_path (source ++ rel) fs = None →
    lookup_path (target ++ rel) fs' = lookup_path (target ++ rel) fs.

(** [is_dir p fs]: there is a directory at [p]. *)
Definition is_dir (p : Path) (fs : Node) : Prop := ∃ es, lookup_path p fs = Some (Dir es).

(** [uptodate source target fs]: every file under [source] is under
    [target] with the same bytes, and every directory under [source] is a
    directory under [target]. *)
Definition uptodate (source target : Path) (fs : Node) : Prop :=
  ∀ rel : Path,
    match lookup_path (source ++ rel) fs with
    | Some (File data) => lookup_path (target ++ rel) fs = Some (File data)
    | Some (Dir _) => is_dir (target ++ rel) fs
    | None => True
    end.

(** The depth of a tree: the calls of [copyDirectory] that the deepest of
    its directories takes. *)
Fixpoint depth (n : Node) : nat :=
  match n with
  | File _ => 0
  | Dir es => S (map_fold (λ _ c d, depth c `max` d) 0 es)
  end.

(** *** A disk for each installer *)

(** A project [app] beside the package [pkg], whose bundle holds a file and
    a directory with the hook. *)
Definition bundle : Node :=
  Dir (<["hooks" := Dir {[ "useStoredState.ts" := File [x41; x42] ]}]>
         {[ "README.md" := File [x43] ]}).

Definition disk_ts : Node :=
  Dir (<["pkg" := Dir {[ "contessa" := bundle ]}]> {[ "app" := Dir ∅ ]}).

Definition disk_js : Node :=
  Dir (<["pkg" := Dir (<["src" := Dir {[ "contessa" := bundle ]}]>
                         {[ "scripts" := Dir ∅ ]})]>
         {[ "app" := Dir ∅ ]}).

(** The disk of the TypeScript installer after a first installation. *)
Definition disk_ts_installed : Node := (run IndexTs 8 ["pkg"] ["app"] disk_ts).1.

(** The project already has a file of its own in [src/contessa]. *)
Definition disk_ts_used : Node :=
  Dir (<["pkg" := Dir {[ "contessa" := bundle ]}]>
         {[ "app" := Dir {[ "src" := Dir {[ "contessa" :=
                       Dir {[ "notes.md" := File [x44] ]} ]} ]} ]}).

(** A project and no package. *)
Definition disk_without_bundle : Node := Dir {[ "app" := Dir ∅ ]}.

(** A project whose directory [src/contessa] holds the package itself, so
    that the bundle [src/contessa/contessa] lies inside the destination
    [src/contessa].  The bundle holds [index.ts] and a directory, named
    [contessa] too, with another [index.ts] and a file [z]. *)
Definition bundle_nested : Node :=
  Dir (<["contessa" := Dir (<["index.ts" := File [x42]]> {[ "z" := File [x43] ]})]>
         {[ "index.ts" := File [x41] ]}).

Definition disk_nested : Node :=
  Dir {[ "src" := Dir {[ "contessa" := Dir {[ "contessa" := bundle_nested ]} ]} ]}.

End Installer.

(** ** A runtime of primitive values *)

(** The values [undefined], [null], booleans, the numbers 0, 1, 2, ...
    (the safe integers, without their bound), [NaN] and BigInts.
    [JSON.stringify] is the one of ECMA-262 on these values; [JSON.parse]
    accepts the texts that denote them, written as [JSON.stringify] writes
    them, and refuses every other text: a JSON text with white space, a
    string, an array or an object denotes no value of this runtime. *)
Module MiniJS.

Inductive JsValue : Type :=
  | JUndefined
  | JNull
  | JBool (b : bool)
  | JNumber (n : nat)
  | JNaN
  | JBigInt (n : nat).

Global Instance JsValue_eq_dec : EqDecision JsValue.
Proof. solve_decision. Defined.

Definition number_text (n : nat) : string :=
  NilEmpty.string_of_uint (Nat.to_uint n).

Definition stringify (v : JsValue) : Result (option string) :=
  match v with
  | JUndefined => Ok None
  | JNull => Ok (Some "null")
  | JBool true => Ok (Some "true")
  | JBool false => Ok (Some "false")
  | JNumber n => Ok (Some (number_text n))
  | JNaN => Ok (Some "null")
  | JBigInt _ => Throw TypeError
  end.

Definition parse (s : string) : Result JsValue :=
  if decide (s = "null") then Ok JNull
  else if decide (s = "true") then Ok (JBool true)
  else if decide (s = "false") then Ok (JBool false)
  else
    match NilEmpty.uint_of_string s with
    | Some d =>
        if decide (number_text (Nat.of_uint d) = s)
        then Ok (JNumber (Nat.of_uint d))
        else Throw SyntaxError
    | None => Throw SyntaxError
    end.

Lemma number_text_uint (n : nat) :
  NilEmpty.uint_of_string (number_text n) = Some (Nat.to_uint n).
Proof. unfold number_text. apply NilEmpty.usu. Qed.

Lemma number_text_not_keyword (n : nat) (s : string) :
  NilEmpty.uint_of_string s ≠ Some (Nat.to_uint n) → number_text n ≠ s.
Proof. intros Hs <-. apply Hs, number_text_uint. Qed.

Lemma number_text_nonempty (n : nat) : number_text n ≠ "".
Proof.
  apply number_text_not_keyword. simpl. intros [= Hnil].
  pose proof (Unsigned.of_to n) as Hn. rewrite <- Hnil in Hn.
  simpl in Hn. subst n. discriminate Hnil.
Qed.

Lemma parse_number_text (n : nat) : parse (number_text n) = Ok (JNumber n).
Proof.
  unfold parse.
  repeat (destruct (decide _) as [Heq|_];
          [ exfalso; revert Heq; apply number_text_not_keyword; discriminate | ]).
  rewrite number_text_uint, Unsigned.of_to.
  destruct (decide _); [reflexivity | contradiction].
Qed.

Lemma stringify_text_nonempty (v : JsValue) (s : string) :
  stringify v = Ok (Some s) → s ≠ "".
Proof.
  destruct v as [| |[]|n| |]; simpl; intros [= <-]; try discriminate.
  apply number_text_nonempty.
Qed.

Lemma parse_stringify_text (v : JsValue) (s : string) :
  stringify v = Ok (Some s) →
  ∃ v', parse s = Ok v' ∧ stringify v' = Ok (Some s).
Proof.
  destruct v as [| |[]|n| |]; simpl; intros [= <-].
  - exists JNull. split; reflexivity.
  - exists (JBool true). split; reflexivity.
  - exists (JBool false). split; reflexivity.
  - exists (JNumber n). split; [apply parse_number_text | reflexivity].
  - exists JNull. split; reflexivity.
Qed.

Global Instance runtime : JsRuntime := {|
  Value := JsValue;
  undefined := JUndefined;
  null := JNull;
  JSON_stringify := stringify;
  JSON_parse := parse;
  null_not_undefined := ltac:(discriminate);
  stringify_undefined := eq_refl;
  stringify_null := eq_refl;
  stringify_nonempty := stringify_text_nonempty;
  parse_stringify := parse_stringify_text;
|}.

End MiniJS.

(** ** Windows to run the hook in *)

Module Scenarios.
Import MiniJS.

Definition empty_storage (q : nat) : Storage := {| items := ∅; quota := q |}.

(** A window with nothing stored, no hook mounted and a quota of [q] for
    each backend. *)
Definition fresh_window (q : nat) : Window :=
  {| localStorage := empty_storage q; sessionStorage := empty_storage q;
     hooks := []; log := [] |}.

(** [useStoredState({ key: "counter", value: 0, type: "local" })] *)
Definition counter : Params :=
  {| key := "counter"; value := JNumber 0; type := local |}.

(** The same key and backend with another default. *)
Definition counter7 : Params :=
  {| key := "counter"; value := JNumber 7; type := local |}.

(** One component with [counter] has mounted. *)
Definition counter_mounted : Window :=
  (useStoredState counter (fresh_window 100)).1.

(** It has called [setCount(5)], and the render has not run its effects
    yet. *)
Definition counter_set_5 : Window :=
  (setStoredValue 0 (JNumber 5) counter_mounted).1.

(** The effects have run. *)
Definition counter_at_5 : Window :=
  (write 0 (JNumber 5) counter_mounted).1.

(** A second component has mounted, with [counter7]. *)
Definition two_counters : Window :=
  (useStoredState counter7 counter_at_5).1.

(** [useStoredState({ key: "flag", value: false, type: "session" })] *)
Definition flag : Params :=
  {| key := "flag"; value := JBool false; type := session |}.

(** The counter at 5 and a component with [flag]. *)
Definition counter_and_flag : Window :=
  (useStoredState flag counter_at_5).1.

(** The counter at 5 has called its setter with a BigInt, and the render
    has not run its effects yet. *)
Definition counter_bigint : Window :=
  (setStoredValue 0 (JBigInt 1) counter_at_5).1.

(** The local storage as another browsing context leaves it when it sets
    the counter to 9. *)
Definition storage_at_9 : Storage :=
  {| items := {[ "counter" := "9" ]}; quota := 100 |}.

(** [useStoredState({ key: "total", value: 1, type: "local" })] *)
Definition total : Params :=
  {| key := "total"; value := JNumber 1; type := local |}.

(** The counter has mounted on a backend with room for its default and
    nothing more. *)
Definition counter_tight : Window :=
  (useStoredState counter (fresh_window 8)).1.

(** It has called [setCount(55)], which the backend refused. *)
Definition counter_refused : Window :=
  (setter 0 (JNumber 55) counter_tight).1.

End Scenarios.

(** * Properties of the hook *)

Section HookFacts.
Context `{JS : JsRuntime}.

Implicit Types (w : Window) (h : Hook) (p : Params) (v : Value).
Implicit Types (i j : nat) (s k name : string) (t : StorageType).

(** ** The computations *)

Lemma bind_Ok {A B} (m : Js A) (f : A → Js B) w w' a :
  m w = (w', Ok a) → (m ≫= f) w = f a w'.
Proof. intros Hm. unfold mbind, Js_bind. by rewrite Hm. Qed.

Lemma bind_Throw {A B} (m : Js A) (f : A → Js B) w w' e :
  m w = (w', Throw e) → (m ≫= f) w = (w', Throw e).
Proof. intros Hm. unfold mbind, Js_bind. by rewrite Hm. Qed.

Lemma quiet_refl w : quiet w w.
Proof.
  repeat split; exists []. by rewrite app_nil_r.
Qed.

Lemma quiet_trans w1 w2 w3 : quiet w1 w2 → quiet w2 w3 → quiet w1 w3.
Proof.
  intros (Hl1 & Hs1 & e1 & Hlog1 & He1) (Hl2 & Hs2 & e2 & Hlog2 & He2).
  repeat split; [congruence | congruence |].
  exists (e1 ++ e2). rewrite Hlog2, Hlog1, app_assoc.
  split; [done | by apply Forall_app].
Qed.

Lemma quiet_same_storage w w' : quiet w w' → same_storage w w'.
Proof. intros (Hl & Hs & _). by split. Qed.

Lemma same_storage_storageMap w w' t :
  same_storage w w' → storageMap t w' = storageMap t w.
Proof. intros [Hl Hs]. by destruct t. Qed.

Lemma same_storage_readStored w w' p :
  same_storage w w' → readStored p w' = readStored p w.
Proof. intros Hq. unfold readStored. by rewrite (same_storage_storageMap w w'). Qed.

Lemma same_storage_refresh w w' name h :
  same_storage w w' → refresh name w' h = refresh name w h.
Proof. intros Hq. unfold refresh. by rewrite (same_storage_readStored w w'). Qed.

(** ** [getStoredValue] never throws *)

Lemma getStoredValue_run p w :
  ∃ w', getStoredValue p w = (w', Ok (readStored p w)) ∧
        quiet w w' ∧ hooks w' = hooks w.
Proof.
  unfold getStoredValue, try_catch, readStored.
  unfold mbind at 1, Js_bind at 1. unfold storage_getItem.
  destruct (getItem _ _) as [s|]; [destruct (truthy s)|].
  - unfold lift. destruct (JSON_parse s) as [v|e].
    + exists w. auto using quiet_refl.
    + eexists. split; [reflexivity|]. split; [|done].
      repeat split. eexists. split; [reflexivity|]. by repeat constructor.
  - exists w. auto using quiet_refl.
  - exists w. auto using quiet_refl.
Qed.

(** ** The listeners *)

Lemma setStoredValue_run i v w :
  setStoredValue i v w = (set_hooks (alter (with_storedValue v) i (hooks w)) w, Ok tt).
Proof. reflexivity. Qed.

Lemma handleCustom_run name j w :
  quiet w (handleCustom name j w) ∧
  hooks (handleCustom name j w) = alter (refresh name w) j (hooks w).
Proof.
  unfold handleCustom.
  destruct (hooks w !! j) as [h|] eqn:Hj.
  - destruct (bool_decide (changed_event (key (params h)) = name)) eqn:Hname.
    + destruct (getStoredValue_run (params h) w) as (w' & -> & Hq & Hh).
      simpl. split; [by destruct Hq as (? & ? & ?)|].
      rewrite Hh. apply list_eq. intros n.
      destruct (decide (j = n)) as [<-|Hne].
      * rewrite !list_lookup_alter_eq, Hj. simpl. unfold refresh. by rewrite Hname.
      * by rewrite !list_lookup_alter_ne.
    + split; [apply quiet_refl|]. apply list_eq. intros n.
      destruct (decide (j = n)) as [<-|Hne].
      * rewrite list_lookup_alter_eq, Hj. simpl. unfold refresh. by rewrite Hname.
      * by rewrite list_lookup_alter_ne.
  - split; [apply quiet_refl|]. apply list_eq. intros n.
    destruct (decide (j = n)) as [<-|Hne].
    + by rewrite list_lookup_alter_eq, Hj.
    + by rewrite list_lookup_alter_ne.
Qed.

Lemma listeners_fold name m : ∀ n w,
  let w' := foldl (λ w j, handleCustom name j w) w (seq n m) in
  quiet w w' ∧
  ∀ j, hooks w' !! j =
       if decide (n ≤ j < n + m) then refresh name w <$> hooks w !! j
       else hooks w !! j.
Proof.
  induction m as [|m IH]; intros n w; simpl.
  - split; [apply quiet_refl|]. intros j. case_decide; [lia|done].
  - destruct (handleCustom_run name n w) as [Hq Hh].
    destruct (IH (S n) (handleCustom name n w)) as [Hq' Hh'].
    split; [by eapply quiet_trans|].
    intros j. rewrite Hh', Hh.
    destruct (decide (n = j)) as [<-|Hne].
    + rewrite list_lookup_alter_eq. repeat case_decide; try lia. done.
    + rewrite list_lookup_alter_ne by done.
      repeat case_decide; try lia; [|done].
      destruct (hooks w !! j) as [h|]; [simpl|done].
      f_equal. by apply same_storage_refresh, quiet_same_storage.
Qed.

Lemma run_listeners_custom name w :
  ∃ w', run_listeners (handleCustom name) w = (w', Ok tt) ∧
        quiet w w' ∧ hooks w' = refresh name w <$> hooks w.
Proof.
  eexists. split; [reflexivity|].
  destruct (listeners_fold name (length (hooks w)) 0 w) as [Hq Hh].
  split; [done|]. apply list_eq. intros j. rewrite Hh, list_lookup_fmap.
  case_decide as Hj; [done|].
  rewrite (lookup_ge_None_2 (hooks w) j) by lia. done.
Qed.

Lemma dispatchEvent_run name w :
  ∃ w' errs, dispatchEvent name w = (w', Ok tt) ∧
    localStorage w' = localStorage w ∧
    sessionStorage w' = sessionStorage w ∧
    hooks w' = refresh name w <$> hooks w ∧
    log w' = log w ++ DispatchEvent name :: errs ∧
    Forall (λ e, is_console_error e) errs.
Proof.
  unfold dispatchEvent.
  set (w1 := (trace (DispatchEvent name) w).1).
  destruct (run_listeners_custom name w1) as (w' & Hrun & (Hl & Hs & errs & Hlog & Herrs) & Hh).
  exists w', errs. split.
  { erewrite bind_Ok; [exact Hrun | reflexivity]. }
  split_and!; [done | done | | | done].
  - rewrite Hh. apply list_fmap_ext. intros _ h _. by apply same_storage_refresh.
  - rewrite Hlog. simpl. by rewrite <- app_assoc.
Qed.

(** ** The second effect, case by case *)

Lemma storageMap_set_storage_eq t st w : storageMap t (set_storage t st w) = st.
Proof. by destruct t. Qed.

Lemma storageMap_set_storage_ne t t' st w :
  t' ≠ t → storageMap t' (set_storage t st w) = storageMap t' w.
Proof. by destruct t, t'. Qed.

Lemma hooks_set_storage t st w : hooks (set_storage t st w) = hooks w.
Proof. by destruct t. Qed.

Lemma log_set_storage t st w : log (set_storage t st w) = log w.
Proof. by destruct t. Qed.

Lemma storageMap_same_storage w w' :
  (∀ t, storageMap t w' = storageMap t w) → same_storage w w'.
Proof. intros H. split; [apply (H local) | apply (H session)]. Qed.

(** The value did not change: nothing happens. *)
Lemma persistEffect_unchanged i w h a :
  hooks w !! i = Some h →
  JSON_stringify (storedValue h) = Ok a →
  JSON_stringify (previousValueRef h) = Ok a →
  persistEffect i w = (w, Ok tt).
Proof.
  intros Hi Ha Hb. unfold persistEffect. rewrite Hi. simpl.
  unfold mbind, Js_bind, lift. rewrite Ha, Hb.
  rewrite bool_decide_eq_true_2 by done. reflexivity.
Qed.

(** [JSON.stringify] throws on line 138: the effect throws. *)
Lemma persistEffect_throws i w h e :
  hooks w !! i = Some h →
  JSON_stringify (storedValue h) = Throw e ∨
  (is_Ok (JSON_stringify (storedValue h)) ∧
   JSON_stringify (previousValueRef h) = Throw e) →
  persistEffect i w = (w, Throw e).
Proof.
  intros Hi H. unfold persistEffect. rewrite Hi. simpl.
  unfold mbind, Js_bind, lift.
  destruct H as [->|[[a ->] ->]]; reflexivity.
Qed.

(** What the [try] block does once the backend call has returned: the
    event is dispatched, then the cell of [useRef] is set. *)
Lemma commit_run i name v w :
  ∃ w' errs,
    (dispatchEvent name ;; set_previousValueRef i v) w = (w', Ok tt) ∧
    same_storage w w' ∧
    hooks w' = alter (with_previousValueRef v) i (refresh name w' <$> hooks w) ∧
    log w' = log w ++ DispatchEvent name :: errs ∧
    Forall (λ e, is_console_error e) errs.
Proof.
  destruct (dispatchEvent_run name w) as (w1 & errs & Hrun & Hl & Hs & Hh & Hlog & Herrs).
  eexists _, errs. split.
  { erewrite bind_Ok by exact Hrun. reflexivity. }
  simpl. split_and!; [done | | done | done].
  rewrite Hh. f_equal. apply list_fmap_ext. intros _ h _.
  symmetry. by apply same_storage_refresh.
Qed.

(** The value changed and is [null] or [undefined]: the item is removed. *)
Lemma persistEffect_removeItem i w h a b :
  hooks w !! i = Some h →
  is_nullish (storedValue h) = true →
  JSON_stringify (storedValue h) = Ok a →
  JSON_stringify (previousValueRef h) = Ok b →
  a ≠ b →
  let t := type (params h) in
  let k := key (params h) in
  ∃ w' errs,
    persistEffect i w = (w', Ok tt) ∧
    storageMap t w' = removeItem k (storageMap t w) ∧
    (∀ t', t' ≠ t → storageMap t' w' = storageMap t' w) ∧
    hooks w' = alter (with_previousValueRef (storedValue h)) i
                 (refresh (changed_event k) w' <$> hooks w) ∧
    log w' = log w ++ RemoveItem t k :: DispatchEvent (changed_event k) :: errs ∧
    Forall (λ e, is_console_error e) errs.
Proof.
  intros Hi Hnull Ha Hb Hab t k. subst t k. unfold persistEffect. rewrite Hi. simpl.
  unfold mbind at 1 2, Js_bind at 1 2, lift. rewrite Ha, Hb.
  rewrite bool_decide_eq_false_2 by done. simpl. rewrite Hnull.
  unfold try_catch.
  set (t := type (params h)). set (k := key (params h)).
  set (w1 := (storage_removeItem t k w).1).
  destruct (commit_run i (changed_event k) (storedValue h) w1)
    as (w' & errs & Hrun & Hsame & Hh & Hlog & Herrs).
  exists w', errs. split.
  { rewrite (bind_Ok _ _ w w1 tt) by reflexivity. by rewrite Hrun. }
  split_and!; [ | | | | done].
  - rewrite (same_storage_storageMap w1 w') by done.
    subst w1. simpl. by rewrite storageMap_set_storage_eq; destruct t.
  - intros t' Ht'. rewrite (same_storage_storageMap w1 w') by done.
    subst w1. simpl. rewrite storageMap_set_storage_ne by done. by destruct t'.
  - rewrite Hh. subst w1. simpl. by rewrite hooks_set_storage.
  - rewrite Hlog. subst w1. simpl. rewrite log_set_storage. simpl.
    by rewrite <- app_assoc.
Qed.

(** The value changed, is neither [null] nor [undefined], and the backend
    accepts it: the item is set. *)
Lemma persistEffect_setItem i w h a b st' :
  hooks w !! i = Some h →
  is_nullish (storedValue h) = false →
  JSON_stringify (storedValue h) = Ok a →
  JSON_stringify (previousValueRef h) = Ok b →
  a ≠ b →
  let t := type (params h) in
  let k := key (params h) in
  setItem k (to_DOMString a) (storageMap t w) = Ok st' →
  ∃ w' errs,
    persistEffect i w = (w', Ok tt) ∧
    storageMap t w' = st' ∧
    (∀ t', t' ≠ t → storageMap t' w' = storageMap t' w) ∧
    hooks w' = alter (with_previousValueRef (storedValue h)) i
                 (refresh (changed_event k) w' <$> hooks w) ∧
    log w' = log w ++ SetItem t k (to_DOMString a)
                   :: DispatchEvent (changed_event k) :: errs ∧
    Forall (λ e, is_console_error e) errs.
Proof.
  intros Hi Hnull Ha Hb Hab t k Hset. subst t k. unfold persistEffect. rewrite Hi. simpl.
  unfold mbind at 1 2, Js_bind at 1 2, lift at 1 2. rewrite Ha, Hb.
  rewrite bool_decide_eq_false_2 by done. simpl. rewrite Hnull.
  unfold try_catch.
  set (t := type (params h)) in *. set (k := key (params h)) in *.
  assert (∃ w1, (lift (Ok a) ≫=
                   λ o, storage_setItem t k (to_DOMString o)) w = (w1, Ok tt) ∧
                storageMap t w1 = st' ∧
                (∀ t', t' ≠ t → storageMap t' w1 = storageMap t' w) ∧
                hooks w1 = hooks w ∧
                log w1 = log w ++ [SetItem t k (to_DOMString a)])
    as (w1 & Hw1 & Ht1 & Hother & Hh1 & Hlog1).
  { unfold mbind, Js_bind, lift, storage_setItem, backend_setItem. simpl.
    unfold mbind, Js_bind. simpl.
    replace (storageMap t _) with (storageMap t w) by (by destruct t).
    rewrite Hset. eexists. split; [reflexivity|].
    rewrite storageMap_set_storage_eq, hooks_set_storage, log_set_storage.
    split_and!; try done.
    intros t' Ht'. rewrite storageMap_set_storage_ne by done. by destruct t'. }
  destruct (commit_run i (changed_event k) (storedValue h) w1)
    as (w' & errs & Hrun & Hsame & Hh & Hlog & Herrs).
  exists w', errs. split.
  { rewrite (bind_Ok _ _ w w1 tt) by exact Hw1. by rewrite Hrun. }
  split_and!; [ | | | | done].
  - by rewrite (same_storage_storageMap w1 w').
  - intros t' Ht'. rewrite (same_storage_storageMap w1 w') by done. by apply Hother.
  - by rewrite Hh, Hh1.
  - rewrite Hlog, Hlog1. by rewrite <- app_assoc.
Qed.

(** The value changed and the backend refuses it: the error is logged, and
    nothing else happens. *)
Lemma persistEffect_setItem_throws i w h a b e :
  hooks w !! i = Some h →
  is_nullish (storedValue h) = false →
  JSON_stringify (storedValue h) = Ok a →
  JSON_stringify (previousValueRef h) = Ok b →
  a ≠ b →
  let t := type (params h) in
  let k := key (params h) in
  setItem k (to_DOMString a) (storageMap t w) = Throw e →
  ∃ w',
    persistEffect i w = (w', Ok tt) ∧
    same_storage w w' ∧
    hooks w' = hooks w ∧
    log w' = log w ++ [SetItem t k (to_DOMString a);
                       ConsoleError (set_error_message (params h)) e].
Proof.
  intros Hi Hnull Ha Hb Hab t k Hset. subst t k. unfold persistEffect. rewrite Hi. simpl.
  unfold mbind at 1 2, Js_bind at 1 2, lift at 1 2. rewrite Ha, Hb.
  rewrite bool_decide_eq_false_2 by done. simpl. rewrite Hnull.
  unfold try_catch.
  erewrite bind_Throw.
  2:{ unfold mbind, Js_bind, lift, storage_setItem, backend_setItem. simpl.
      unfold mbind, Js_bind. simpl.
      replace (storageMap (type (params h)) _)
        with (storageMap (type (params h)) w) by (by destruct (type (params h))).
      rewrite Hset. reflexivity. }
  eexists. split; [reflexivity|]. simpl.
  split_and!; try done. by rewrite <- app_assoc.
Qed.

(** ** Reading a slot *)

Lemma getItem_setItem k s st st' : setItem k s st = Ok st' → getItem k st' = Some s.
Proof.
  unfold setItem, getItem. case_decide; [|done].
  intros [= <-]. simpl. apply lookup_insert_eq.
Qed.

Lemma getItem_removeItem k st : getItem k (removeItem k st) = None.
Proof. unfold getItem, removeItem. simpl. apply lookup_delete_eq. Qed.

Lemma readStored_slot p w s v :
  slot (type p) (key p) w = Some s →
  JSON_stringify v = Ok (Some s) →
  JSON_stringify (readStored p w) = Ok (Some s).
Proof.
  unfold slot, readStored. intros -> Hv.
  unfold truthy. rewrite bool_decide_eq_false_2 by eauto using stringify_nonempty.
  simpl. destruct (parse_stringify v s Hv) as (v' & -> & Hv'). done.
Qed.

Lemma readStored_absent p w :
  slot (type p) (key p) w = None → readStored p w = value p.
Proof. unfold slot, readStored. by intros ->. Qed.

Lemma is_nullish_true v : is_nullish v = true ↔ v = null ∨ v = undefined.
Proof.
  unfold is_nullish. rewrite orb_true_iff, !bool_decide_eq_true. done.
Qed.

Lemma is_nullish_false v : is_nullish v = false ↔ v ≠ null ∧ v ≠ undefined.
Proof.
  unfold is_nullish. rewrite orb_false_iff, !bool_decide_eq_false. done.
Qed.

(** A value with a JSON text other than [null] itself is neither [null]
    nor [undefined]. *)
Lemma serializable_not_nullish v s :
  JSON_stringify v = Ok (Some s) → v ≠ null → is_nullish v = false.
Proof.
  intros Hv Hnull. apply is_nullish_false. split; [done|].
  intros ->. by rewrite stringify_undefined in Hv.
Qed.

Lemma nullish_stringify v : is_nullish v = true → is_Ok (JSON_stringify v).
Proof.
  intros [->| ->]%is_nullish_true; eexists;
    [apply stringify_null | apply stringify_undefined].
Qed.

(** ** A call of the setter, then the effect *)

Lemma write_run i v w :
  write i v w = persistEffect i (setStoredValue i v w).1.
Proof. reflexivity. Qed.

Lemma lookup_setStoredValue_eq i v w h :
  hooks w !! i = Some h →
  hooks (setStoredValue i v w).1 !! i = Some (with_storedValue v h).
Proof. intros Hi. simpl. by rewrite list_lookup_alter_eq, Hi. Qed.

Lemma lookup_setStoredValue_ne i j v w :
  i ≠ j → hooks (setStoredValue i v w).1 !! j = hooks w !! j.
Proof. intros Hi. simpl. by rewrite list_lookup_alter_ne. Qed.

(** After a committed change, a hook that listens reads the slot again. *)
Lemma mirror_after_commit i j x name w0 w' hj :
  hooks w' = alter (with_previousValueRef x) i (refresh name w' <$> hooks w0) →
  hooks w0 !! j = Some hj →
  changed_event (key (params hj)) = name →
  mirror j w' = Some (readStored (params hj) w').
Proof.
  intros Hh Hj Hname. unfold mirror. rewrite Hh.
  assert ((refresh name w' <$> hooks w0) !! j
          = Some (with_storedValue (readStored (params hj) w') hj)) as Hr.
  { rewrite list_lookup_fmap, Hj. simpl. unfold refresh.
    by rewrite bool_decide_eq_true_2. }
  destruct (decide (i = j)) as [->|Hne].
  - by rewrite list_lookup_alter_eq, Hr.
  - by rewrite list_lookup_alter_ne, Hr.
Qed.

(** Right after [setStoredValue(v)] the mirror is [v], whatever [v] is. *)
Lemma mirror_setStoredValue i v w h :
  hooks w !! i = Some h → mirror i (setStoredValue i v w).1 = Some v.
Proof. intros Hi. unfold mirror. by rewrite (lookup_setStoredValue_eq i v w h). Qed.

(** C1 (as amended).  For a value [v] that has a JSON text and is not
    [null]: after [setStoredValue(v)] the mirror is [v], and after the effect
    of that render has run the mirror still has the text of [v], whether the
    value was written to the backend and read back through the
    [<key>-changed] event, refused by the backend, or found unchanged. *)
Theorem write_then_read i w h v s :
  hooks w !! i = Some h →
  is_Ok (JSON_stringify (previousValueRef h)) →
  JSON_stringify v = Ok (Some s) → v ≠ null →
  mirror i (setStoredValue i v w).1 = Some v ∧
  ∃ w' m, write i v w = (w', Ok tt) ∧
          mirror i w' = Some m ∧ JSON_stringify m = Ok (Some s).
Proof.
  intros Hi [b Hb] Hv Hnull. split; [by eapply mirror_setStoredValue|].
  rewrite write_run.
  pose proof (lookup_setStoredValue_eq i v w h Hi) as Hi0.
  set (w0 := (setStoredValue i v w).1) in *.
  set (h0 := with_storedValue v h) in *.
  destruct (decide (Some s = b)) as [<-|Hab].
  { exists w0, v. rewrite (persistEffect_unchanged i w0 h0 (Some s)) by done.
    unfold mirror. by rewrite Hi0. }
  pose proof (serializable_not_nullish v s Hv Hnull) as Hnn.
  destruct (setItem (key (params h0)) (to_DOMString (Some s))
              (storageMap (type (params h0)) w0)) as [st'|e] eqn:Hset.
  - destruct (persistEffect_setItem i w0 h0 (Some s) b st' Hi0 Hnn Hv Hb Hab Hset)
      as (w' & errs & Hrun & Hst & _ & Hh & _).
    exists w', (readStored (params h0) w'). split; [done|]. split.
    + by eapply mirror_after_commit.
    + apply (readStored_slot _ _ s v); [|done].
      unfold slot. rewrite Hst. by apply (getItem_setItem _ _ _ _ Hset).
  - destruct (persistEffect_setItem_throws i w0 h0 (Some s) b e Hi0 Hnn Hv Hb Hab Hset)
      as (w' & Hrun & _ & Hh & _).
    exists w', v. split; [done|]. unfold mirror. by rewrite Hh, Hi0.
Qed.

(** C2 (as amended).  Two hooks of one window with the same key and the
    same backend; one of them writes a value that has a JSON text and is not
    [null].  If that write dispatched the [<key>-changed] event, the mirror
    of the other hook has the text of the written value, without any call
    made on that hook. *)
Theorem cross_instance_sync i j w w' hi hj v s :
  hooks w !! i = Some hi →
  hooks w !! j = Some hj →
  key (params hj) = key (params hi) →
  type (params hj) = type (params hi) →
  JSON_stringify v = Ok (Some s) → v ≠ null →
  write i v w = (w', Ok tt) →
  DispatchEvent (changed_event (key (params hi))) ∈ drop (length (log w)) (log w') →
  ∃ m, mirror j w' = Some m ∧ JSON_stringify m = Ok (Some s).
Proof.
  intros Hi Hj Hkey Htype Hv Hnull. rewrite write_run.
  pose proof (lookup_setStoredValue_eq i v w hi Hi) as Hi0.
  assert (∃ hj0, hooks (setStoredValue i v w).1 !! j = Some hj0 ∧
                 params hj0 = params hj) as (hj0 & Hj0 & Hp).
  { destruct (decide (i = j)) as [->|Hne].
    - exists (with_storedValue v hi). split; [done|]. simpl. congruence.
    - exists hj. by rewrite lookup_setStoredValue_ne. }
  assert (log (setStoredValue i v w).1 = log w) as Hlog0 by done.
  set (w0 := (setStoredValue i v w).1) in *.
  set (h0 := with_storedValue v hi) in *.
  destruct (JSON_stringify (previousValueRef h0)) as [b|e] eqn:Hb.
  2:{ rewrite (persistEffect_throws i w0 h0 e); [discriminate | done |].
      right. split; [by exists (Some s) | done]. }
  destruct (decide (Some s = b)) as [<-|Hab].
  { rewrite (persistEffect_unchanged i w0 h0 (Some s)) by done.
    intros [= <-]. rewrite Hlog0, drop_all. by intros ?%elem_of_nil. }
  pose proof (serializable_not_nullish v s Hv Hnull) as Hnn.
  destruct (setItem (key (params h0)) (to_DOMString (Some s))
              (storageMap (type (params h0)) w0)) as [st'|e] eqn:Hset.
  - destruct (persistEffect_setItem i w0 h0 (Some s) b st' Hi0 Hnn Hv Hb Hab Hset)
      as (w1 & errs & -> & Hst & _ & Hh & _).
    intros [= <-] _. exists (readStored (params hj0) w1). split.
    + eapply mirror_after_commit; [exact Hh | exact Hj0 |].
      rewrite Hp. by rewrite Hkey.
    + apply (readStored_slot _ _ s v); [|done].
      unfold slot. rewrite Hp, Htype, Hkey.
      change (type (params hi)) with (type (params h0)).
      rewrite Hst. by apply (getItem_setItem _ _ _ _ Hset).
  - destruct (persistEffect_setItem_throws i w0 h0 (Some s) b e Hi0 Hnn Hv Hb Hab Hset)
      as (w1 & -> & _ & _ & Hlog).
    intros [= <-]. rewrite Hlog, Hlog0, drop_app_length.
    intros Hin. repeat (apply elem_of_cons in Hin as [?|Hin]; [discriminate|]).
    by apply elem_of_nil in Hin.
Qed.

(** Lines of [console.error] are neither backend calls nor events. *)
Lemma console_errors_no_backend_write (errs : list Event) :
  Forall (λ e, is_console_error e) errs →
  filter (λ e, is_backend_write e) errs = [].
Proof.
  induction 1 as [|e errs He _ IH]; [done|].
  rewrite filter_cons, IH. by destruct e.
Qed.

Lemma console_errors_no_notification (errs : list Event) :
  Forall (λ e, is_console_error e) errs →
  filter (λ e, is_notification e) errs = [].
Proof.
  induction 1 as [|e errs He _ IH]; [done|].
  rewrite filter_cons, IH. by destruct e.
Qed.

(** ** The hooks of other keys *)

Lemma length_append (s1 s2 : string) :
  String.length (s1 +:+ s2) = String.length s1 + String.length s2.
Proof.
  induction s1 as [|a s1 IH]; [done|].
  change (S (String.length (s1 +:+ s2)) = S (String.length s1 + String.length s2)).
  by rewrite IH.
Qed.

Lemma append_inj_suffix (s1 s2 x : string) : s1 +:+ x = s2 +:+ x → s1 = s2.
Proof.
  revert s2. induction s1 as [|a s1 IH]; intros [|b s2] H.
  - done.
  - apply (f_equal String.length) in H. rewrite !length_append in H. simpl in H. lia.
  - apply (f_equal String.length) in H. rewrite !length_append in H. simpl in H. lia.
  - change (String a (s1 +:+ x) = String b (s2 +:+ x)) in H.
    injection H as -> H. f_equal. by apply IH.
Qed.

(** Two keys have two event names. *)
Lemma changed_event_inj k k' : changed_event k = changed_event k' → k = k'.
Proof. apply append_inj_suffix. Qed.

Lemma refresh_other_key k w h :
  key (params h) ≠ k → refresh (changed_event k) w h = h.
Proof.
  intros Hk. unfold refresh. rewrite bool_decide_eq_false_2; [done|].
  by intros ?%changed_event_inj.
Qed.

Lemma with_storedValue_same h : with_storedValue (storedValue h) h = h.
Proof. by destruct h. Qed.

Lemma set_hooks_same w : set_hooks (hooks w) w = w.
Proof. by destruct w. Qed.

(** The listeners of an event leave the hooks of other keys as they are. *)
Lemma refresh_alone i k w0 w' (hs : list Hook) :
  (∀ j hj, hs !! j = Some hj → j ≠ i → key (params hj) ≠ k) →
  ∀ j, j ≠ i → (refresh (changed_event k) w' <$> hs) !! j = hs !! j.
Proof.
  intros Hkeys j Hj. rewrite list_lookup_fmap.
  destruct (hs !! j) as [hj|] eqn:Hhj; [simpl|done].
  by rewrite refresh_other_key by by eapply Hkeys.
Qed.

Lemma commit_alone i x k w0 w' :
  hooks w' = alter (with_previousValueRef x) i (refresh (changed_event k) w' <$> hooks w0) →
  (∀ j hj, hooks w0 !! j = Some hj → j ≠ i → key (params hj) ≠ k) →
  ∀ j, j ≠ i → hooks w' !! j = hooks w0 !! j.
Proof.
  intros -> Hkeys j Hj. rewrite list_lookup_alter_ne by done.
  by apply (refresh_alone i k w0).
Qed.

Lemma alone_keys i w h :
  hooks w !! i = Some h → alone i w →
  ∀ j hj, hooks w !! j = Some hj → j ≠ i → key (params hj) ≠ key (params h).
Proof. intros Hi Halone j hj Hj Hne. by eapply Halone. Qed.

(** ** A call of the setter *)

Lemma setter_changed i v w h :
  hooks w !! i = Some h → storedValue h ≠ v → setter i v w = write i v w.
Proof.
  intros Hi Hv. unfold setter. rewrite Hi. by rewrite bool_decide_eq_false_2.
Qed.

Lemma setter_unchanged i w h :
  hooks w !! i = Some h → setter i (storedValue h) w = (w, Ok tt).
Proof.
  intros Hi. unfold setter. rewrite Hi. by rewrite bool_decide_eq_true_2.
Qed.

(** C3 (as amended).  The hook is the only one mounted on its key.  A value
    with a JSON text, not [null], that is not the state already, whose text
    differs from the one committed before and which the backend accepts: the
    first call of the setter calls [setItem] once and dispatches the event
    once, and changes no other hook; the effect of a render that this event
    may cause does nothing; a second call of the setter with the value calls
    no backend, dispatches no event and changes no other hook, whether React
    renders for it or not. *)
Theorem repeated_write_suppressed i w h v s b st' :
  hooks w !! i = Some h →
  alone i w →
  storedValue h ≠ v →
  JSON_stringify v = Ok (Some s) → v ≠ null →
  JSON_stringify (previousValueRef h) = Ok b → b ≠ Some s →
  setItem (key (params h)) s (storageMap (type (params h)) w) = Ok st' →
  ∃ w1 w2 errs,
    setter i v w = (w1, Ok tt) ∧
    log w1 = log w ++ SetItem (type (params h)) (key (params h)) s
                   :: DispatchEvent (changed_event (key (params h))) :: errs ∧
    Forall (λ e, is_console_error e) errs ∧
    (∀ j, j ≠ i → hooks w1 !! j = hooks w !! j) ∧
    persistEffect i w1 = (w1, Ok tt) ∧
    setter i v w1 = (w2, Ok tt) ∧
    log w2 = log w1 ∧ same_storage w1 w2 ∧
    (∀ j, j ≠ i → hooks w2 !! j = hooks w !! j) ∧
    persistEffect i w2 = (w2, Ok tt) ∧
    length (filter (λ e, is_backend_write e) (drop (length (log w)) (log w2))) = 1 ∧
    length (filter (λ e, is_notification e) (drop (length (log w)) (log w2))) = 1.
Proof.
  intros Hi Halone Hchanged Hv Hnull Hb Hbs Hset.
  rewrite (setter_changed i v w h Hi Hchanged), write_run.
  pose proof (lookup_setStoredValue_eq i v w h Hi) as Hi0.
  pose proof (serializable_not_nullish v s Hv Hnull) as Hnn.
  set (w0 := (setStoredValue i v w).1) in *.
  set (h0 := with_storedValue v h) in *.
  destruct (persistEffect_setItem i w0 h0 (Some s) b st' Hi0 Hnn Hv Hb) as
    (w1 & errs & Hrun & Hst & _ & Hh & Hlog & Herrs); [congruence | done |].
  assert (∀ j hj, hooks w0 !! j = Some hj → j ≠ i →
                   key (params hj) ≠ key (params h0)) as Hkeys0.
  { intros j hj Hj Hne. apply (alone_keys i w h Hi Halone j hj); [|done].
    rewrite <- Hj. symmetry. by apply lookup_setStoredValue_ne. }
  assert (∀ j, j ≠ i → hooks w1 !! j = hooks w !! j) as Hothers.
  { intros j Hj. rewrite (commit_alone i _ _ w0 w1 Hh Hkeys0 j Hj).
    by apply lookup_setStoredValue_ne. }
  set (r := readStored (params h0) w1) in *.
  assert (hooks w1 !! i = Some (with_previousValueRef v (with_storedValue r h0))) as Hi1.
  { rewrite Hh, list_lookup_alter_eq, list_lookup_fmap, Hi0. simpl.
    unfold refresh. by rewrite bool_decide_eq_true_2. }
  assert (JSON_stringify r = Ok (Some s)) as Hread.
  { apply (readStored_slot _ _ s v); [|done].
    unfold slot. rewrite Hst. by apply (getItem_setItem _ _ _ _ Hset). }
  assert (persistEffect i w1 = (w1, Ok tt)) as Hfix1.
  { by eapply persistEffect_unchanged. }
  assert (∃ w2, setter i v w1 = (w2, Ok tt) ∧ log w2 = log w1 ∧ same_storage w1 w2 ∧
                (∀ j, j ≠ i → hooks w2 !! j = hooks w1 !! j) ∧
                persistEffect i w2 = (w2, Ok tt))
    as (w2 & Hrun2 & Hlog2 & Hsame2 & Hothers2 & Hfix2).
  { destruct (decide (r = v)) as [Heq|Hne].
    - exists w1. split_and!; try done.
      rewrite <- Heq.
      by apply (setter_unchanged i w1 (with_previousValueRef v (with_storedValue r h0))).
    - exists (setStoredValue i v w1).1.
      assert (persistEffect i (setStoredValue i v w1).1
              = ((setStoredValue i v w1).1, Ok tt)) as Hfix.
      { eapply persistEffect_unchanged.
        - by apply lookup_setStoredValue_eq.
        - done.
        - done. }
      split_and!; try done.
      + rewrite (setter_changed i v w1 _ Hi1) by done. by rewrite write_run.
      + intros j Hj. by rewrite lookup_setStoredValue_ne. }
  exists w1, w2, errs.
  split_and!; [done | done | done | done | done | done | done | done | | done | | ].
  - intros j Hj. by rewrite Hothers2, Hothers.
  - rewrite Hlog2, Hlog, drop_app_length.
    rewrite filter_cons_True, filter_cons_False by (simpl; tauto).
    by rewrite (console_errors_no_backend_write errs).
  - rewrite Hlog2, Hlog, drop_app_length.
    rewrite filter_cons_False, filter_cons_True by (simpl; tauto).
    by rewrite (console_errors_no_notification errs).
Qed.

(** What the hook at [i] holds after a committed change. *)
Lemma ref_after_commit i x name w0 w' h :
  hooks w' = alter (with_previousValueRef x) i (refresh name w' <$> hooks w0) →
  hooks w0 !! i = Some h →
  previousValueRef <$> hooks w' !! i = Some x.
Proof.
  intros -> Hi. rewrite list_lookup_alter_eq, list_lookup_fmap, Hi. done.
Qed.

(** C4 (as amended).  The value changed.  When the backend step returns
    (any [removeItem], a [setItem] that is accepted), the event is
    dispatched next and the value is recorded as committed.  When [setItem]
    throws, the error is logged and that is all: no event, the cell of
    [useRef] and the backends as they were. *)
Theorem persist_commits_after_backend_success i w h a b :
  hooks w !! i = Some h →
  JSON_stringify (storedValue h) = Ok a →
  JSON_stringify (previousValueRef h) = Ok b →
  a ≠ b →
  let t := type (params h) in
  let k := key (params h) in
  ∃ w',
    persistEffect i w = (w', Ok tt) ∧
    (is_nullish (storedValue h) = true ∨
     is_Ok (setItem k (to_DOMString a) (storageMap t w)) →
     (∃ e errs,
        drop (length (log w)) (log w') = e :: DispatchEvent (changed_event k) :: errs ∧
        is_backend_write e = true ∧
        Forall (λ e, is_console_error e) errs) ∧
     previousValueRef <$> hooks w' !! i = Some (storedValue h)) ∧
    (is_nullish (storedValue h) = false →
     ∀ e, setItem k (to_DOMString a) (storageMap t w) = Throw e →
       drop (length (log w)) (log w')
         = [SetItem t k (to_DOMString a); ConsoleError (set_error_message (params h)) e] ∧
       hooks w' = hooks w ∧ same_storage w w').
Proof.
  intros Hi Ha Hb Hab t k.
  destruct (is_nullish (storedValue h)) eqn:Hnn.
  { destruct (persistEffect_removeItem i w h a b Hi Hnn Ha Hb Hab)
      as (w' & errs & Hrun & _ & _ & Hh & Hlog & Herrs).
    exists w'. split; [done|]. split; [|done].
    intros _. split; [|by eapply ref_after_commit].
    eexists _, errs. by rewrite Hlog, drop_app_length. }
  destruct (setItem k (to_DOMString a) (storageMap t w)) as [st'|e] eqn:Hset.
  - destruct (persistEffect_setItem i w h a b st' Hi Hnn Ha Hb Hab Hset)
      as (w' & errs & Hrun & _ & _ & Hh & Hlog & Herrs).
    exists w'. split; [done|]. split; [|done].
    intros _. split; [|by eapply ref_after_commit].
    eexists _, errs. by rewrite Hlog, drop_app_length.
  - destruct (persistEffect_setItem_throws i w h a b e Hi Hnn Ha Hb Hab Hset)
      as (w' & Hrun & Hsame & Hh & Hlog).
    exists w'. split; [done|]. split.
    + intros [?|[? ?]]; done.
    + intros _ e' [= <-]. by rewrite Hlog, drop_app_length.
Qed.

(** ** No exception where the values have a JSON text *)

Lemma persistEffect_returns i w :
  (∀ h, hooks w !! i = Some h →
        is_Ok (JSON_stringify (storedValue h)) ∧
        is_Ok (JSON_stringify (previousValueRef h))) →
  ∃ w', persistEffect i w = (w', Ok tt).
Proof.
  intros H. destruct (hooks w !! i) as [h|] eqn:Hi.
  2:{ exists w. unfold persistEffect. by rewrite Hi. }
  destruct (H h eq_refl) as [[a Ha] [b Hb]].
  destruct (decide (a = b)) as [<-|Hab].
  { exists w. by eapply persistEffect_unchanged. }
  destruct (is_nullish (storedValue h)) eqn:Hnn.
  { destruct (persistEffect_removeItem i w h a b Hi Hnn Ha Hb Hab)
      as (w' & errs & Hrun & _). by exists w'. }
  destruct (setItem (key (params h)) (to_DOMString a)
              (storageMap (type (params h)) w)) as [st'|e] eqn:Hset.
  - destruct (persistEffect_setItem i w h a b st' Hi Hnn Ha Hb Hab Hset)
      as (w' & errs & Hrun & _). by exists w'.
  - destruct (persistEffect_setItem_throws i w h a b e Hi Hnn Ha Hb Hab Hset)
      as (w' & Hrun & _). by exists w'.
Qed.

Lemma removeStoredValue_run i w h :
  hooks w !! i = Some h →
  let t := type (params h) in
  let k := key (params h) in
  ∃ w' errs,
    removeStoredValue i w = (w', Ok tt) ∧
    storageMap t w' = removeItem k (storageMap t w) ∧
    (∀ t', t' ≠ t → storageMap t' w' = storageMap t' w) ∧
    hooks w' = refresh (changed_event k) w' <$> hooks w ∧
    log w' = log w ++ RemoveItem t k :: DispatchEvent (changed_event k) :: errs ∧
    Forall (λ e, is_console_error e) errs.
Proof.
  intros Hi t k. unfold removeStoredValue. rewrite Hi. fold t k.
  set (w1 := (storage_removeItem t k w).1).
  destruct (dispatchEvent_run (changed_event k) w1)
    as (w' & errs & Hrun & Hl & Hs & Hh & Hlog & Herrs).
  assert (same_storage w1 w') as Hsame by done.
  exists w', errs. split.
  { by rewrite (bind_Ok _ _ w w1 tt). }
  split_and!; [ | | | | done].
  - rewrite (same_storage_storageMap w1 w') by done.
    subst w1. simpl. by rewrite storageMap_set_storage_eq; destruct t.
  - intros t' Ht'. rewrite (same_storage_storageMap w1 w') by done.
    subst w1. simpl. rewrite storageMap_set_storage_ne by done. by destruct t'.
  - rewrite Hh. subst w1. simpl. rewrite hooks_set_storage. simpl.
    apply list_fmap_ext. intros _ hj _. symmetry. by apply same_storage_refresh.
  - rewrite Hlog. subst w1. simpl. rewrite log_set_storage. simpl.
    by rewrite <- app_assoc.
Qed.

Lemma mount_run p w :
  ∃ w',
    mount p w = (w', Ok (length (hooks w))) ∧
    quiet w w' ∧
    hooks w' = hooks w ++ [{| params := p; storedValue := readStored p w;
                              previousValueRef := null |}].
Proof.
  destruct (getStoredValue_run p w) as (w1 & Hrun & Hq & Hh).
  exists (set_hooks
            (hooks w1 ++ [{| params := p; storedValue := readStored p w;
                             previousValueRef := null |}]) w1).
  split.
  { unfold mount. rewrite (bind_Ok _ _ _ _ _ Hrun). unfold add_hook.
    by rewrite <- Hh. }
  simpl. split; [by destruct Hq as (? & ? & ?)|]. by rewrite Hh.
Qed.

(** C6 (as amended).  The cell of [useRef] starts as [null].  For an
    initial mirror value whose JSON text is not that of [null] (or that has
    none), the first run of the effect after the mount is not suppressed: the
    first thing it does is to call [removeItem] on the slot when the value is
    [undefined], and [setItem] on the slot with the text of the value
    otherwise. *)
Theorem first_persist_not_suppressed p w w1 i v a :
  mount p w = (w1, Ok i) →
  mirror i w1 = Some v →
  JSON_stringify v = Ok a → a ≠ Some "null" →
  ∃ w' tr,
    persistEffect i w1 = (w', Ok tt) ∧
    log w' = log w1 ++ (if bool_decide (v = undefined)
                        then RemoveItem (type p) (key p)
                        else SetItem (type p) (key p) (to_DOMString a)) :: tr.
Proof.
  destruct (mount_run p w) as (w1' & -> & _ & Hh).
  intros [= <- <-]. unfold mirror. rewrite Hh.
  rewrite lookup_app_r, Nat.sub_diag by done. simpl. intros [= <-] Ha Hnull.
  set (h := {| params := p; storedValue := readStored p w; previousValueRef := null |}) in *.
  assert (hooks w1' !! length (hooks w) = Some h) as Hi.
  { rewrite Hh, lookup_app_r, Nat.sub_diag by done. done. }
  pose proof stringify_null as Hb.
  destruct (is_nullish (storedValue h)) eqn:Hnn.
  { assert (storedValue h = undefined) as Hundef.
    { apply is_nullish_true in Hnn as [Hn|Hu]; [|done].
      simpl in Hn. rewrite Hn, stringify_null in Ha. congruence. }
    destruct (persistEffect_removeItem _ w1' h a _ Hi Hnn Ha Hb Hnull)
      as (w' & errs & Hrun & _ & _ & _ & Hlog & _).
    eexists w', _. split; [done|].
    change (readStored p w) with (storedValue h).
    by rewrite bool_decide_eq_true_2. }
  assert (storedValue h ≠ undefined) as Hdef by by apply is_nullish_false in Hnn as [_ ?].
  destruct (setItem (key (params h)) (to_DOMString a)
              (storageMap (type (params h)) w1')) as [st'|e] eqn:Hset.
  - destruct (persistEffect_setItem _ w1' h a _ st' Hi Hnn Ha Hb Hnull Hset)
      as (w' & errs & Hrun & _ & _ & _ & Hlog & _).
    eexists w', _. split; [done|].
    change (readStored p w) with (storedValue h).
    by rewrite bool_decide_eq_false_2.
  - destruct (persistEffect_setItem_throws _ w1' h a _ e Hi Hnn Ha Hb Hnull Hset)
      as (w' & Hrun & _ & _ & Hlog).
    eexists w', _. split; [done|].
    change (readStored p w) with (storedValue h).
    by rewrite bool_decide_eq_false_2.
Qed.

(** C7 (as amended).  After [setStoredValue(v)] with [v] [null] or
    [undefined] the mirror is [v].  The effect of that render, when the value
    differs from the committed one, calls [removeItem] and no [setItem], so
    that the slot is absent after it; the event it then dispatches makes the
    hook read the absent slot, and the mirror is the default value. *)
Theorem write_nullish_removes_slot i w h v b :
  hooks w !! i = Some h →
  is_nullish v = true →
  JSON_stringify (previousValueRef h) = Ok b →
  JSON_stringify v ≠ Ok b →
  let t := type (params h) in
  let k := key (params h) in
  mirror i (setStoredValue i v w).1 = Some v ∧
  ∃ w' errs,
    write i v w = (w', Ok tt) ∧
    slot t k w' = None ∧
    log w' = log w ++ RemoveItem t k :: DispatchEvent (changed_event k) :: errs ∧
    Forall (λ e, is_console_error e) errs ∧
    mirror i w' = Some (value (params h)).
Proof.
  intros Hi Hnn Hb Hvb t k.
  pose proof (lookup_setStoredValue_eq i v w h Hi) as Hi0.
  split. { unfold mirror. by rewrite Hi0. }
  rewrite write_run.
  set (w0 := (setStoredValue i v w).1) in *.
  set (h0 := with_storedValue v h) in *.
  destruct (nullish_stringify v Hnn) as [a Ha].
  destruct (persistEffect_removeItem i w0 h0 a b Hi0 Hnn Ha Hb)
    as (w' & errs & Hrun & Hst & _ & Hh & Hlog & Herrs); [congruence|].
  assert (slot t k w' = None) as Hslot.
  { unfold slot. change t with (type (params h0)). rewrite Hst.
    apply getItem_removeItem. }
  exists w', errs. split_and!; [done | done | done | done |].
  erewrite mirror_after_commit; [| exact Hh | exact Hi0 | done].
  f_equal. by apply readStored_absent.
Qed.

(** What [removeStoredValue()] leaves of the hooks, when the hook is the only
    one on its key: the state of the hook is its default, the rest is as it
    was. *)
Lemma removeStoredValue_alone i w w1 h :
  hooks w !! i = Some h → alone i w →
  hooks w1 = refresh (changed_event (key (params h))) w1 <$> hooks w →
  slot (type (params h)) (key (params h)) w1 = None →
  hooks w1 !! i = Some (with_storedValue (value (params h)) h) ∧
  ∀ j, j ≠ i → hooks w1 !! j = hooks w !! j.
Proof.
  intros Hi Halone Hh Hslot. split.
  - rewrite Hh, list_lookup_fmap, Hi. simpl. unfold refresh.
    rewrite bool_decide_eq_true_2 by done. by rewrite readStored_absent.
  - intros j Hj. rewrite Hh.
    apply (refresh_alone i _ w w1); [|done]. by apply alone_keys.
Qed.

(** C8 (as amended).  [removeStoredValue()] of a hook empties the slot.  A
    hook mounted for the same key and backend before the remover renders
    again starts with its own default, whatever the slot held.  Where the
    remover is the only hook on its key: if its state was its default
    already, no hook has changed, React renders nothing and the slot stays
    absent; if it was not, React renders the remover again, the effect of
    that render (for a default with a JSON text, not [null], other than the
    committed one, that the backend accepts) sets the slot to the text of
    the remover's default and a further render does nothing more; a hook
    mounted for the same key and backend after that starts with a value that
    has the text of the remover's default, whatever its own default is. *)
Theorem remove_then_fresh_reads_default i w h d :
  hooks w !! i = Some h →
  let t := type (params h) in
  let k := key (params h) in
  let fresh := {| key := k; value := d; type := t |} in
  ∃ w1,
    removeStoredValue i w = (w1, Ok tt) ∧
    slot t k w1 = None ∧
    (∃ w2 j, mount fresh w1 = (w2, Ok j) ∧ mirror j w2 = Some d) ∧
    (alone i w → storedValue h = value (params h) → hooks w1 = hooks w) ∧
    (alone i w → storedValue h ≠ value (params h) →
     ∀ s b st',
       JSON_stringify (value (params h)) = Ok (Some s) → value (params h) ≠ null →
       JSON_stringify (previousValueRef h) = Ok b → b ≠ Some s →
       setItem k s (removeItem k (storageMap t w)) = Ok st' →
       ∃ w2 w3 j m,
         persistEffect i w1 = (w2, Ok tt) ∧
         slot t k w2 = Some s ∧
         (∀ j', j' ≠ i → hooks w2 !! j' = hooks w !! j') ∧
         persistEffect i w2 = (w2, Ok tt) ∧
         mount fresh w2 = (w3, Ok j) ∧
         mirror j w3 = Some m ∧
         JSON_stringify m = Ok (Some s)).
Proof.
  intros Hi t k fresh.
  destruct (removeStoredValue_run i w h Hi) as (w1 & errs & Hrun & Hst & _ & Hh & _).
  fold t k in Hst, Hh.
  assert (slot t k w1 = None) as Hslot.
  { unfold slot. rewrite Hst. apply getItem_removeItem. }
  exists w1. split_and!; [done | done | | |].
  - destruct (mount_run fresh w1) as (w2 & Hmount & _ & Hh2).
    exists w2, (length (hooks w1)). split; [done|].
    unfold mirror. rewrite Hh2, lookup_app_r, Nat.sub_diag by done. simpl.
    f_equal. by apply readStored_absent.
  - intros Halone Hsame.
    destruct (removeStoredValue_alone i w w1 h Hi Halone Hh Hslot) as [Hi1 Hothers].
    apply list_eq. intros j. destruct (decide (j = i)) as [->|Hj]; [|by apply Hothers].
    by rewrite Hi1, Hi, <- Hsame, with_storedValue_same.
  - intros Halone _ s b st' Hd Hnull Hb Hbs Hset.
    destruct (removeStoredValue_alone i w w1 h Hi Halone Hh Hslot) as [Hi1 Hothers].
    set (h1 := with_storedValue (value (params h)) h) in *.
    pose proof (serializable_not_nullish _ s Hd Hnull) as Hnn.
    destruct (persistEffect_setItem i w1 h1 (Some s) b st' Hi1 Hnn Hd Hb) as
      (w2 & errs2 & Hrun2 & Hst2 & _ & Hh2 & _).
    { congruence. }
    { simpl. fold t k. by rewrite Hst. }
    assert (slot t k w2 = Some s) as Hslot2.
    { unfold slot. change t with (type (params h1)). rewrite Hst2.
      by apply (getItem_setItem _ _ _ _ Hset). }
    assert (∀ j', j' ≠ i → hooks w2 !! j' = hooks w !! j') as Hothers2.
    { intros j' Hj'. rewrite (commit_alone i _ _ w1 w2 Hh2); [by apply Hothers| |done].
      intros j hj Hj Hne. rewrite Hothers in Hj by done.
      by apply (alone_keys i w h Hi Halone j). }
    set (r := readStored (params h1) w2) in *.
    assert (JSON_stringify r = Ok (Some s)) as Hread.
    { by apply (readStored_slot _ _ s (value (params h))). }
    assert (persistEffect i w2 = (w2, Ok tt)) as Hfix.
    { apply (persistEffect_unchanged i w2
               (with_previousValueRef (storedValue h1) (with_storedValue r h1)) (Some s)).
      - rewrite Hh2, list_lookup_alter_eq, list_lookup_fmap, Hi1. simpl.
        unfold refresh. by rewrite bool_decide_eq_true_2.
      - done.
      - done. }
    destruct (mount_run fresh w2) as (w3 & Hmount & _ & Hh3).
    exists w2, w3, (length (hooks w2)), (readStored fresh w2).
    split_and!; [done | done | done | done | done | |].
    + unfold mirror. by rewrite Hh3, lookup_app_r, Nat.sub_diag.
    + by apply (readStored_slot fresh w2 s (value (params h))).
Qed.

(** C10 (as amended).  A hook that is the only one on its key, whose state
    is not its default, whose default has a JSON text and is not [null], and
    whose committed value has another text: after [removeStoredValue()] the
    slot is absent, the state is the default and no other hook has changed;
    React renders the hook again, and after the effect of that render the
    slot holds the text of the default again (if the backend accepts it), the
    mirror has that text, no other hook has changed and a further render
    does nothing more. *)
Theorem remove_then_persist_recreates_slot i w h s b st' :
  hooks w !! i = Some h →
  let t := type (params h) in
  let k := key (params h) in
  let d := value (params h) in
  alone i w →
  storedValue h ≠ d →
  JSON_stringify d = Ok (Some s) → d ≠ null →
  JSON_stringify (previousValueRef h) = Ok b → b ≠ Some s →
  setItem k s (removeItem k (storageMap t w)) = Ok st' →
  ∃ w1 w2 m,
    removeStoredValue i w = (w1, Ok tt) ∧
    slot t k w1 = None ∧
    mirror i w1 = Some d ∧
    (∀ j, j ≠ i → hooks w1 !! j = hooks w !! j) ∧
    persistEffect i w1 = (w2, Ok tt) ∧
    slot t k w2 = Some s ∧
    mirror i w2 = Some m ∧
    JSON_stringify m = Ok (Some s) ∧
    (∀ j, j ≠ i → hooks w2 !! j = hooks w !! j) ∧
    persistEffect i w2 = (w2, Ok tt).
Proof.
  intros Hi t k d Halone _ Hd Hnull Hb Hbs Hset.
  destruct (removeStoredValue_run i w h Hi) as (w1 & errs & Hrun & Hst & _ & Hh & _).
  fold t k in Hst, Hh.
  assert (slot t k w1 = None) as Hslot.
  { unfold slot. rewrite Hst. apply getItem_removeItem. }
  destruct (removeStoredValue_alone i w w1 h Hi Halone Hh Hslot) as [Hi1 Hothers].
  fold d in Hi1.
  set (h1 := with_storedValue d h) in *.
  pose proof (serializable_not_nullish d s Hd Hnull) as Hnn.
  destruct (persistEffect_setItem i w1 h1 (Some s) b st' Hi1 Hnn Hd Hb) as
    (w2 & errs2 & Hrun2 & Hst2 & _ & Hh2 & _).
  { congruence. }
  { simpl. fold t k. by rewrite Hst. }
  assert (slot t k w2 = Some s) as Hslot2.
  { unfold slot. change t with (type (params h1)). rewrite Hst2.
    by apply (getItem_setItem _ _ _ _ Hset). }
  set (r := readStored (params h1) w2) in *.
  assert (JSON_stringify r = Ok (Some s)) as Hread.
  { by apply (readStored_slot _ _ s d). }
  assert (hooks w2 !! i
          = Some (with_previousValueRef (storedValue h1) (with_storedValue r h1))) as Hi2.
  { rewrite Hh2, list_lookup_alter_eq, list_lookup_fmap, Hi1. simpl.
    unfold refresh. by rewrite bool_decide_eq_true_2. }
  exists w1, w2, r.
  split_and!; [done | done | | done | done | done | | done | |].
  - unfold mirror. by rewrite Hi1.
  - unfold mirror. by rewrite Hi2.
  - intros j Hj. rewrite (commit_alone i _ _ w1 w2 Hh2); [by apply Hothers| |done].
    intros j' hj Hj' Hne. rewrite Hothers in Hj' by done.
    by apply (alone_keys i w h Hi Halone j').
  - by apply (persistEffect_unchanged i w2 _ (Some s) Hi2).
Qed.

(** ** An invariant: the committed value has a JSON text or none *)

(** [refs_ok], the hypothesis on [previousValueRef] of the theorems above,
    holds in every window that the operations of the hook produce from one
    where it holds. *)

Lemma refs_ok_refresh name w0 (hs : list Hook) :
  (∀ j h, hs !! j = Some h → is_Ok (JSON_stringify (previousValueRef h))) →
  ∀ j h, (refresh name w0 <$> hs) !! j = Some h →
         is_Ok (JSON_stringify (previousValueRef h)).
Proof.
  intros Hok j h. rewrite list_lookup_fmap.
  destruct (hs !! j) as [h0|] eqn:Hj; [|done].
  intros [= <-]. unfold refresh. case_bool_decide; simpl; by eapply Hok.
Qed.

Lemma refs_ok_commit i v name w0 w w' :
  refs_ok w → is_Ok (JSON_stringify v) →
  hooks w' = alter (with_previousValueRef v) i (refresh name w0 <$> hooks w) →
  refs_ok w'.
Proof.
  intros Hok Hv Hh j h. rewrite Hh.
  destruct (decide (i = j)) as [<-|Hne].
  - rewrite list_lookup_alter_eq.
    destruct (_ !! i); [|done]. by intros [= <-].
  - rewrite list_lookup_alter_ne by done. by apply refs_ok_refresh.
Qed.

Lemma refs_ok_setStoredValue i v w : refs_ok w → refs_ok (setStoredValue i v w).1.
Proof.
  intros Hok j h. simpl. destruct (decide (i = j)) as [<-|Hne].
  - rewrite list_lookup_alter_eq. destruct (hooks w !! i) as [h0|] eqn:Hi; [|done].
    intros [= <-]. simpl. by eapply Hok.
  - rewrite list_lookup_alter_ne by done. apply Hok.
Qed.

Lemma refs_ok_mount p w : refs_ok w → refs_ok (mount p w).1.
Proof.
  intros Hok. destruct (mount_run p w) as (w' & -> & _ & Hh). simpl.
  intros j h. rewrite Hh. intros [Hj|[_ Hj]]%lookup_app_Some.
  - by eapply Hok.
  - destruct (j - length (hooks w)) as [|n]; [|by destruct n].
    injection Hj as <-. simpl. eexists. apply stringify_null.
Qed.

Lemma refs_ok_removeStoredValue i w : refs_ok w → refs_ok (removeStoredValue i w).1.
Proof.
  intros Hok. destruct (hooks w !! i) as [h|] eqn:Hi.
  - destruct (removeStoredValue_run i w h Hi) as (w' & errs & -> & _ & _ & Hh & _).
    simpl. intros j hj. rewrite Hh. by apply refs_ok_refresh.
  - unfold removeStoredValue. by rewrite Hi.
Qed.

Lemma refs_ok_persistEffect i w : refs_ok w → refs_ok (persistEffect i w).1.
Proof.
  intros Hok. destruct (hooks w !! i) as [h|] eqn:Hi.
  2:{ unfold persistEffect. by rewrite Hi. }
  destruct (JSON_stringify (storedValue h)) as [a|e] eqn:Ha.
  2:{ rewrite (persistEffect_throws i w h e); auto. }
  destruct (Hok i h Hi) as [b Hb].
  destruct (decide (a = b)) as [<-|Hab].
  { by rewrite (persistEffect_unchanged i w h a). }
  destruct (is_nullish (storedValue h)) eqn:Hnn.
  { destruct (persistEffect_removeItem i w h a b Hi Hnn Ha Hb Hab)
      as (w' & errs & -> & _ & _ & Hh & _).
    eapply (refs_ok_commit i (storedValue h)); [done | by exists a | exact Hh]. }
  destruct (setItem (key (params h)) (to_DOMString a)
              (storageMap (type (params h)) w)) as [st'|e] eqn:Hset.
  - destruct (persistEffect_setItem i w h a b st' Hi Hnn Ha Hb Hab Hset)
      as (w' & errs & -> & _ & _ & Hh & _).
    eapply (refs_ok_commit i (storedValue h)); [done | by exists a | exact Hh].
  - destruct (persistEffect_setItem_throws i w h a b e Hi Hnn Ha Hb Hab Hset)
      as (w' & -> & _ & Hh & _).
    simpl. intros j hj. rewrite Hh. apply Hok.
Qed.

Lemma refs_ok_same_refs w w' :
  previousValueRef <$> hooks w' = previousValueRef <$> hooks w →
  refs_ok w → refs_ok w'.
Proof.
  intros Hrefs Hok j h Hj.
  assert ((previousValueRef <$> hooks w) !! j = Some (previousValueRef h)) as Hr.
  { by rewrite <- Hrefs, list_lookup_fmap, Hj. }
  rewrite list_lookup_fmap in Hr.
  destruct (hooks w !! j) as [h0|] eqn:Hj0; [|done].
  injection Hr as <-. by eapply Hok.
Qed.

Lemma handleStorage_refs (ev : option string) j w :
  previousValueRef <$> hooks (handleStorage ev j w) = previousValueRef <$> hooks w.
Proof.
  unfold handleStorage. destruct (hooks w !! j) as [h|]; [|done].
  case_bool_decide; [|done].
  destruct (getStoredValue_run (params h) w) as (w1 & -> & _ & Hh).
  simpl. rewrite Hh. apply list_eq. intros n. rewrite !list_lookup_fmap.
  destruct (decide (j = n)) as [<-|Hne].
  - rewrite list_lookup_alter_eq. by destruct (hooks w !! j).
  - by rewrite list_lookup_alter_ne.
Qed.

Lemma run_listeners_refs (listener : nat → Window → Window) w :
  (∀ j w, previousValueRef <$> hooks (listener j w) = previousValueRef <$> hooks w) →
  previousValueRef <$> hooks (run_listeners listener w).1 = previousValueRef <$> hooks w.
Proof.
  intros Hl. unfold run_listeners. simpl.
  generalize (seq 0 (length (hooks w))). intros js. revert w.
  induction js as [|j js IH]; intros w; simpl; [done|].
  by rewrite IH, Hl.
Qed.

Lemma refs_ok_other_context t st (ev : option string) w :
  refs_ok w → refs_ok (other_context t st ev w).1.
Proof.
  apply refs_ok_same_refs. unfold other_context, storageEvent.
  rewrite run_listeners_refs by apply handleStorage_refs.
  by rewrite hooks_set_storage.
Qed.

(** Every step keeps the invariant, and a window without hooks has it. *)
Lemma refs_ok_step w w' : step w w' → refs_ok w → refs_ok w'.
Proof.
  intros [p|i v|i|i|t st ev].
  - apply refs_ok_mount.
  - apply refs_ok_setStoredValue.
  - apply refs_ok_removeStoredValue.
  - apply refs_ok_persistEffect.
  - apply refs_ok_other_context.
Qed.

Lemma refs_ok_steps w w' : rtc step w w' → refs_ok w → refs_ok w'.
Proof. induction 1; eauto using refs_ok_step. Qed.

Lemma refs_ok_reachable w w' : hooks w = [] → rtc step w w' → refs_ok w'.
Proof.
  intros Hnil Hsteps. apply (refs_ok_steps w w' Hsteps).
  intros j h. by rewrite Hnil.
Qed.

(** ** [getStoredValue], case by case *)

Lemma getStoredValue_log p w :
  log (getStoredValue p w).1
  = log w ++ match slot (type p) (key p) w with
             | Some s =>
                 if truthy s then
                   match JSON_parse s with
                   | Ok _ => []
                   | Throw e => [ConsoleError (get_error_message p) e]
                   end
                 else []
             | None => []
             end.
Proof.
  unfold getStoredValue, try_catch, slot.
  unfold mbind at 1, Js_bind at 1. unfold storage_getItem.
  destruct (getItem _ _) as [s|]; [destruct (truthy s)|]; simpl;
    try by rewrite app_nil_r.
  unfold lift. destruct (JSON_parse s) as [v|e]; simpl; [by rewrite app_nil_r | done].
Qed.

(** X1.  [getStoredValue] never throws and changes neither the backends
    nor the hooks.  It returns the default when the slot is absent or holds
    the empty text, and logs nothing; the default, after one line of
    [console.error], when the text of the slot does not parse; and the
    parsed value, with nothing logged, otherwise. *)
Theorem getStoredValue_falls_back p w :
  ∃ w' v,
    getStoredValue p w = (w', Ok v) ∧
    same_storage w w' ∧ hooks w' = hooks w ∧
    (slot (type p) (key p) w = None ∨ slot (type p) (key p) w = Some "" →
     v = value p ∧ log w' = log w) ∧
    (∀ s e, slot (type p) (key p) w = Some s → s ≠ "" → JSON_parse s = Throw e →
       v = value p ∧ log w' = log w ++ [ConsoleError (get_error_message p) e]) ∧
    (∀ s v', slot (type p) (key p) w = Some s → s ≠ "" → JSON_parse s = Ok v' →
       v = v' ∧ log w' = log w).
Proof.
  destruct (getStoredValue_run p w) as (w' & Hrun & Hq & Hh).
  exists w', (readStored p w).
  pose proof (getStoredValue_log p w) as Hlog. rewrite Hrun in Hlog. simpl in Hlog.
  split_and!; [done | by apply quiet_same_storage | done | | |].
  - unfold readStored, slot in *. intros [Hs|Hs]; rewrite Hs in *; simpl in *;
      by rewrite app_nil_r in Hlog.
  - intros s e Hs Hne He. unfold readStored, slot in *. rewrite Hs in *.
    unfold truthy in *. rewrite bool_decide_eq_false_2 in * by done. simpl in *.
    by rewrite He in *.
  - intros s v' Hs Hne Hv. unfold readStored, slot in *. rewrite Hs in *.
    unfold truthy in *. rewrite bool_decide_eq_false_2 in * by done. simpl in *.
    rewrite Hv in *. by rewrite app_nil_r in Hlog.
Qed.


(** ** Mounting on a slot that holds a value *)

Lemma text_not_null_not_nullish v s :
  JSON_stringify v = Ok (Some s) → s ≠ "null" → is_nullish v = false.
Proof.
  intros Hv Hs. apply (serializable_not_nullish v s Hv).
  intros ->. rewrite stringify_null in Hv. congruence.
Qed.

Lemma useStoredState_run p w w1 i r :
  mount p w = (w1, Ok i) →
  persistEffect i w1 = r →
  useStoredState p w = (r.1, match r.2 with Ok _ => Ok i | Throw e => Throw e end).
Proof.
  intros Hm <-. unfold useStoredState. rewrite (bind_Ok _ _ _ _ _ Hm).
  unfold mbind, Js_bind. destruct (persistEffect i w1) as [w2 [[]|e]]; reflexivity.
Qed.

(** X2.  A hook that mounts on a slot holding the JSON text of some value
    starts with a value of that text, whatever its default is, and its first
    effects leave that text in the slot: a stored value survives a new
    mount. *)
Theorem useStoredState_keeps_stored_value p w s v0 :
  slot (type p) (key p) w = Some s →
  JSON_stringify v0 = Ok (Some s) →
  ∃ w' m,
    useStoredState p w = (w', Ok (length (hooks w))) ∧
    slot (type p) (key p) w' = Some s ∧
    mirror (length (hooks w)) w' = Some m ∧
    JSON_stringify m = Ok (Some s).
Proof.
  intros Hslot Hv0.
  destruct (mount_run p w) as (w1 & Hmount & Hq & Hh).
  apply quiet_same_storage in Hq.
  set (i := length (hooks w)) in *.
  set (h := {| params := p; storedValue := readStored p w; previousValueRef := null |}) in *.
  assert (hooks w1 !! i = Some h) as Hi.
  { rewrite Hh. subst i. by rewrite lookup_app_r, Nat.sub_diag. }
  assert (JSON_stringify (storedValue h) = Ok (Some s)) as Ha.
  { simpl. by apply (readStored_slot p w s v0). }
  assert (slot (type p) (key p) w1 = Some s) as Hslot1.
  { unfold slot in *. by rewrite (same_storage_storageMap w w1). }
  pose proof stringify_null as Hb.
  destruct (decide (s = "null")) as [->|Hs].
  { exists w1, (readStored p w).
    rewrite (useStoredState_run p w w1 i _ Hmount eq_refl).
    rewrite (persistEffect_unchanged i w1 h (Some "null")) by done. simpl.
    split_and!; [done | done | | done].
    unfold mirror. by rewrite Hi. }
  pose proof (text_not_null_not_nullish _ _ Ha Hs) as Hnn.
  assert (Some s ≠ Some "null") as Hab by congruence.
  destruct (setItem (key (params h)) (to_DOMString (Some s))
              (storageMap (type (params h)) w1)) as [st'|e] eqn:Hset.
  - destruct (persistEffect_setItem i w1 h (Some s) _ st' Hi Hnn Ha Hb Hab Hset)
      as (w' & errs & Hrun & Hst & _ & Hh' & _).
    assert (slot (type p) (key p) w' = Some s) as Hslot'.
    { unfold slot. change p with (params h) at 1 2. rewrite Hst.
      by apply (getItem_setItem _ _ _ _ Hset). }
    exists w', (readStored (params h) w').
    rewrite (useStoredState_run p w w1 i _ Hmount eq_refl), Hrun. simpl.
    split_and!; [done | done | | ].
    + by apply (mirror_after_commit i i _ _ w1 w' h Hh' Hi).
    + by apply (readStored_slot _ _ s v0).
  - destruct (persistEffect_setItem_throws i w1 h (Some s) _ e Hi Hnn Ha Hb Hab Hset)
      as (w' & Hrun & Hsame & Hh' & _).
    exists w', (readStored p w).
    rewrite (useStoredState_run p w w1 i _ Hmount eq_refl), Hrun. simpl.
    split_and!; [done | | | done].
    + unfold slot in *. by rewrite (same_storage_storageMap w1 w').
    + unfold mirror. by rewrite Hh', Hi.
Qed.

(** X3.  A hook that mounts on an absent slot with a default whose JSON
    text is not that of [null] and is accepted by the backend: its first
    effect calls [setItem] with the text of the default and dispatches the
    event of the key; the slot then holds that text, and the state of the
    hook has it too. *)
Theorem useStoredState_initialises_slot p w s st' :
  slot (type p) (key p) w = None →
  JSON_stringify (value p) = Ok (Some s) → s ≠ "null" →
  setItem (key p) s (storageMap (type p) w) = Ok st' →
  ∃ w' errs m,
    useStoredState p w = (w', Ok (length (hooks w))) ∧
    storageMap (type p) w' = st' ∧
    slot (type p) (key p) w' = Some s ∧
    log w' = log w ++ SetItem (type p) (key p) s
                   :: DispatchEvent (changed_event (key p)) :: errs ∧
    Forall (λ e, is_console_error e) errs ∧
    mirror (length (hooks w)) w' = Some m ∧
    JSON_stringify m = Ok (Some s).
Proof.
  intros Hslot Hd Hs Hset.
  destruct (mount_run p w) as (w1 & Hmount & Hq & Hh).
  set (i := length (hooks w)) in *.
  rewrite (readStored_absent p w Hslot) in Hh.
  set (h := {| params := p; storedValue := value p; previousValueRef := null |}) in *.
  assert (hooks w1 !! i = Some h) as Hi.
  { rewrite Hh. subst i. by rewrite lookup_app_r, Nat.sub_diag. }
  assert (log w1 = log w) as Hlog1.
  { pose proof (getStoredValue_log p w) as Hlog. rewrite Hslot, app_nil_r in Hlog.
    unfold mount in Hmount.
    destruct (getStoredValue p w) as [w0 [v|e]] eqn:Hget; simpl in *.
    - rewrite (bind_Ok _ _ _ _ _ Hget) in Hmount. by injection Hmount as <- _.
    - rewrite (bind_Throw _ _ _ _ _ Hget) in Hmount. done. }
  apply quiet_same_storage in Hq.
  pose proof (text_not_null_not_nullish _ _ Hd Hs) as Hnn.
  assert (Some s ≠ Some "null") as Hab by congruence.
  destruct (persistEffect_setItem i w1 h (Some s) _ st' Hi Hnn Hd stringify_null Hab)
    as (w' & errs & Hrun & Hst & _ & Hh' & Hlog & Herrs).
  { simpl. by rewrite (same_storage_storageMap w w1). }
  assert (slot (type p) (key p) w' = Some s) as Hslot'.
  { unfold slot. change p with (params h) at 1 2. rewrite Hst.
    by apply (getItem_setItem _ _ _ _ Hset). }
  exists w', errs, (readStored (params h) w').
  rewrite (useStoredState_run p w w1 i _ Hmount eq_refl), Hrun. simpl.
  split_and!; [done | done | done | by rewrite Hlog, Hlog1 | done | | ].
  - by apply (mirror_after_commit i i _ _ w1 w' h Hh' Hi).
  - by apply (readStored_slot _ _ s (value p)).
Qed.


(** ** The [storage] event *)

Lemma same_storage_refresh_on_storage (ev : option string) w w' h :
  same_storage w w' → refresh_on_storage ev w' h = refresh_on_storage ev w h.
Proof. intros Hq. unfold refresh_on_storage. by rewrite (same_storage_readStored w w'). Qed.

Lemma handleStorage_run (ev : option string) j w :
  quiet w (handleStorage ev j w) ∧
  hooks (handleStorage ev j w) = alter (refresh_on_storage ev w) j (hooks w).
Proof.
  unfold handleStorage.
  destruct (hooks w !! j) as [h|] eqn:Hj.
  - destruct (bool_decide (ev = Some (key (params h)))) eqn:Hev.
    + destruct (getStoredValue_run (params h) w) as (w' & -> & Hq & Hh).
      simpl. split; [by destruct Hq as (? & ? & ?)|].
      rewrite Hh. apply list_eq. intros n.
      destruct (decide (j = n)) as [<-|Hne].
      * rewrite !list_lookup_alter_eq, Hj. simpl. unfold refresh_on_storage.
        by rewrite Hev.
      * by rewrite !list_lookup_alter_ne.
    + split; [apply quiet_refl|]. apply list_eq. intros n.
      destruct (decide (j = n)) as [<-|Hne].
      * rewrite list_lookup_alter_eq, Hj. simpl. unfold refresh_on_storage.
        by rewrite Hev.
      * by rewrite list_lookup_alter_ne.
  - split; [apply quiet_refl|]. apply list_eq. intros n.
    destruct (decide (j = n)) as [<-|Hne].
    + by rewrite list_lookup_alter_eq, Hj.
    + by rewrite list_lookup_alter_ne.
Qed.

Lemma storage_listeners_fold (ev : option string) m : ∀ n w,
  let w' := foldl (λ w j, handleStorage ev j w) w (seq n m) in
  quiet w w' ∧
  ∀ j, hooks w' !! j =
       if decide (n ≤ j < n + m) then refresh_on_storage ev w <$> hooks w !! j
       else hooks w !! j.
Proof.
  induction m as [|m IH]; intros n w; simpl.
  - split; [apply quiet_refl|]. intros j. case_decide; [lia|done].
  - destruct (handleStorage_run ev n w) as [Hq Hh].
    destruct (IH (S n) (handleStorage ev n w)) as [Hq' Hh'].
    split; [by eapply quiet_trans|].
    intros j. rewrite Hh', Hh.
    destruct (decide (n = j)) as [<-|Hne].
    + rewrite list_lookup_alter_eq. repeat case_decide; try lia. done.
    + rewrite list_lookup_alter_ne by done.
      repeat case_decide; try lia; [|done].
      destruct (hooks w !! j) as [h|]; [simpl|done].
      f_equal. by apply same_storage_refresh_on_storage, quiet_same_storage.
Qed.

Lemma storageEvent_run (ev : option string) w :
  ∃ w', storageEvent ev w = (w', Ok tt) ∧
        quiet w w' ∧ hooks w' = refresh_on_storage ev w <$> hooks w.
Proof.
  eexists. split; [reflexivity|].
  destruct (storage_listeners_fold ev (length (hooks w)) 0 w) as [Hq Hh].
  split; [done|]. apply list_eq. intros j. rewrite Hh, list_lookup_fmap.
  case_decide as Hj; [done|].
  rewrite (lookup_ge_None_2 (hooks w) j) by lia. done.
Qed.

Lemma other_context_run t st (ev : option string) w :
  ∃ w' errs,
    other_context t st ev w = (w', Ok tt) ∧
    storageMap t w' = st ∧
    (∀ t', t' ≠ t → storageMap t' w' = storageMap t' w) ∧
    hooks w' = refresh_on_storage ev w' <$> hooks w ∧
    log w' = log w ++ errs ∧
    Forall (λ e, is_console_error e) errs.
Proof.
  unfold other_context.
  destruct (storageEvent_run ev (set_storage t st w))
    as (w' & Hrun & Hq & Hh).
  pose proof (quiet_same_storage _ _ Hq) as Hsame.
  destruct Hq as (_ & _ & errs & Hlog & Herrs).
  exists w', errs. split_and!; [done | | | | | done].
  - by rewrite (same_storage_storageMap (set_storage t st w) w'),
      storageMap_set_storage_eq.
  - intros t' Ht'.
    by rewrite (same_storage_storageMap (set_storage t st w) w'),
      storageMap_set_storage_ne.
  - rewrite Hh, hooks_set_storage. apply list_fmap_ext. intros _ h _.
    symmetry. by apply same_storage_refresh_on_storage.
  - by rewrite Hlog, log_set_storage.
Qed.

(** X4.  Another browsing context has changed the backend of a hook, and
    the [storage] event for the key of the hook is delivered.  The listeners
    do not throw, write nothing and dispatch nothing, and leave the
    committed value of the hook as it was; the state of the hook then has
    the text that the slot holds, when that is the JSON text of a value,
    and is the default of the hook when the slot is gone. *)
Theorem storage_event_syncs j w hj st :
  hooks w !! j = Some hj →
  let t := type (params hj) in
  let k := key (params hj) in
  ∃ w' errs,
    other_context t st (Some k) w = (w', Ok tt) ∧
    storageMap t w' = st ∧
    log w' = log w ++ errs ∧
    Forall (λ e, is_console_error e) errs ∧
    previousValueRef <$> hooks w' !! j = Some (previousValueRef hj) ∧
    (∀ s v, getItem k st = Some s → JSON_stringify v = Ok (Some s) →
       ∃ m, mirror j w' = Some m ∧ JSON_stringify m = Ok (Some s)) ∧
    (getItem k st = None → mirror j w' = Some (value (params hj))).
Proof.
  intros Hj t k.
  destruct (other_context_run t st (Some k) w)
    as (w' & errs & Hrun & Hst & _ & Hh & Hlog & Herrs).
  subst t k.
  assert (hooks w' !! j = Some (with_storedValue (readStored (params hj) w') hj)) as Hj'.
  { rewrite Hh, list_lookup_fmap, Hj. simpl. unfold refresh_on_storage.
    by rewrite bool_decide_eq_true_2. }
  exists w', errs. split_and!; [done | done | done | done | | |].
  - by rewrite Hj'.
  - intros s v Hs Hv. exists (readStored (params hj) w').
    unfold mirror. rewrite Hj'. split; [done|].
    apply (readStored_slot _ _ s v); [|done]. unfold slot. by rewrite Hst.
  - intros Hs. unfold mirror. rewrite Hj'. simpl. f_equal.
    apply readStored_absent. unfold slot. by rewrite Hst.
Qed.

(** X5.  A [storage] event whose key is the key of no mounted hook, as
    is the event of a [clear()] in another browsing context, whose key is
    [null], changes no hook and logs nothing, whatever became of the
    slots. *)
Theorem storage_event_without_listener t st (ev : option string) w :
  (∀ j h, hooks w !! j = Some h → ev ≠ Some (key (params h))) →
  other_context t st ev w = (set_storage t st w, Ok tt).
Proof.
  intros Hev. unfold other_context, storageEvent, run_listeners.
  f_equal. rewrite hooks_set_storage.
  assert (∀ js w0, hooks w0 = hooks w →
            foldl (λ w j, handleStorage ev j w) w0 js = w0) as Hfold.
  { induction js as [|j js IH]; intros w0 Hw0; simpl; [done|].
    assert (handleStorage ev j w0 = w0) as ->.
    { unfold handleStorage. rewrite Hw0.
      destruct (hooks w !! j) as [h|] eqn:Hj; [|done].
      rewrite bool_decide_eq_false_2; [done|]. by eapply Hev. }
    by apply IH. }
  apply Hfold. apply hooks_set_storage.
Qed.


(** ** Keys do not interfere *)

Lemma same_storage_refl w : same_storage w w.
Proof. by split. Qed.

Lemma getItem_setItem_ne k k' s st st' :
  k' ≠ k → setItem k s st = Ok st' → getItem k' st' = getItem k' st.
Proof.
  intros Hk. unfold setItem, getItem. case_decide; [|done].
  intros [= <-]. simpl. by apply lookup_insert_ne.
Qed.

Lemma getItem_removeItem_ne k k' st :
  k' ≠ k → getItem k' (removeItem k st) = getItem k' st.
Proof. intros Hk. unfold getItem, removeItem. simpl. by apply lookup_delete_ne. Qed.

(** What a run of the second effect leaves: either nothing of the backends
    and the hooks has changed, or the item was removed or set, the event
    dispatched and the value committed. *)
Lemma persistEffect_cases i w h :
  hooks w !! i = Some h →
  let t := type (params h) in
  let k := key (params h) in
  let w' := (persistEffect i w).1 in
  (same_storage w w' ∧ hooks w' = hooks w) ∨
  ((storageMap t w' = removeItem k (storageMap t w) ∨
    ∃ s, setItem k s (storageMap t w) = Ok (storageMap t w')) ∧
   (∀ t', t' ≠ t → storageMap t' w' = storageMap t' w) ∧
   hooks w' = alter (with_previousValueRef (storedValue h)) i
                (refresh (changed_event k) w' <$> hooks w)).
Proof.
  intros Hi t k w'. subst t k w'.
  destruct (JSON_stringify (storedValue h)) as [a|e] eqn:Ha.
  2:{ rewrite (persistEffect_throws i w h e); auto using same_storage_refl. }
  destruct (JSON_stringify (previousValueRef h)) as [b|e] eqn:Hb.
  2:{ rewrite (persistEffect_throws i w h e); [auto using same_storage_refl | done |].
      right. split; [by exists a | done]. }
  destruct (decide (a = b)) as [<-|Hab].
  { rewrite (persistEffect_unchanged i w h a) by done. auto using same_storage_refl. }
  destruct (is_nullish (storedValue h)) eqn:Hnn.
  { destruct (persistEffect_removeItem i w h a b Hi Hnn Ha Hb Hab)
      as (w' & errs & -> & Hst & Hother & Hh & _).
    right. simpl. auto. }
  destruct (setItem (key (params h)) (to_DOMString a)
              (storageMap (type (params h)) w)) as [st'|e] eqn:Hset.
  - destruct (persistEffect_setItem i w h a b st' Hi Hnn Ha Hb Hab Hset)
      as (w' & errs & -> & Hst & Hother & Hh & _).
    right. simpl. split_and!; [|done|done].
    right. exists (to_DOMString a). by rewrite Hst.
  - destruct (persistEffect_setItem_throws i w h a b e Hi Hnn Ha Hb Hab Hset)
      as (w' & -> & Hsame & Hh & _).
    left. simpl. auto.
Qed.

Lemma persistEffect_other_slots i w h t' k' :
  hooks w !! i = Some h →
  (t', k') ≠ (type (params h), key (params h)) →
  slot t' k' (persistEffect i w).1 = slot t' k' w.
Proof.
  intros Hi Hne. unfold slot.
  destruct (persistEffect_cases i w h Hi) as [[Hsame _]|(Hst & Hother & _)].
  { by rewrite (same_storage_storageMap w _ t' Hsame). }
  destruct (decide (t' = type (params h))) as [->|Ht]; [|by rewrite Hother].
  assert (k' ≠ key (params h)) as Hk by congruence.
  destruct Hst as [->|[s Hset]].
  - by apply getItem_removeItem_ne.
  - by apply (getItem_setItem_ne _ _ _ _ _ Hk Hset).
Qed.

Lemma persistEffect_other_keys i j w hi hj :
  hooks w !! i = Some hi → hooks w !! j = Some hj →
  key (params hj) ≠ key (params hi) →
  hooks (persistEffect i w).1 !! j = Some hj.
Proof.
  intros Hi Hj Hk.
  destruct (persistEffect_cases i w hi Hi) as [[_ ->]|(_ & _ & ->)]; [done|].
  assert (i ≠ j) as Hij by (intros ->; congruence).
  rewrite list_lookup_alter_ne, list_lookup_fmap, Hj by done. simpl.
  by rewrite refresh_other_key.
Qed.

(** X6.  A call of the setter of a hook changes no slot other than the
    slot of its key in its backend, and changes no hook of another key. *)
Theorem setter_leaves_other_keys i w hi v :
  hooks w !! i = Some hi →
  (∀ t k, (t, k) ≠ (type (params hi), key (params hi)) →
     slot t k (setter i v w).1 = slot t k w) ∧
  (∀ j hj, hooks w !! j = Some hj → key (params hj) ≠ key (params hi) →
     hooks (setter i v w).1 !! j = Some hj).
Proof.
  intros Hi. unfold setter. rewrite Hi. case_bool_decide; [done|].
  rewrite write_run.
  pose proof (lookup_setStoredValue_eq i v w hi Hi) as Hi0.
  split.
  - intros t k Hne. by rewrite (persistEffect_other_slots i _ _ t k Hi0).
  - intros j hj Hj Hk.
    assert (i ≠ j) as Hij by (intros ->; congruence).
    apply (persistEffect_other_keys i j _ (with_storedValue v hi) hj); [done | | done].
    by rewrite lookup_setStoredValue_ne.
Qed.

(** ** When the second effect throws *)

(** X7.  Where [JSON.stringify] does not throw on the committed values
    ([refs_ok], which every step keeps), the second effect throws exactly
    when [JSON.stringify] throws on the state of the hook: it then throws
    that exception, from line 138, and has changed nothing; otherwise it
    returns, whatever the backend does. *)
Theorem persistEffect_throws_iff i w h :
  refs_ok w → hooks w !! i = Some h →
  match JSON_stringify (storedValue h) with
  | Throw e => persistEffect i w = (w, Throw e)
  | Ok _ => (persistEffect i w).2 = Ok tt
  end.
Proof.
  intros Hok Hi.
  destruct (JSON_stringify (storedValue h)) as [a|e] eqn:Ha.
  - destruct (persistEffect_returns i w) as [w' ->]; [|done].
    intros h' Hi'. assert (h' = h) as -> by congruence.
    split; [by exists a | by eapply Hok].
  - apply (persistEffect_throws i w h e Hi). by left.
Qed.

(** ** [removeStoredValue] and the mounted hooks *)

(** X8.  [removeStoredValue()] never throws.  It calls [removeItem] once
    and dispatches the event of the key once; after it the slot of the hook
    is absent and every other slot is as it was; every hook of the same key
    and backend has its own default as state, the hooks of other keys are
    as they were, and no committed value has changed. *)
Theorem remove_resets_every_instance i w hi :
  hooks w !! i = Some hi →
  let t := type (params hi) in
  let k := key (params hi) in
  ∃ w' errs,
    removeStoredValue i w = (w', Ok tt) ∧
    slot t k w' = None ∧
    (∀ t' k', (t', k') ≠ (t, k) → slot t' k' w' = slot t' k' w) ∧
    log w' = log w ++ RemoveItem t k :: DispatchEvent (changed_event k) :: errs ∧
    Forall (λ e, is_console_error e) errs ∧
    (∀ j hj, hooks w !! j = Some hj →
       previousValueRef <$> hooks w' !! j = Some (previousValueRef hj) ∧
       (key (params hj) = k → type (params hj) = t →
        mirror j w' = Some (value (params hj))) ∧
       (key (params hj) ≠ k → hooks w' !! j = Some hj)).
Proof.
  intros Hi t k.
  destruct (removeStoredValue_run i w hi Hi)
    as (w' & errs & Hrun & Hst & Hother & Hh & Hlog & Herrs).
  fold t k in Hst, Hother, Hh, Hlog.
  assert (slot t k w' = None) as Hslot.
  { unfold slot. rewrite Hst. apply getItem_removeItem. }
  exists w', errs. split_and!; [done | done | | done | done |].
  - intros t' k' Hne. unfold slot.
    destruct (decide (t' = t)) as [->|Ht]; [|by rewrite Hother].
    rewrite Hst. apply getItem_removeItem_ne. congruence.
  - intros j hj Hj. rewrite Hh, list_lookup_fmap, Hj. simpl. split_and!.
    + unfold refresh. by case_bool_decide.
    + intros Hk Ht. unfold mirror. rewrite Hh, list_lookup_fmap, Hj. simpl.
      unfold refresh. rewrite bool_decide_eq_true_2 by by rewrite Hk. simpl.
      f_equal. apply readStored_absent. by rewrite Hk, Ht.
    + intros Hk. by rewrite refresh_other_key.
Qed.

(** ** A render with another key *)

(** X9.  A hook whose state is committed is rendered with another key or
    backend: the render does not throw, the state stays the one of the old
    key, and nothing is written to the backends or logged.  The next
    call of the setter with another value, which the backend accepts,
    writes the slot of the new key and leaves the slot of the old key as it
    was. *)
Theorem rerender_keeps_value i w h p' a :
  hooks w !! i = Some h →
  (type p', key p') ≠ (type (params h), key (params h)) →
  JSON_stringify (storedValue h) = Ok a →
  JSON_stringify (previousValueRef h) = Ok a →
  ∃ w',
    rerender i p' w = (w', Ok tt) ∧
    same_storage w w' ∧ log w' = log w ∧
    hooks w' !! i = Some (with_params p' h) ∧
    mirror i w' = Some (storedValue h) ∧
    ∀ v s st',
      storedValue h ≠ v →
      JSON_stringify v = Ok (Some s) → v ≠ null → a ≠ Some s →
      setItem (key p') s (storageMap (type p') w) = Ok st' →
      ∃ w'',
        setter i v w' = (w'', Ok tt) ∧
        slot (type p') (key p') w'' = Some s ∧
        slot (type (params h)) (key (params h)) w''
        = slot (type (params h)) (key (params h)) w.
Proof.
  intros Hi Hne Ha Hb.
  set (w' := (set_params i p' w).1).
  assert (hooks w' !! i = Some (with_params p' h)) as Hi'.
  { subst w'. simpl. by rewrite list_lookup_alter_eq, Hi. }
  exists w'. split_and!; [ | done | done | done | | ].
  - unfold rerender. rewrite (bind_Ok _ _ w w' tt) by reflexivity.
    by apply (persistEffect_unchanged i w' (with_params p' h) a).
  - unfold mirror. by rewrite Hi'.
  - intros v s st' Hchanged Hv Hnull Has Hset.
    rewrite (setter_changed i v w' _ Hi') by done. rewrite write_run.
    pose proof (lookup_setStoredValue_eq i v w' _ Hi') as Hi0.
    set (w0 := (setStoredValue i v w').1) in *.
    set (h0 := with_storedValue v (with_params p' h)) in *.
    pose proof (serializable_not_nullish v s Hv Hnull) as Hnn.
    destruct (persistEffect_setItem i w0 h0 (Some s) a st' Hi0 Hnn Hv Hb) as
      (w'' & errs & Hrun & Hst & _); [congruence | done |].
    exists w''. split_and!; [done | |].
    + unfold slot. change (type p') with (type (params h0)). rewrite Hst.
      by apply (getItem_setItem _ _ _ _ Hset).
    + replace w'' with (persistEffect i w0).1 by by rewrite Hrun.
      rewrite (persistEffect_other_slots i w0 h0); [done | done |].
      simpl. congruence.
Qed.

(** ** The invariant in the windows that can be reached *)

(** X10.  In every window that steps of the hook and of other browsing
    contexts produce from a window without hooks, [JSON.stringify] does not
    throw on the committed value of any hook.  The steps are more than
    React performs (an effect may run at any time), so the windows of the
    code are among these. *)
Theorem committed_value_has_json_text w w' j h :
  hooks w = [] → rtc step w w' → hooks w' !! j = Some h →
  is_Ok (JSON_stringify (previousValueRef h)).
Proof.
  intros Hnil Hsteps. revert j h.
  change (refs_ok w'). apply (refs_ok_steps w w' Hsteps).
  intros j h. by rewrite Hnil.
Qed.

End HookFacts.

(** * Runs of the hook on primitive values *)

Module Runs.
Import MiniJS Scenarios.

Example counter_mounted_state :
  slot local "counter" counter_mounted = Some "0" ∧
  hooks counter_mounted
    = [{| params := counter; storedValue := JNumber 0; previousValueRef := JNumber 0 |}] ∧
  log counter_mounted
    = [SetItem local "counter" "0"; DispatchEvent "counter-changed"].
Proof. vm_compute. done. Qed.

Example two_counters_state :
  slot local "counter" two_counters = Some "5" ∧
  hooks two_counters
    = [{| params := counter; storedValue := JNumber 5; previousValueRef := JNumber 5 |};
       {| params := counter7; storedValue := JNumber 5; previousValueRef := JNumber 5 |}].
Proof. vm_compute. done. Qed.

(** The run that the documentation of the hook describes: the counter
    starts at its default 0, reads 5 after [setCount(5)], a second hook on
    the same key reads 5 as well, and after [removeCount()] a new hook reads
    its default. *)
Example documented_run :
  mirror 0 (mount counter (fresh_window 100)).1 = Some (JNumber 0) ∧
  mirror 0 counter_at_5 = Some (JNumber 5) ∧
  mirror 1 two_counters = Some (JNumber 5) ∧
  mirror 2 (mount counter (removeStoredValue 0 two_counters).1).1 = Some (JNumber 0).
Proof. vm_compute. done. Qed.

(** C1, witness: [setCount(5)] on the mounted counter. *)
Lemma write_then_read_witness :
  mirror 0 (setStoredValue 0 (JNumber 5) counter_mounted).1 = Some (JNumber 5) ∧
  ∃ w' m, write 0 (JNumber 5) counter_mounted = (w', Ok tt) ∧
          mirror 0 w' = Some m ∧ JSON_stringify m = Ok (Some "5").
Proof.
  apply (write_then_read 0 counter_mounted
           {| params := counter; storedValue := JNumber 0;
              previousValueRef := JNumber 0 |}).
  - vm_compute. reflexivity.
  - exists (Some "0"). reflexivity.
  - reflexivity.
  - discriminate.
Defined.

(** C1, counterexample: [null] has the JSON text "null"; after
    [setCount(null)] and the effect of that render the mirror is the default
    0, whose text is "0". *)
Lemma write_null_reads_default :
  let r := write 0 JNull counter_at_5 in
  JSON_stringify JNull = Ok (Some "null") ∧
  r.2 = Ok tt ∧
  mirror 0 r.1 = Some (JNumber 0) ∧
  JSON_stringify (JNumber 0) = Ok (Some "0").
Proof. vm_compute. done. Qed.

(** C2, witness: the first of two counters writes 9. *)
Lemma cross_instance_sync_witness :
  ∃ m, mirror 1 (write 0 (JNumber 9) two_counters).1 = Some m ∧
       JSON_stringify m = Ok (Some "9").
Proof.
  apply (cross_instance_sync 0 1 two_counters _
           {| params := counter; storedValue := JNumber 5;
              previousValueRef := JNumber 5 |}
           {| params := counter7; storedValue := JNumber 5;
              previousValueRef := JNumber 5 |}
           (JNumber 9) "9").
  - vm_compute. reflexivity.
  - vm_compute. reflexivity.
  - reflexivity.
  - reflexivity.
  - reflexivity.
  - discriminate.
  - vm_compute. reflexivity.
  - vm_compute. set_solver.
Defined.

(** C2, counterexample: the first of two counters writes [null]; the event
    is dispatched, and the mirror of the second is its own default 7, whose
    text is not that of [null]. *)
Lemma write_null_other_reads_default :
  let r := write 0 JNull two_counters in
  r.2 = Ok tt ∧
  drop (length (log two_counters)) (log r.1)
    = [RemoveItem local "counter"; DispatchEvent "counter-changed"] ∧
  mirror 1 r.1 = Some (JNumber 7) ∧
  JSON_stringify (JNumber 7) = Ok (Some "7") ∧
  JSON_stringify JNull = Ok (Some "null").
Proof. vm_compute. done. Qed.

(** The mounted counter is the only hook of its window. *)
Lemma counter_alone (w : Window) (h : Hook) :
  hooks w = [h] → alone 0 w.
Proof.
  intros Hw h' j hj _ Hj Hne. rewrite Hw in Hj.
  destruct j as [|j]; [done | discriminate Hj].
Qed.

(** C3, witness: [setCount(5)] twice on the mounted counter. *)
Lemma repeated_write_suppressed_witness :
  ∃ w1 w2 errs,
    setter 0 (JNumber 5) counter_mounted = (w1, Ok tt) ∧
    log w1 = log counter_mounted
               ++ SetItem local "counter" "5" :: DispatchEvent "counter-changed" :: errs ∧
    Forall (λ e, is_console_error e) errs ∧
    (∀ j, j ≠ 0 → hooks w1 !! j = hooks counter_mounted !! j) ∧
    persistEffect 0 w1 = (w1, Ok tt) ∧
    setter 0 (JNumber 5) w1 = (w2, Ok tt) ∧
    log w2 = log w1 ∧ same_storage w1 w2 ∧
    (∀ j, j ≠ 0 → hooks w2 !! j = hooks counter_mounted !! j) ∧
    persistEffect 0 w2 = (w2, Ok tt) ∧
    length (filter (λ e, is_backend_write e)
              (drop (length (log counter_mounted)) (log w2))) = 1 ∧
    length (filter (λ e, is_notification e)
              (drop (length (log counter_mounted)) (log w2))) = 1.
Proof.
  eapply (repeated_write_suppressed 0 counter_mounted
            {| params := counter; storedValue := JNumber 0;
               previousValueRef := JNumber 0 |}
            (JNumber 5) "5" (Some "0")).
  - vm_compute. reflexivity.
  - eapply counter_alone. vm_compute. reflexivity.
  - discriminate.
  - reflexivity.
  - discriminate.
  - reflexivity.
  - discriminate.
  - vm_compute. reflexivity.
Defined.

(** Why the hook must be the only one on its key: with two counters, the
    call [setCount(9)] on the first changes the state of the second, React
    renders the second, and the effect of that render calls [setItem] and
    dispatches the event once more. *)
Example two_accessors_persist_twice :
  let r1 := setter 0 (JNumber 9) two_counters in
  let r2 := persistEffect 1 r1.1 in
  mirror 1 two_counters = Some (JNumber 5) ∧
  r1.2 = Ok tt ∧ mirror 1 r1.1 = Some (JNumber 9) ∧ r2.2 = Ok tt ∧
  drop (length (log two_counters)) (log r2.1)
    = [SetItem local "counter" "9"; DispatchEvent "counter-changed";
       SetItem local "counter" "9"; DispatchEvent "counter-changed"].
Proof. vm_compute. done. Qed.

(** Why the value must not be the state already: after a [setItem] that the
    backend refused the state is 55 and the committed value is still 0; the
    call [setCount(55)] renders nothing and runs no effect, also when the
    backend has room again. *)
Example setter_of_the_state_does_nothing :
  let roomy := {| items := items (localStorage counter_refused); quota := 100 |} in
  let w := set_storage local roomy counter_refused in
  mirror 0 w = Some (JNumber 55) ∧
  previousValueRef <$> hooks w !! 0 = Some (JNumber 0) ∧
  slot local "counter" w = Some "0" ∧
  is_Ok (setItem "counter" "55" roomy) ∧
  setter 0 (JNumber 55) w = (w, Ok tt).
Proof.
  split_and!; [by vm_compute.. | | by vm_compute].
  eexists. vm_compute. reflexivity.
Qed.

(** C3, counterexample: [setCount(null)], the effect of the render that the
    dispatched event causes (it commits the default), then [setCount(null)]
    again: the second call removes the item and dispatches the event as the
    first did. *)
Lemma second_null_write_not_suppressed :
  let r1 := write 0 JNull counter_at_5 in
  let r2 := persistEffect 0 r1.1 in
  let r3 := write 0 JNull r2.1 in
  r1.2 = Ok tt ∧ r2.2 = Ok tt ∧ r3.2 = Ok tt ∧
  drop (length (log counter_at_5)) (log r1.1)
    = [RemoveItem local "counter"; DispatchEvent "counter-changed"] ∧
  drop (length (log r1.1)) (log r2.1)
    = [SetItem local "counter" "0"; DispatchEvent "counter-changed"] ∧
  drop (length (log r2.1)) (log r3.1)
    = [RemoveItem local "counter"; DispatchEvent "counter-changed"].
Proof. vm_compute. done. Qed.

(** C4, witness: the effect after [setCount(5)] on the mounted counter. *)
Lemma persist_commits_after_backend_success_witness :
  let w := counter_set_5 in
  ∃ w',
    persistEffect 0 w = (w', Ok tt) ∧
    (@is_nullish runtime (JNumber 5) = true ∨
     is_Ok (setItem "counter" "5" (localStorage w)) →
     (∃ e errs,
        drop (length (log w)) (log w') = e :: DispatchEvent "counter-changed" :: errs ∧
        is_backend_write e = true ∧
        Forall (λ e, is_console_error e) errs) ∧
     previousValueRef <$> hooks w' !! 0 = Some (JNumber 5)) ∧
    (@is_nullish runtime (JNumber 5) = false →
     ∀ e, setItem "counter" "5" (localStorage w) = Throw e →
       drop (length (log w)) (log w')
         = [SetItem local "counter" "5";
            ConsoleError (set_error_message counter) e] ∧
       hooks w' = hooks w ∧ same_storage w w').
Proof.
  apply (persist_commits_after_backend_success 0 counter_set_5
           {| params := counter; storedValue := JNumber 5;
              previousValueRef := JNumber 0 |}
           (Some "5") (Some "0")).
  - vm_compute. reflexivity.
  - reflexivity.
  - reflexivity.
  - discriminate.
Defined.

(** C4, counterexample: a backend with no room.  The mount effect calls
    [setItem], which throws; the error is logged, no event is dispatched and
    the cell of [useRef] is still [null]. *)
Lemma failed_write_is_not_committed :
  let r := useStoredState counter (fresh_window 0) in
  r.2 = Ok 0 ∧
  log r.1 = [SetItem local "counter" "0";
             ConsoleError "Unable to set counter to local storage" QuotaExceededError] ∧
  hooks r.1 = [{| params := counter; storedValue := JNumber 0;
                  previousValueRef := JNull |}].
Proof. vm_compute. done. Qed.

(** C5: a default value that [JSON.stringify] refuses.  The comparison on
    line 138 is outside the [try]: the mount effect throws, and nothing is
    logged. *)
Lemma unserializable_default_throws :
  let r := useStoredState {| key := "k"; value := JBigInt 10; type := local |}
             (fresh_window 100) in
  r.2 = Throw TypeError ∧ log r.1 = [].
Proof. vm_compute. done. Qed.

(** C6, witness: the counter mounts in a fresh window; its first effect
    calls [setItem] with the text of its default. *)
Lemma first_persist_not_suppressed_witness :
  ∃ w' tr,
    persistEffect 0 (mount counter (fresh_window 100)).1 = (w', Ok tt) ∧
    log w' = log (mount counter (fresh_window 100)).1
               ++ SetItem local "counter" "0" :: tr.
Proof.
  apply (first_persist_not_suppressed counter (fresh_window 100) _ 0
           (JNumber 0) (Some "0")).
  - vm_compute. reflexivity.
  - vm_compute. reflexivity.
  - reflexivity.
  - discriminate.
Defined.

(** A hook whose default is [undefined] and whose slot is absent: its first
    effect calls [removeItem]. *)
Example first_persist_of_undefined :
  let p := {| key := "k"; value := JUndefined; type := session |} in
  let r := useStoredState p (fresh_window 100) in
  r.2 = Ok 0 ∧
  log r.1 = [RemoveItem session "k"; DispatchEvent "k-changed"].
Proof. vm_compute. done. Qed.

(** C6, counterexample: a hook whose default is [null] mounts in a fresh
    window.  Its first effect finds the value equal to the initial [null] of
    the cell of [useRef] and does nothing. *)
Lemma null_initial_value_suppressed :
  let p := {| key := "k"; value := JNull; type := local |} in
  let r := mount p (fresh_window 100) in
  r.2 = Ok 0 ∧
  mirror 0 r.1 = Some JNull ∧
  persistEffect 0 r.1 = (r.1, Ok tt) ∧
  log r.1 = [].
Proof. vm_compute. done. Qed.

(** C7, witness: [setCount(null)] on the counter at 5. *)
Lemma write_nullish_removes_slot_witness :
  mirror 0 (setStoredValue 0 JNull counter_at_5).1 = Some JNull ∧
  ∃ w' errs,
    write 0 JNull counter_at_5 = (w', Ok tt) ∧
    slot local "counter" w' = None ∧
    log w' = log counter_at_5
               ++ RemoveItem local "counter" :: DispatchEvent "counter-changed" :: errs ∧
    Forall (λ e, is_console_error e) errs ∧
    mirror 0 w' = Some (JNumber 0).
Proof.
  apply (write_nullish_removes_slot 0 counter_at_5
           {| params := counter; storedValue := JNumber 5;
              previousValueRef := JNumber 5 |}
           JNull (Some "5")).
  - vm_compute. reflexivity.
  - reflexivity.
  - reflexivity.
  - discriminate.
Defined.

(** C7, counterexample: after [setCount(undefined)] and the effect of that
    render, the slot is absent and the mirror is the default 0, not
    [undefined]. *)
Lemma write_undefined_mirror_is_default :
  let r := write 0 JUndefined counter_at_5 in
  r.2 = Ok tt ∧
  slot local "counter" r.1 = None ∧
  mirror 0 r.1 = Some (JNumber 0) ∧
  JNumber 0 ≠ JUndefined.
Proof. vm_compute. done. Qed.

(** C8, witness: [removeCount()] on the counter at 5, then a new hook with
    the default 3, mounted before or after the counter has rendered again. *)
Lemma remove_then_fresh_reads_default_witness :
  let fresh := {| key := "counter"; value := JNumber 3; type := local |} in
  ∃ w1,
    removeStoredValue 0 counter_at_5 = (w1, Ok tt) ∧
    slot local "counter" w1 = None ∧
    (∃ w2 j, mount fresh w1 = (w2, Ok j) ∧ mirror j w2 = Some (JNumber 3)) ∧
    ∃ w2 w3 j m,
      persistEffect 0 w1 = (w2, Ok tt) ∧
      slot local "counter" w2 = Some "0" ∧
      mount fresh w2 = (w3, Ok j) ∧
      mirror j w3 = Some m ∧
      JSON_stringify m = Ok (Some "0").
Proof.
  intros fresh.
  set (h := {| params := counter; storedValue := JNumber 5;
               previousValueRef := JNumber 5 |}).
  assert (hooks counter_at_5 = [h]) as Hhooks by (vm_compute; reflexivity).
  assert (hooks counter_at_5 !! 0 = Some h) as Hi by by rewrite Hhooks.
  assert (∃ st', setItem "counter" "0"
                   (removeItem "counter" (storageMap local counter_at_5)) = Ok st')
    as [st' Hset] by (eexists; vm_compute; reflexivity).
  destruct (remove_then_fresh_reads_default 0 counter_at_5 h (JNumber 3) Hi)
    as (w1 & Hrun & Hslot & Hsame & _ & Hlater).
  exists w1. split_and!; [exact Hrun | exact Hslot | exact Hsame |].
  destruct (Hlater (counter_alone counter_at_5 h Hhooks) ltac:(discriminate)
              "0" (Some "5") st'
              eq_refl ltac:(discriminate) eq_refl ltac:(discriminate) Hset)
    as (w2 & w3 & j & m & Heffect & Hslot2 & _ & _ & Hmount & Hmirror & Htext).
  exists w2, w3, j, m. split_and!; assumption.
Defined.

(** C8, counterexample: the counter at 5 calls [removeCount()]; its state
    becomes its default 0, React renders it again and the effect of that
    render sets the slot to "0".  A hook mounted after that for the same key
    and backend, with the default 3, starts with 0. *)
Lemma fresh_accessor_reads_removers_default :
  let fresh := {| key := "counter"; value := JNumber 3; type := local |} in
  let r1 := removeStoredValue 0 counter_at_5 in
  let r2 := persistEffect 0 r1.1 in
  let r3 := mount fresh r2.1 in
  mirror 0 counter_at_5 = Some (JNumber 5) ∧
  r1.2 = Ok tt ∧
  slot local "counter" r1.1 = None ∧
  mirror 0 r1.1 = Some (JNumber 0) ∧
  r2.2 = Ok tt ∧
  slot local "counter" r2.1 = Some "0" ∧
  r3.2 = Ok 1 ∧
  mirror 1 r3.1 = Some (JNumber 0) ∧
  JNumber 0 ≠ value fresh.
Proof. vm_compute. done. Qed.

(** C10, witness: [removeCount()] on the counter at 5, then the effect of
    the render that follows. *)
Lemma remove_then_persist_recreates_slot_witness :
  ∃ w1 w2 m,
    removeStoredValue 0 counter_at_5 = (w1, Ok tt) ∧
    slot local "counter" w1 = None ∧
    mirror 0 w1 = Some (JNumber 0) ∧
    (∀ j, j ≠ 0 → hooks w1 !! j = hooks counter_at_5 !! j) ∧
    persistEffect 0 w1 = (w2, Ok tt) ∧
    slot local "counter" w2 = Some "0" ∧
    mirror 0 w2 = Some m ∧
    JSON_stringify m = Ok (Some "0") ∧
    (∀ j, j ≠ 0 → hooks w2 !! j = hooks counter_at_5 !! j) ∧
    persistEffect 0 w2 = (w2, Ok tt).
Proof.
  eapply (remove_then_persist_recreates_slot 0 counter_at_5
            {| params := counter; storedValue := JNumber 5;
               previousValueRef := JNumber 5 |}
            "0" (Some "5")).
  - vm_compute. reflexivity.
  - eapply counter_alone. vm_compute. reflexivity.
  - discriminate.
  - reflexivity.
  - discriminate.
  - reflexivity.
  - discriminate.
  - vm_compute. reflexivity.
Defined.

(** C10, counterexample: the counter on a backend without room for more
    than its default.  [setCount(55)] is refused: the state is 55, the
    committed value still 0.  [removeCount()] empties the slot and makes the
    state the default 0; React renders the hook again, and the effect of
    that render finds the text of 0 equal to the committed one and writes
    nothing: the slot stays absent, for a default that is neither [null] nor
    [undefined]. *)
Lemma remove_leaves_slot_absent :
  let r1 := removeStoredValue 0 counter_refused in
  let r2 := persistEffect 0 r1.1 in
  is_nullish (value counter) = false ∧
  mirror 0 counter_refused = Some (JNumber 55) ∧
  previousValueRef <$> hooks counter_refused !! 0 = Some (JNumber 0) ∧
  r1.2 = Ok tt ∧
  mirror 0 r1.1 = Some (JNumber 0) ∧
  r2 = (r1.1, Ok tt) ∧
  slot local "counter" r2.1 = None.
Proof. vm_compute. done. Qed.

(** The same on the counter that has just mounted: its state is its
    default already, [removeCount()] changes no hook, React renders nothing
    and the slot stays absent. *)
Example remove_at_the_default_renders_nothing :
  let r := removeStoredValue 0 counter_mounted in
  r.2 = Ok tt ∧
  hooks r.1 = hooks counter_mounted ∧
  slot local "counter" r.1 = None.
Proof. vm_compute. done. Qed.

(** ** The hook on a slot that is taken, on events and on a new key *)

(** X2, witness: a component with the default 7 mounts on the slot of the
    counter, which holds "5". *)
Lemma useStoredState_keeps_stored_value_witness :
  ∃ w' m,
    useStoredState counter7 counter_at_5 = (w', Ok (length (hooks counter_at_5))) ∧
    slot local "counter" w' = Some "5" ∧
    mirror (length (hooks counter_at_5)) w' = Some m ∧
    JSON_stringify m = Ok (Some "5").
Proof.
  apply (useStoredState_keeps_stored_value counter7 counter_at_5 "5" (JNumber 5)).
  - vm_compute. reflexivity.
  - reflexivity.
Defined.

(** X3, witness: the counter mounts on an empty backend. *)
Lemma useStoredState_initialises_slot_witness :
  ∃ st' w' errs m,
    useStoredState counter (fresh_window 100)
    = (w', Ok (length (hooks (fresh_window 100)))) ∧
    storageMap local w' = st' ∧
    slot local "counter" w' = Some "0" ∧
    log w' = log (fresh_window 100)
             ++ SetItem local "counter" "0"
                :: DispatchEvent (changed_event "counter") :: errs ∧
    Forall (λ e, is_console_error e) errs ∧
    mirror (length (hooks (fresh_window 100))) w' = Some m ∧
    JSON_stringify m = Ok (Some "0").
Proof.
  eexists.
  apply (useStoredState_initialises_slot counter (fresh_window 100) "0").
  - reflexivity.
  - reflexivity.
  - discriminate.
  - vm_compute. reflexivity.
Defined.

(** X4, witness: another context has set the counter to 9. *)
Lemma storage_event_syncs_witness :
  ∃ w' m,
    other_context local storage_at_9 (Some "counter") counter_at_5 = (w', Ok tt) ∧
    storageMap local w' = storage_at_9 ∧
    previousValueRef <$> hooks w' !! 0 = Some (JNumber 5) ∧
    mirror 0 w' = Some m ∧ JSON_stringify m = Ok (Some "9").
Proof.
  destruct (storage_event_syncs 0 counter_at_5
              {| params := counter; storedValue := JNumber 5;
                 previousValueRef := JNumber 5 |} storage_at_9)
    as (w' & errs & Hrun & Hst & _ & _ & Href & Hsome & _).
  { vm_compute. reflexivity. }
  destruct (Hsome "9" (JNumber 9)) as (m & Hm & Htext).
  { vm_compute. reflexivity. }
  { reflexivity. }
  exists w', m. repeat split; assumption.
Defined.

(** X5, witness: another context has cleared the local storage. *)
Lemma storage_event_without_listener_witness :
  other_context local (empty_storage 100) None counter_at_5
  = (set_storage local (empty_storage 100) counter_at_5, Ok tt).
Proof.
  apply (storage_event_without_listener local (empty_storage 100) None counter_at_5).
  intros j h _. discriminate.
Defined.

(** X6, witness: the setter of the counter and the component with
    [flag]. *)
Lemma setter_leaves_other_keys_witness :
  slot session "flag" (setter 0 (JNumber 6) counter_and_flag).1
  = slot session "flag" counter_and_flag ∧
  hooks (setter 0 (JNumber 6) counter_and_flag).1 !! 1
  = Some {| params := flag; storedValue := JBool false;
            previousValueRef := JBool false |}.
Proof.
  destruct (setter_leaves_other_keys 0 counter_and_flag
              {| params := counter; storedValue := JNumber 5;
                 previousValueRef := JNumber 5 |} (JNumber 6)) as [Hslots Hhooks].
  { vm_compute. reflexivity. }
  split.
  - apply Hslots. discriminate.
  - apply Hhooks; [vm_compute; reflexivity | discriminate].
Defined.

Lemma counter_bigint_refs_ok : refs_ok counter_bigint.
Proof.
  assert (hooks counter_bigint
          = [{| params := counter; storedValue := JBigInt 1;
                previousValueRef := JNumber 5 |}]) as Hh
    by (vm_compute; reflexivity).
  intros j h. rewrite Hh. destruct j as [|j]; simpl; [|done].
  intros [= <-]. by eexists.
Qed.

(** X7, witness: the counter has been set to a BigInt. *)
Lemma persistEffect_throws_iff_witness :
  persistEffect 0 counter_bigint = (counter_bigint, Throw TypeError).
Proof.
  apply (persistEffect_throws_iff 0 counter_bigint
           {| params := counter; storedValue := JBigInt 1;
              previousValueRef := JNumber 5 |}).
  - apply counter_bigint_refs_ok.
  - vm_compute. reflexivity.
Defined.

(** X8, witness: the remover of the first of two counters, whose defaults
    are 0 and 7. *)
Lemma remove_resets_every_instance_witness :
  ∃ w',
    removeStoredValue 0 two_counters = (w', Ok tt) ∧
    slot local "counter" w' = None ∧
    mirror 0 w' = Some (JNumber 0) ∧
    mirror 1 w' = Some (JNumber 7).
Proof.
  destruct (remove_resets_every_instance 0 two_counters
              {| params := counter; storedValue := JNumber 5;
                 previousValueRef := JNumber 5 |})
    as (w' & errs & Hrun & Hslot & _ & _ & _ & Hall).
  { vm_compute. reflexivity. }
  exists w'. split; [exact Hrun|]. split; [exact Hslot|]. split.
  - destruct (Hall 0 {| params := counter; storedValue := JNumber 5;
                        previousValueRef := JNumber 5 |}) as (_ & Hm & _).
    { vm_compute. reflexivity. }
    by apply Hm.
  - destruct (Hall 1 {| params := counter7; storedValue := JNumber 5;
                        previousValueRef := JNumber 5 |}) as (_ & Hm & _).
    { vm_compute. reflexivity. }
    by apply Hm.
Defined.

(** X9, witness: the counter at 5 is rendered with the key [total], then
    set to 6. *)
Lemma rerender_keeps_value_witness :
  ∃ w' w'',
    rerender 0 total counter_at_5 = (w', Ok tt) ∧
    log w' = log counter_at_5 ∧
    mirror 0 w' = Some (JNumber 5) ∧
    setter 0 (JNumber 6) w' = (w'', Ok tt) ∧
    slot local "total" w'' = Some "6" ∧
    slot local "counter" w'' = slot local "counter" counter_at_5.
Proof.
  destruct (rerender_keeps_value 0 counter_at_5
              {| params := counter; storedValue := JNumber 5;
                 previousValueRef := JNumber 5 |} total (Some "5"))
    as (w' & Hrun & _ & Hlog & _ & Hm & Hnext).
  { vm_compute. reflexivity. }
  { discriminate. }
  { reflexivity. }
  { reflexivity. }
  assert (∃ st', setItem "total" "6" (storageMap local counter_at_5) = Ok st')
    as [st' Hset] by (eexists; vm_compute; reflexivity).
  destruct (Hnext (JNumber 6) "6" st') as (w'' & Hset' & Hnew & Hold);
    [discriminate | reflexivity | discriminate | discriminate | exact Hset |].
  exists w', w''. repeat split; assumption.
Defined.

Lemma counter_at_5_reachable : rtc step (fresh_window 100) counter_at_5.
Proof.
  set (w1 := (mount counter (fresh_window 100)).1).
  set (w2 := (persistEffect 0 w1).1).
  set (w3 := (setStoredValue (JS := runtime) 0 (JNumber 5) w2).1).
  set (w4 := (persistEffect 0 w3).1).
  assert (counter_at_5 = w4) as -> by (vm_compute; reflexivity).
  eapply rtc_l; [apply (step_mount _ counter)|]. fold w1.
  eapply rtc_l; [apply (step_persistEffect _ 0)|]. fold w2.
  eapply rtc_l; [apply (step_setStoredValue (JS := runtime) _ 0 (JNumber 5))|]. fold w3.
  eapply rtc_l; [apply (step_persistEffect _ 0)|]. fold w4.
  apply rtc_refl.
Qed.

(** X10, witness: the counter at 5, four steps from a fresh window. *)
Lemma committed_value_has_json_text_witness :
  is_Ok (JSON_stringify (JNumber 5)).
Proof.
  apply (committed_value_has_json_text (fresh_window 100) counter_at_5 0
           {| params := counter; storedValue := JNumber 5;
              previousValueRef := JNumber 5 |}).
  - reflexivity.
  - apply counter_at_5_reachable.
  - vm_compute. reflexivity.
Defined.

End Runs.

(** * Properties of the installers *)

Module InstallerFacts.
Import Installer.

Implicit Types (p q rel source target : Path) (n fs : Node) (x y : string).

(** ** Paths *)

Lemma diverge_sym p q : diverge p q → diverge q p.
Proof.
  revert q. induction p as [|x p IH]; intros [|y q]; simpl; try done.
  intros [?|?]; [left; congruence | right; auto].
Qed.

Lemma diverge_app_l p q r : diverge p q → diverge (p ++ r) q.
Proof.
  revert q. induction p as [|x p IH]; intros [|y q]; simpl; try done.
  intros [?|?]; [by left | right; auto].
Qed.

Lemma diverge_app_r p q r : diverge p q → diverge p (q ++ r).
Proof. intros H. by apply diverge_sym, diverge_app_l, diverge_sym. Qed.

Lemma diverge_app p q r : diverge q r → diverge (p ++ q) (p ++ r).
Proof. induction p; simpl; auto. Qed.

Lemma diverge_entries p x y q r : x ≠ y → diverge (p ++ x :: q) (p ++ y :: r).
Proof. intros Hxy. apply diverge_app. simpl. by left. Qed.

Lemma diverge_not_prefix p q :
  ¬ p `prefix_of` q → ¬ q `prefix_of` p → diverge p q.
Proof.
  revert q. induction p as [|x p IH]; intros [|y q] Hpq Hqp; simpl.
  - destruct Hpq. apply prefix_nil.
  - destruct Hpq. apply prefix_nil.
  - destruct Hqp. apply prefix_nil.
  - destruct (decide (x = y)) as [->|Hxy]; [right | by left].
    apply IH; intros Hpre; [apply Hpq | apply Hqp]; by apply prefix_cons.
Qed.

Lemma lookup_path_app p q n :
  lookup_path (p ++ q) n = lookup_path p n ≫= lookup_path q.
Proof.
  revert n. induction p as [|x p IH]; intros n; simpl; [done|].
  destruct n as [|es]; [done|]. destruct (es !! x); [apply IH | done].
Qed.

(** Above a node that exists there are directories only. *)
Lemma lookup_path_parent p x q n c :
  lookup_path (p ++ x :: q) n = Some c →
  ∃ es, lookup_path p n = Some (Dir es).
Proof.
  rewrite lookup_path_app. destruct (lookup_path p n) as [[|es]|]; simpl; try done.
  intros _. by exists es.
Qed.

(** ** The [fs] calls *)

Lemma fs_bind_inv {A B} (m : Fs A) (f : A → Fs B) fs fs' b :
  (m ≫= f) fs = (fs', Ok b) →
  ∃ fsm a, m fs = (fsm, Ok a) ∧ f a fsm = (fs', Ok b).
Proof.
  unfold mbind, Fs_bind. destruct (m fs) as [fsm [a|e]]; [eauto | done].
Qed.

Lemma frames_refl target fs : frames target fs fs.
Proof. by intros q _. Qed.

Lemma frames_trans target fs1 fs2 fs3 :
  frames target fs1 fs2 → frames target fs2 fs3 → frames target fs1 fs3.
Proof. intros H1 H2 q Hq. by rewrite H2, H1. Qed.

Lemma frames_below target x fs fs' :
  frames (target ++ [x]) fs fs' → frames target fs fs'.
Proof. intros H q Hq. by apply H, diverge_app_l. Qed.

Lemma mkdir_p_frames p : ∀ n n', mkdir_p p n = Ok n' → frames p n n'.
Proof.
  induction p as [|x p IH]; intros [data|es] n'; simpl; try done.
  { by intros _ q. }
  destruct (mkdir_p p (default (Dir ∅) (es !! x))) as [c|] eqn:Hc; [|done].
  intros [= <-] [|y q]; simpl; [done|].
  destruct (decide (x = y)) as [<-|Hxy].
  - intros [?|Hq]; [done|]. rewrite lookup_insert_eq.
    rewrite (IH _ _ Hc q Hq).
    destruct (es !! x); simpl; [done|].
    destruct q as [|z q]; [by destruct p | simpl; by rewrite lookup_empty].
  - intros _. by rewrite lookup_insert_ne.
Qed.

Lemma mkdirSync_recursive_frames p fs fs' :
  mkdirSync_recursive p fs = (fs', Ok tt) → frames p fs fs'.
Proof.
  unfold mkdirSync_recursive. destruct (mkdir_p p fs) eqn:Hm; [|done].
  intros [= <-]. by apply mkdir_p_frames.
Qed.

Lemma write_file_lookup p data : ∀ n n',
  write_file p data n = Ok n' → lookup_path p n' = Some (File data).
Proof.
  induction p as [|x p IH]; intros [old|es] n'; simpl; try done.
  - by intros [= <-].
  - destruct (es !! x) as [c|] eqn:Hx.
    + destruct p as [|y p];
        (destruct (write_file _ data c) as [c'|] eqn:Hc; [|done]);
        intros [= <-]; simpl; rewrite lookup_insert_eq; by apply (IH c c').
    + destruct p as [|y p]; [|done].
      intros [= <-]. simpl. by rewrite lookup_insert_eq.
Qed.

Lemma write_file_frames p data : ∀ n n',
  write_file p data n = Ok n' → frames p n n'.
Proof.
  induction p as [|x p IH]; intros [old|es] n'; simpl; try done.
  - by intros _ q.
  - assert (∀ c', (∀ q, diverge p q → lookup_path q c' = es !! x ≫= lookup_path q) →
                  frames (x :: p) (Dir es) (Dir (<[x := c']> es))) as Hframe.
    { intros c' Hc' [|y q]; simpl; [done|].
      destruct (decide (x = y)) as [<-|Hxy].
      - intros [?|Hq]; [done|]. rewrite lookup_insert_eq, (Hc' q Hq).
        by destruct (es !! x).
      - intros _. by rewrite lookup_insert_ne. }
    destruct (es !! x) as [c|] eqn:Hx.
    + destruct p as [|y p];
        (destruct (write_file _ data c) as [c'|] eqn:Hc; [|done]);
        intros [= <-]; apply Hframe; intros q Hq; simpl;
        by apply (IH c c').
    + destruct p as [|y p]; [|done].
      intros [= <-]. apply Hframe. by intros q [].
Qed.

Lemma copyFileSync_spec src dest fs fs' :
  copyFileSync src dest fs = (fs', Ok tt) →
  frames dest fs fs' ∧
  ∃ data, lookup_path src fs = Some (File data) ∧
          lookup_path dest fs' = Some (File data).
Proof.
  unfold copyFileSync.
  destruct (lookup_path src fs) as [[data|es]|] eqn:Hsrc; try done.
  destruct (write_file dest data fs) as [fs1|] eqn:Hw; [|done].
  intros [= <-]. split; [by eapply write_file_frames|].
  exists data. split; [done|]. by eapply write_file_lookup.
Qed.

(** A file has nothing below it. *)
Lemma lookup_path_below_file p rel n data c :
  lookup_path p n = Some (File data) →
  lookup_path (p ++ rel) n = Some c →
  rel = [] ∧ c = File data.
Proof.
  intros Hp. rewrite lookup_path_app, Hp. simpl.
  destruct rel; simpl; [|done]. by intros [= <-].
Qed.

Lemma copyFileSync_copies source target x fs fs' :
  copyFileSync (path_join source x) (path_join target x) fs = (fs', Ok tt) →
  frames (target ++ [x]) fs fs' ∧
  copies (source ++ [x]) (target ++ [x]) fs fs'.
Proof.
  intros (Hframe & data & Hsrc & Hdest)%copyFileSync_spec.
  split; [done|]. intros rel data' Hrel.
  destruct (lookup_path_below_file _ _ _ _ _ Hsrc Hrel) as [-> [= ->]].
  by rewrite app_nil_r.
Qed.

(** ** The listing of a directory *)

Lemma elem_of_scandir (es : gmap string Node) x c :
  (x, c) ∈ scandir es ↔ es !! x = Some c.
Proof.
  unfold scandir. rewrite merge_sort_Permutation. apply elem_of_map_to_list.
Qed.

Lemma NoDup_fst_scandir (es : gmap string Node) : NoDup (scandir es).*1.
Proof.
  unfold scandir. rewrite merge_sort_Permutation. apply NoDup_fst_map_to_list.
Qed.

(** ** The loop over the entries of a directory *)

Lemma for_of_copies {A} (name : A → string) (body : A → Fs unit)
    source target (xs : list A) :
  diverge source target →
  (∀ (a : A) fs fs', a ∈ xs → body a fs = (fs', Ok tt) →
     frames (target ++ [name a]) fs fs' ∧
     copies (source ++ [name a]) (target ++ [name a]) fs fs') →
  NoDup (name <$> xs) →
  ∀ fs1 fs2, for_of xs body fs1 = (fs2, Ok tt) →
    (∀ q, (∀ a : A, a ∈ xs → diverge (target ++ [name a]) q) →
          lookup_path q fs2 = lookup_path q fs1) ∧
    (∀ (a : A) rel data, a ∈ xs →
       lookup_path (source ++ name a :: rel) fs1 = Some (File data) →
       lookup_path (target ++ name a :: rel) fs2 = Some (File data)).
Proof.
  intros Hdiv. induction xs as [|a xs IH]; intros Hbody Hnodup fs1 fs2; simpl.
  { intros [= <-]. split; [done|]. by intros a rel data ?%elem_of_nil. }
  intros (fsm & [] & Ha & Hxs)%fs_bind_inv.
  rewrite fmap_cons in Hnodup. apply NoDup_cons in Hnodup as [Hfresh Hnodup].
  destruct (Hbody a fs1 fsm) as [Hframe Hcopy]; [by left | done |].
  destruct (IH) with (fs1 := fsm) (fs2 := fs2) as [IH1 IH2]; [ | done | done | ].
  { intros b fs fs' Hb. apply Hbody. by right. }
  split.
  - intros q Hq. rewrite IH1 by (intros b Hb; apply Hq; by right).
    apply Hframe, Hq. by left.
  - intros b rel data [->|Hb]%elem_of_cons Hsrc.
    + rewrite IH1.
      * rewrite cons_middle, app_assoc. apply Hcopy.
        by rewrite <- app_assoc.
      * intros c Hc. apply (diverge_entries target (name c) (name a) [] rel).
        intros Heq. apply Hfresh. rewrite <- Heq. by apply list_elem_of_fmap_2.
    + apply IH2; [done|]. rewrite Hframe; [done|].
      apply diverge_app_l, diverge_app_r, diverge_sym, Hdiv.
Qed.

Lemma readdir_entry source fs (es : gmap string Node) x rel c :
  lookup_path source fs = Some (Dir es) →
  lookup_path (source ++ x :: rel) fs = Some c →
  ∃ child, (x, child) ∈ scandir es.
Proof.
  intros Hsrc. rewrite lookup_path_app, Hsrc. simpl.
  destruct (es !! x) as [child|] eqn:Hx; [|done].
  intros _. exists child. by apply elem_of_scandir.
Qed.

(** ** [copyDirectory] *)

Lemma copyDirectory_spec stack : ∀ source target fs fs',
  diverge source target →
  copyDirectory stack source target fs = (fs', Ok tt) →
  frames target fs fs' ∧ copies source target fs fs'.
Proof.
  induction stack as [|stack IH]; intros source target fs fs' Hdiv; [done|].
  cbn [copyDirectory].
  intros (fs0 & there & [= <- <-] & Hrest)%fs_bind_inv.
  apply fs_bind_inv in Hrest as (fs1 & [] & Hmk & Hrest).
  assert (frames target fs fs1) as Hframe1.
  { destruct (negb _); [by apply mkdirSync_recursive_frames|].
    injection Hmk as <-. apply frames_refl. }
  apply fs_bind_inv in Hrest as (fs1' & files & Hread & Hloop).
  unfold readdirSync in Hread.
  destruct (lookup_path source fs1) as [[data|es]|] eqn:Hsrc; try done.
  injection Hread as <- <-.
  eapply (for_of_copies id _ source target) in Hloop as [Hloop1 Hloop2]; [ | done | | ].
  2:{ intros x fs2 fs3 _.
      intros (fs2' & isDir & Hstat & Hcopy)%fs_bind_inv.
      unfold statSync_isDirectory in Hstat.
      destruct (lookup_path (path_join source x) fs2); [|done].
      injection Hstat as <- <-.
      destruct (isDirectory _).
      - apply IH; [|done]. by apply diverge_app_l, diverge_app_r.
      - by apply copyFileSync_copies. }
  2:{ rewrite list_fmap_id. apply NoDup_fst_scandir. }
  assert (frames target fs fs') as Hframe.
  { intros q Hq. rewrite Hloop1 by (intros; by apply diverge_app_l).
    by apply Hframe1. }
  split; [done|].
  intros rel data Hrel.
  rewrite (Hframe1 source) in Hsrc by by apply diverge_sym.
  destruct rel as [|x rel].
  { rewrite app_nil_r in Hrel. congruence. }
  destruct (readdir_entry _ _ _ _ _ _ Hsrc Hrel) as [child Hchild].
  apply (Hloop2 x).
  - apply list_elem_of_fmap. by exists (x, child).
  - rewrite Hframe1; [done|]. by apply diverge_app_r, diverge_sym.
Qed.

(** ** [copyDir] *)

Lemma copyDir_spec stack : ∀ src dest fs fs',
  diverge src dest →
  copyDir stack src dest fs = (fs', Ok tt) →
  frames dest fs fs' ∧ copies src dest fs fs'.
Proof.
  induction stack as [|stack IH]; intros src dest fs fs' Hdiv; [done|].
  cbn [copyDir].
  intros (fs1 & entries & Hread & Hloop)%fs_bind_inv.
  unfold readdirSync_withFileTypes in Hread.
  destruct (lookup_path src fs) as [[data|es]|] eqn:Hsrc; try done.
  injection Hread as <- <-.
  eapply (for_of_copies fst _ src dest) in Hloop as [Hloop1 Hloop2]; [ | done | | ].
  2:{ intros [x isDir] fs2 fs3 _. simpl. destruct isDir.
      - intros (fs2' & [] & Hmk%mkdirSync_recursive_frames & Hcopy)%fs_bind_inv.
        apply IH in Hcopy as [Hframe Hcopy]; [|by apply diverge_app_l, diverge_app_r].
        split; [by eapply frames_trans|].
        intros rel data Hrel. apply Hcopy. rewrite Hmk; [done|].
        by apply diverge_app_r, diverge_app_r, diverge_app_l, diverge_sym.
      - by apply copyFileSync_copies. }
  2:{ rewrite <- list_fmap_compose.
      rewrite (list_fmap_ext _ fst (scandir es)) by by intros ? [].
      apply NoDup_fst_scandir. }
  split.
  { intros q Hq. apply Hloop1. intros; by apply diverge_app_l. }
  intros rel data Hrel.
  destruct rel as [|x rel].
  { rewrite app_nil_r in Hrel. congruence. }
  destruct (readdir_entry _ _ _ _ _ _ Hsrc Hrel) as [child Hchild].
  apply (Hloop2 (x, isDirectory child)); [|done].
  apply list_elem_of_fmap. by exists (x, child).
Qed.

(** ** Source and destination are one directory *)

Lemma mkdir_p_same p : ∀ n (es : gmap string Node),
  lookup_path p n = Some (Dir es) → mkdir_p p n = Ok n.
Proof.
  induction p as [|x p IH]; intros [data|es'] es; simpl; try done.
  destruct (es' !! x) as [c|] eqn:Hx; [|done].
  intros Hc. simpl. rewrite (IH c es Hc). by rewrite insert_id.
Qed.

Lemma write_file_same p data : ∀ n,
  lookup_path p n = Some (File data) → write_file p data n = Ok n.
Proof.
  induction p as [|x p IH]; intros [old|es]; simpl; try done.
  - by intros [= ->].
  - destruct (es !! x) as [c|] eqn:Hx; [|done].
    intros Hc. rewrite (IH c Hc). rewrite insert_id by done. by destruct p.
Qed.

Lemma for_of_same {A} (body : A → Fs unit) (xs : list A) fs fs' :
  (∀ (a : A) fs'', a ∈ xs → body a fs = (fs'', Ok tt) → fs'' = fs) →
  for_of xs body fs = (fs', Ok tt) → fs' = fs.
Proof.
  induction xs as [|a xs IH]; simpl; intros Hbody.
  { by intros [= <-]. }
  intros (fsm & [] & Ha & Hxs)%fs_bind_inv.
  apply Hbody in Ha as ->; [|by left].
  apply IH; [|done]. intros b fs'' Hb. apply Hbody. by right.
Qed.

Lemma copyFileSync_same p fs fs' :
  copyFileSync p p fs = (fs', Ok tt) → fs' = fs.
Proof.
  unfold copyFileSync.
  destruct (lookup_path p fs) as [[data|es]|] eqn:Hp; try done.
  rewrite (write_file_same p data fs Hp). by intros [= <-].
Qed.

Lemma copyDirectory_same stack : ∀ p fs fs',
  is_Some (lookup_path p fs) →
  copyDirectory stack p p fs = (fs', Ok tt) → fs' = fs.
Proof.
  induction stack as [|stack IH]; intros p fs fs' Hp; [done|].
  cbn [copyDirectory].
  intros (fs0 & there & [= <- <-] & Hrest)%fs_bind_inv.
  rewrite bool_decide_eq_true_2 in Hrest by done. simpl in Hrest.
  apply fs_bind_inv in Hrest as (fs1 & [] & [= <-] & Hrest).
  apply fs_bind_inv in Hrest as (fs1' & files & Hread & Hloop).
  unfold readdirSync in Hread.
  destruct (lookup_path p fs) as [[data|es]|]; try done.
  injection Hread as <- <-.
  apply for_of_same in Hloop; [done|].
  intros x fs2 _ (fs2' & isDir & Hstat & Hcopy)%fs_bind_inv.
  unfold statSync_isDirectory in Hstat.
  destruct (lookup_path (path_join p x) fs) eqn:Hx; [|done].
  injection Hstat as <- <-.
  destruct (isDirectory _).
  - apply IH in Hcopy; [done|]. by rewrite Hx.
  - by apply copyFileSync_same in Hcopy.
Qed.

Lemma copyDir_same stack : ∀ p fs fs',
  copyDir stack p p fs = (fs', Ok tt) → fs' = fs.
Proof.
  induction stack as [|stack IH]; intros p fs fs'; [done|].
  cbn [copyDir].
  intros (fs1 & entries & Hread & Hloop)%fs_bind_inv.
  unfold readdirSync_withFileTypes in Hread.
  destruct (lookup_path p fs) as [[data|es]|] eqn:Hp; try done.
  injection Hread as <- <-.
  apply for_of_same in Hloop; [done|].
  intros [x isDir] fs2 Hin. simpl.
  apply list_elem_of_fmap in Hin as ([x' child] & [= <- ->] & Hin).
  apply elem_of_scandir in Hin.
  assert (lookup_path (path_join p x) fs = Some child) as Hx.
  { unfold path_join. rewrite lookup_path_app, Hp. simpl. by rewrite Hin. }
  destruct child as [data|es']; simpl.
  - by apply copyFileSync_same.
  - intros (fs2' & [] & Hmk & Hcopy)%fs_bind_inv.
    unfold mkdirSync_recursive in Hmk.
    rewrite (mkdir_p_same _ _ _ Hx) in Hmk. injection Hmk as <-.
    by apply IH in Hcopy.
Qed.

(** ** The installers *)

Lemma not_inside_diverge p q :
  ¬ inside p q → ¬ inside q p → p = q ∨ diverge p q.
Proof.
  intros Hpq Hqp. destruct (decide (p = q)) as [->|Hne]; [by left | right].
  apply diverge_not_prefix; intros Hpre; [apply Hqp | apply Hpq]; by split.
Qed.

Lemma copies_absent p fs fs' : lookup_path p fs = None → copies p p fs fs'.
Proof. intros Hp rel data. by rewrite lookup_path_app, Hp. Qed.

Lemma run_copies script stack dirname cwd fs fs' :
  source_dir script dirname = target_dir cwd ∨
  diverge (source_dir script dirname) (target_dir cwd) →
  run script stack dirname cwd fs = (fs', 0) →
  copies (source_dir script dirname) (target_dir cwd) fs fs'.
Proof.
  intros Hplace. destruct script; simpl.
  - unfold install.
    destruct (copyDirectory _ _ _ fs) as [fs1 [[]|e]] eqn:Hcopy; [|done].
    intros [= <-]. destruct Hplace as [Heq|Hdiv].
    + simpl in Heq. unfold target_dir in *. rewrite Heq in *.
      destruct (lookup_path (cwd ++ ["src"; "contessa"]) fs) eqn:Hp;
        [|by apply copies_absent].
      apply copyDirectory_same in Hcopy; [|by rewrite Hp].
      subst fs1. by intros rel data.
    + by apply copyDirectory_spec in Hcopy as [_ ?].
  - unfold postinstall.
    match goal with |- context [?m fs] => destruct (m fs) as [fs1 [[]|e]] eqn:Hrun end;
      [|done].
    intros [= <-].
    apply fs_bind_inv in Hrun as (fs0 & there & [= <- <-] & Hrest).
    apply fs_bind_inv in Hrest as (fs2 & [] & Hmk & Hcopy).
    destruct Hplace as [Heq|Hdiv].
    + simpl in Heq. unfold target_dir in *. rewrite Heq in *.
      destruct (lookup_path (cwd ++ ["src"; "contessa"]) fs) eqn:Hp;
        [|by apply copies_absent].
      rewrite bool_decide_eq_true_2 in Hmk by done.
      injection Hmk as <-.
      apply copyDir_same in Hcopy as ->. by intros rel data.
    + assert (frames (target_dir cwd) fs fs2) as Hframe.
      { destruct (negb _); [by apply mkdirSync_recursive_frames|].
        injection Hmk as <-. apply frames_refl. }
      apply copyDir_spec in Hcopy as [_ Hcopy]; [|done].
      intros rel data Hrel. apply Hcopy. rewrite Hframe; [done|].
      by apply diverge_app_r, diverge_sym.
Qed.

(** ** Nothing is written outside the destination *)

Lemma mkdirSync_recursive_writes_below p fs : frames p fs (mkdirSync_recursive p fs).1.
Proof.
  unfold mkdirSync_recursive. destruct (mkdir_p p fs) as [fs'|e] eqn:Hm; simpl.
  - by apply mkdir_p_frames.
  - apply frames_refl.
Qed.

Lemma copyFileSync_writes_below src dest fs : frames dest fs (copyFileSync src dest fs).1.
Proof.
  unfold copyFileSync.
  destruct (lookup_path src fs) as [[data|es]|]; simpl; try apply frames_refl.
  destruct (write_file dest data fs) as [fs'|e] eqn:Hw; simpl.
  - by eapply write_file_frames.
  - apply frames_refl.
Qed.

Lemma fs_bind_writes_below {A B} (m : Fs A) (f : A → Fs B) target fs :
  frames target fs (m fs).1 →
  (∀ a fs1, frames target fs1 (f a fs1).1) →
  frames target fs ((m ≫= f) fs).1.
Proof.
  intros Hm Hf. unfold mbind, Fs_bind.
  destruct (m fs) as [fs1 [a|e]]; simpl in *; [|done].
  eapply frames_trans; [done | apply Hf].
Qed.

Lemma writes_below_run {A} (m : Fs A) target fs fs' (r : Result A) :
  frames target fs (m fs).1 → m fs = (fs', r) → frames target fs fs'.
Proof. intros H Hm. by rewrite Hm in H. Qed.

Lemma for_of_writes_below {A} (body : A → Fs unit) target (xs : list A) :
  (∀ a fs, frames target fs (body a fs).1) →
  ∀ fs, frames target fs (for_of xs body fs).1.
Proof.
  intros Hbody. induction xs as [|a xs IH]; intros fs; simpl.
  - apply frames_refl.
  - apply fs_bind_writes_below; [apply Hbody | intros _; apply IH].
Qed.

Lemma copyDirectory_writes_below stack : ∀ source target fs,
  frames target fs (copyDirectory stack source target fs).1.
Proof.
  induction stack as [|stack IH]; intros source target fs; [apply frames_refl|].
  cbn [copyDirectory].
  apply fs_bind_writes_below; [apply frames_refl|]. intros there fs1.
  apply fs_bind_writes_below.
  { destruct (negb there); [apply mkdirSync_recursive_writes_below | apply frames_refl]. }
  intros _ fs2. apply fs_bind_writes_below.
  { unfold readdirSync. destruct (lookup_path source fs2) as [[|]|]; apply frames_refl. }
  intros files fs3. apply for_of_writes_below. intros x fs4.
  apply fs_bind_writes_below.
  { unfold statSync_isDirectory. destruct (lookup_path _ fs4); apply frames_refl. }
  intros isDir fs5. apply (frames_below target x). destruct isDir.
  - apply IH.
  - apply copyFileSync_writes_below.
Qed.

Lemma copyDir_writes_below stack : ∀ src dest fs,
  frames dest fs (copyDir stack src dest fs).1.
Proof.
  induction stack as [|stack IH]; intros src dest fs; [apply frames_refl|].
  cbn [copyDir].
  apply fs_bind_writes_below.
  { unfold readdirSync_withFileTypes.
    destruct (lookup_path src fs) as [[|]|]; apply frames_refl. }
  intros entries fs1. apply for_of_writes_below. intros [x isDir] fs2. simpl.
  apply (frames_below dest x). destruct isDir.
  - apply fs_bind_writes_below; [apply mkdirSync_recursive_writes_below|].
    intros _ fs3. apply IH.
  - apply copyFileSync_writes_below.
Qed.

(** A run, whether it ends with status 0 or 1, changes nothing at the paths
    that diverge from the destination. *)
Lemma run_writes_below script stack dirname cwd fs :
  frames (target_dir cwd) fs (run script stack dirname cwd fs).1.
Proof.
  destruct script; simpl.
  - unfold install.
    pose proof (copyDirectory_writes_below stack (dirname ++ ["contessa"])
                  (cwd ++ ["src"; "contessa"]) fs) as H.
    by destruct (copyDirectory _ _ _ fs) as [fs' [[]|e]].
  - unfold postinstall.
    match goal with |- context [?m fs] =>
      assert (frames (target_dir cwd) fs (m fs).1) as H;
      [|by destruct (m fs) as [fs' [[]|e]]] end.
    apply fs_bind_writes_below; [apply frames_refl|]. intros there fs1.
    apply fs_bind_writes_below.
    { destruct (negb there); [apply mkdirSync_recursive_writes_below | apply frames_refl]. }
    intros _ fs2. apply copyDir_writes_below.
Qed.

(** ** The destination inside the bundle *)

(** With the destination inside the bundle, the copy of the directory that
    leads to the destination is a copy into itself, one level down: no run
    ends with status 0. *)

Lemma mkdir_p_is_dir p : ∀ n n', mkdir_p p n = Ok n' → is_dir p n'.
Proof.
  induction p as [|x p IH]; intros [data|es] n'; simpl; try done.
  - intros [= <-]. by exists es.
  - destruct (mkdir_p p (default (Dir ∅) (es !! x))) as [c'|] eqn:Hc; [|done].
    intros [= <-]. destruct (IH _ _ Hc) as [es' Hes']. exists es'.
    simpl. by rewrite lookup_insert_eq.
Qed.

Lemma write_file_below_file p x q data : ∀ n n' old,
  lookup_path p n = Some (File old) → write_file (p ++ x :: q) data n ≠ Ok n'.
Proof.
  induction p as [|y p IH]; intros [old'|es] n' old; simpl; try done.
  destruct (es !! y) as [c|] eqn:Hy; [|done]. intros Hc.
  destruct (write_file (p ++ x :: q) data c) as [c'|] eqn:Hw.
  - by destruct (IH c c' old Hc).
  - by destruct (p ++ x :: q).
Qed.

Lemma for_of_elem {A} (body : A → Fs unit) (xs : list A) (a : A) fs fs' :
  for_of xs body fs = (fs', Ok tt) → a ∈ xs →
  ∃ fsa fsb, body a fsa = (fsb, Ok tt).
Proof.
  revert fs. induction xs as [|b xs IH]; intros fs; simpl.
  { by intros _ ?%elem_of_nil. }
  intros (fsm & [] & Hb & Hxs)%fs_bind_inv [->|Ha]%elem_of_cons; eauto.
Qed.

(** The copy of the entry [x] of [source] into [source ++ x :: r] is a copy
    of [source ++ [x]] into a directory below it. *)
Lemma path_join_inside source x r :
  ∃ y r', path_join (source ++ x :: r) x = path_join source x ++ y :: r'.
Proof.
  unfold path_join. destruct r as [|z r].
  - exists x, []. by rewrite <- !app_assoc.
  - exists z, (r ++ [x]). by rewrite <- !app_assoc.
Qed.

Lemma lookup_path_prefix p q n :
  is_Some (lookup_path (p ++ q) n) → is_Some (lookup_path p n).
Proof.
  rewrite lookup_path_app. destruct (lookup_path p n); [by eexists | by intros [? ?]].
Qed.

Lemma lookup_path_entry source x r fs (es : gmap string Node) :
  lookup_path source fs = Some (Dir es) →
  is_Some (lookup_path (source ++ x :: r) fs) →
  is_Some (es !! x).
Proof.
  intros Hsrc. rewrite lookup_path_app, Hsrc. simpl.
  destruct (es !! x) as [c|]; [by eexists | by intros [? ?]].
Qed.

Lemma copyFileSync_below_itself p x q fs fs' :
  copyFileSync p (p ++ x :: q) fs ≠ (fs', Ok tt).
Proof.
  unfold copyFileSync.
  destruct (lookup_path p fs) as [[data|es]|] eqn:Hp; try done.
  destruct (write_file (p ++ x :: q) data fs) as [fs1|] eqn:Hw; [|done].
  by destruct (write_file_below_file p x q data fs fs1 data Hp).
Qed.

Lemma copyDirectory_inside stack : ∀ source x r fs fs',
  copyDirectory stack source (source ++ x :: r) fs ≠ (fs', Ok tt).
Proof.
  induction stack as [|stack IH]; intros source x r fs fs'; [done|].
  cbn [copyDirectory]. intros Hrun.
  apply fs_bind_inv in Hrun as (fs0 & there & [= <- Hthere] & Hrest).
  apply fs_bind_inv in Hrest as (fs1 & [] & Hmk & Hrest).
  assert (is_Some (lookup_path (source ++ x :: r) fs1)) as Htarget.
  { subst there. case_bool_decide as Hex; simpl in Hmk.
    - by injection Hmk as <-.
    - unfold mkdirSync_recursive in Hmk.
      destruct (mkdir_p (source ++ x :: r) fs) as [fs1'|] eqn:Hmk'; [|done].
      injection Hmk as <-. destruct (mkdir_p_is_dir _ _ _ Hmk') as [es Hes].
      by rewrite Hes. }
  apply fs_bind_inv in Hrest as (fs1' & files & Hread & Hloop).
  unfold readdirSync in Hread.
  destruct (lookup_path source fs1) as [[data|es]|] eqn:Hsrc; try done.
  injection Hread as <- <-.
  destruct (lookup_path_entry _ _ _ _ _ Hsrc Htarget) as [c Hc].
  destruct (for_of_elem _ _ x _ _ Hloop) as (fsa & fsb & Hbody).
  { apply list_elem_of_fmap. exists (x, c). split; [done|]. by apply elem_of_scandir. }
  apply fs_bind_inv in Hbody as (fsa' & isDir & Hstat & Hcopy).
  destruct (path_join_inside source x r) as (y & r' & Hr). rewrite Hr in Hcopy.
  destruct isDir.
  - by apply IH in Hcopy.
  - by apply copyFileSync_below_itself in Hcopy.
Qed.

Lemma copyDir_inside stack : ∀ src x r fs fs',
  is_Some (lookup_path (src ++ [x]) fs) →
  copyDir stack src (src ++ x :: r) fs ≠ (fs', Ok tt).
Proof.
  induction stack as [|stack IH]; intros src x r fs fs' Hx; [done|].
  cbn [copyDir]. intros Hrun.
  apply fs_bind_inv in Hrun as (fs1 & entries & Hread & Hloop).
  unfold readdirSync_withFileTypes in Hread.
  destruct (lookup_path src fs) as [[data|es]|] eqn:Hsrc; try done.
  injection Hread as <- <-.
  destruct (lookup_path_entry src x [] fs es Hsrc Hx) as [c Hc].
  destruct (for_of_elem _ _ (x, isDirectory c) _ _ Hloop) as (fsa & fsb & Hbody).
  { apply list_elem_of_fmap. exists (x, c). split; [done|]. by apply elem_of_scandir. }
  simpl in Hbody.
  destruct (path_join_inside src x r) as (y & r' & Hr). rewrite Hr in Hbody.
  destruct (isDirectory c).
  - apply fs_bind_inv in Hbody as (fs2 & [] & Hmk & Hcopy).
    apply IH in Hcopy; [done|].
    unfold mkdirSync_recursive in Hmk.
    destruct (mkdir_p (path_join src x ++ y :: r') fsa) as [fs2'|] eqn:Hmk'; [|done].
    injection Hmk as <-. destruct (mkdir_p_is_dir _ _ _ Hmk') as [es2 Hes2].
    apply (lookup_path_prefix _ r'). rewrite <- app_assoc. simpl. by rewrite Hes2.
  - by apply copyFileSync_below_itself in Hbody.
Qed.

Lemma run_inside script stack dirname cwd fs :
  inside (target_dir cwd) (source_dir script dirname) →
  (run script stack dirname cwd fs).2 = 1.
Proof.
  intros [[k Hk] Hne]. destruct k as [|x r].
  { by rewrite app_nil_r in Hk. }
  destruct script; unfold run, source_dir, target_dir in *.
  - unfold install. rewrite Hk.
    destruct (copyDirectory _ _ _ fs) as [fs1 [[]|e]] eqn:Hcopy; [|done].
    by apply copyDirectory_inside in Hcopy.
  - unfold postinstall. rewrite Hk.
    match goal with |- context [?m fs] => destruct (m fs) as [fs1 [[]|e]] eqn:Hrun end;
      [|done].
    apply fs_bind_inv in Hrun as (fs0 & there & [= <- Hthere] & Hrest).
    apply fs_bind_inv in Hrest as (fs2 & [] & Hmk & Hcopy).
    apply copyDir_inside in Hcopy; [done|].
    assert (is_Some (lookup_path (removelast dirname ++ ["src"; "contessa"] ++ x :: r) fs2))
      as Htarget.
    { rewrite app_assoc. subst there. case_bool_decide as Hex; simpl in Hmk.
      - by injection Hmk as <-.
      - unfold mkdirSync_recursive in Hmk.
        match type of Hmk with context [mkdir_p ?t fs] =>
          destruct (mkdir_p t fs) as [fs2'|] eqn:Hmk'; [|done] end.
        injection Hmk as <-. destruct (mkdir_p_is_dir _ _ _ Hmk') as [es Hes].
        by rewrite Hes. }
    apply (lookup_path_prefix _ r). by rewrite <- !app_assoc.
Qed.

(** C9 (as amended).  For each of the two installers: when the bundled
    directory does not lie inside the destination, after a run that ends
    with status 0 every file of the bundled directory is in the destination
    at the same relative path with the same bytes, every directory on the
    way to it exists, and the file of the bundle is as it was. *)
Theorem installed_files_match_source script stack dirname cwd fs fs' rel data :
  ¬ inside (source_dir script dirname) (target_dir cwd) →
  run script stack dirname cwd fs = (fs', 0) →
  lookup_path (source_dir script dirname ++ rel) fs = Some (File data) →
  lookup_path (target_dir cwd ++ rel) fs' = Some (File data) ∧
  (∀ depth, depth < length rel →
     ∃ es, lookup_path (target_dir cwd ++ take depth rel) fs' = Some (Dir es)) ∧
  lookup_path (source_dir script dirname ++ rel) fs' = Some (File data).
Proof.
  intros Hst Hrun Hrel.
  assert (¬ inside (target_dir cwd) (source_dir script dirname)) as Hts.
  { intros Hin. pose proof (run_inside script stack dirname cwd fs Hin) as Hfail.
    by rewrite Hrun in Hfail. }
  pose proof (not_inside_diverge _ _ Hst Hts) as Hplace.
  assert (lookup_path (target_dir cwd ++ rel) fs' = Some (File data)) as Hdest.
  { by eapply run_copies. }
  split_and!; [done | |].
  - intros depth Hdepth.
    rewrite <- (take_drop depth rel) in Hdest.
    destruct (drop depth rel) as [|x q] eqn:Hdrop.
    { apply (f_equal length) in Hdrop. rewrite length_drop in Hdrop. simpl in Hdrop. lia. }
    rewrite app_assoc in Hdest. by eapply lookup_path_parent.
  - destruct Hplace as [Heq|Hdiv]; [by rewrite Heq|].
    pose proof (run_writes_below script stack dirname cwd fs) as Hframe.
    rewrite Hrun in Hframe. rewrite Hframe; [done|].
    by apply diverge_app_r, diverge_sym.
Qed.

(** ** A first installation succeeds *)

Lemma depth_entry (es : gmap string Node) x c :
  es !! x = Some c → depth c < depth (Dir es).
Proof.
  simpl. revert x c.
  induction es as [|y n es Hy Hfold IH] using map_first_key_ind.
  - intros x c. by rewrite lookup_empty.
  - intros x c. rewrite map_fold_insert_first_key by done.
    rewrite lookup_insert. case_decide as Hxy.
    + intros [= ->]. lia.
    + intros Hx. specialize (IH x c Hx). lia.
Qed.

Lemma lookup_path_snoc p x n :
  lookup_path (p ++ [x]) n
  = lookup_path p n ≫= λ d, match d with Dir es => es !! x | File _ => None end.
Proof.
  rewrite lookup_path_app. destruct (lookup_path p n) as [[|es]|]; simpl; try done.
  by destruct (es !! x).
Qed.

(** A new directory in a directory that is there. *)
Lemma mkdir_p_entry p x : ∀ n,
  is_dir p n → lookup_path (p ++ [x]) n = None →
  ∃ n', mkdir_p (p ++ [x]) n = Ok n' ∧ lookup_path (p ++ [x]) n' = Some (Dir ∅).
Proof.
  induction p as [|y p IH]; intros n [es Hp]; simpl in *.
  - injection Hp as ->. destruct (es !! x) eqn:Hx; [done|]. intros _.
    simpl. eexists. split; [done|]. simpl. by rewrite lookup_insert_eq.
  - destruct n as [|es']; [done|].
    destruct (es' !! y) as [c|] eqn:Hy; [|done]. simpl. intros Hx.
    destruct (IH c) as (c' & -> & Hc'); [by exists es | done |].
    eexists. split; [done|]. simpl. by rewrite lookup_insert_eq.
Qed.

(** The directory that [mkdir -p] makes where nothing was is empty. *)
Lemma mkdir_p_absent p : ∀ n n',
  lookup_path p n = None → mkdir_p p n = Ok n' → lookup_path p n' = Some (Dir ∅).
Proof.
  induction p as [|x p IH]; intros [data|es] n'; simpl; try done.
  destruct (es !! x) as [c|] eqn:Hx; simpl.
  - intros Hc. destruct (mkdir_p p c) as [c'|] eqn:Hmk; [|done].
    intros [= <-]. simpl. rewrite lookup_insert_eq. by eapply IH.
  - intros _. destruct (mkdir_p p (Dir ∅)) as [c'|] eqn:Hmk; [|done].
    intros [= <-]. simpl. rewrite lookup_insert_eq.
    destruct p as [|y p].
    + by injection Hmk as <-.
    + eapply IH; [|done]. simpl. by rewrite lookup_empty.
Qed.

(** A new file in a directory that is there. *)
Lemma write_file_entry p x data : ∀ n,
  is_dir p n → lookup_path (p ++ [x]) n = None →
  ∃ n', write_file (p ++ [x]) data n = Ok n'.
Proof.
  induction p as [|y p IH]; intros n [es Hp]; simpl in *.
  - injection Hp as ->. destruct (es !! x) eqn:Hx; [done|]. intros _. by eexists.
  - destruct n as [|es']; [done|].
    destruct (es' !! y) as [c|] eqn:Hy; [|done]. intros Hx.
    destruct (IH c) as (c' & Hc'); [by exists es | done |].
    rewrite Hc'. destruct (p ++ [x]); by eexists.
Qed.

Lemma is_dir_parent p x n c :
  lookup_path (p ++ [x]) n = Some c → is_dir p n.
Proof. apply lookup_path_parent. Qed.

(** The loop over the entries, into a destination where none of them is
    yet.  [fs0] is the file system before the copy. *)
Lemma for_of_fresh {A} (name : A → string) (body : A → Fs unit) target fs0
    (xs : list A) :
  (∀ (a : A) fs, a ∈ xs →
     frames target fs0 fs →
     is_dir target fs → lookup_path (target ++ [name a]) fs = None →
     ∃ fs', body a fs = (fs', Ok tt) ∧
            frames (target ++ [name a]) fs fs' ∧
            is_Some (lookup_path (target ++ [name a]) fs')) →
  NoDup (name <$> xs) →
  ∀ fs,
    frames target fs0 fs →
    is_dir target fs →
    (∀ a : A, a ∈ xs → lookup_path (target ++ [name a]) fs = None) →
    ∃ fs', for_of xs body fs = (fs', Ok tt) ∧
           frames target fs0 fs' ∧ is_dir target fs'.
Proof.
  induction xs as [|a xs IH]; intros Hbody Hnodup fs Hframe0 Hdir Hfresh; simpl.
  { by exists fs. }
  rewrite fmap_cons in Hnodup. apply NoDup_cons in Hnodup as [Hnew Hnodup].
  destruct (Hbody a fs) as (fs1 & Ha & Hframe & [c Hc]);
    [by left | done | done | apply Hfresh; by left |].
  destruct (IH) with (fs := fs1) as (fs' & Hxs & Hframe' & Hdir').
  - intros b fs2 Hb. apply Hbody. by right.
  - done.
  - eapply frames_trans; [done|]. by apply frames_below in Hframe.
  - by eapply lookup_path_parent.
  - intros b Hb. rewrite Hframe; [apply Hfresh; by right|].
    apply (diverge_entries target (name a) (name b) [] []).
    intros Heq. apply Hnew. rewrite Heq. by apply list_elem_of_fmap_2.
  - exists fs'. split; [|done].
    unfold mbind, Fs_bind. by rewrite Ha.
Qed.

Lemma readdir_member (es : gmap string Node) x :
  x ∈ (scandir es).*1 → ∃ c, es !! x = Some c.
Proof.
  intros ([x' c] & -> & Hin)%list_elem_of_fmap.
  exists c. by apply elem_of_scandir.
Qed.

Lemma copyFileSync_fresh source target x data fs :
  lookup_path (source ++ [x]) fs = Some (File data) →
  is_dir target fs → lookup_path (target ++ [x]) fs = None →
  ∃ fs', copyFileSync (path_join source x) (path_join target x) fs = (fs', Ok tt) ∧
         frames (target ++ [x]) fs fs' ∧
         is_Some (lookup_path (target ++ [x]) fs').
Proof.
  intros Hsrc Hdir Hnew. unfold copyFileSync, path_join. rewrite Hsrc.
  destruct (write_file_entry target x data fs Hdir Hnew) as [fs' Hw].
  rewrite Hw. exists fs'. split; [done|]. split.
  - by eapply write_file_frames.
  - rewrite (write_file_lookup _ _ _ _ Hw). by eexists.
Qed.

Lemma copyDirectory_fresh stack : ∀ source target fs (es : gmap string Node),
  diverge source target →
  lookup_path source fs = Some (Dir es) →
  depth (Dir es) ≤ stack →
  lookup_path target fs = None →
  is_Ok (mkdir_p target fs) →
  ∃ fs', copyDirectory stack source target fs = (fs', Ok tt) ∧
         frames target fs fs' ∧ is_dir target fs'.
Proof.
  induction stack as [|stack IH]; intros source target fs es Hdiv Hsrc Hdepth Hnew [fs1 Hmk].
  { simpl in Hdepth. lia. }
  cbn [copyDirectory].
  pose proof (mkdir_p_frames _ _ _ Hmk) as Hframe1.
  pose proof (mkdir_p_absent _ _ _ Hnew Hmk) as Hdir1.
  assert (lookup_path source fs1 = Some (Dir es)) as Hsrc1.
  { rewrite Hframe1; [done | by apply diverge_sym]. }
  destruct (for_of_fresh id
    (λ file,
       isDir ← statSync_isDirectory (path_join source file);
       if (isDir : bool)
       then copyDirectory stack (path_join source file) (path_join target file)
       else copyFileSync (path_join source file) (path_join target file))
    target fs1 (scandir es).*1) with (fs := fs1)
    as (fs' & Hloop & Hframe & Hdir).
  - intros x fs2 [c Hx]%readdir_member Hframe2 Hdir2 Hnew2.
    assert (lookup_path (source ++ [x]) fs2 = Some c) as Hc.
    { rewrite Hframe2 by by apply diverge_app_r, diverge_sym.
      rewrite lookup_path_snoc, Hsrc1. done. }
    unfold mbind, Fs_bind, statSync_isDirectory, path_join. rewrite Hc.
    destruct c as [data|esc]; simpl.
    + exact (copyFileSync_fresh source target x data fs2 Hc Hdir2 Hnew2).
    + destruct (IH (source ++ [x]) (target ++ [x]) fs2 esc) as (fs3 & -> & ? & [es3 Hes3]).
      * by apply diverge_app_l, diverge_app_r.
      * done.
      * pose proof (depth_entry es x _ Hx). lia.
      * done.
      * destruct (mkdir_p_entry target x fs2 Hdir2 Hnew2) as (? & -> & _). by eexists.
      * exists fs3. split; [done|]. split; [done|]. rewrite Hes3. by eexists.
  - rewrite list_fmap_id. apply NoDup_fst_scandir.
  - apply frames_refl.
  - by exists ∅.
  - intros x _. rewrite lookup_path_snoc, Hdir1. simpl. apply lookup_empty.
  - exists fs'. split; [|split; [by eapply frames_trans | done]].
    unfold mbind at 1 2 3, Fs_bind at 1 2 3, existsSync.
    rewrite Hnew. rewrite bool_decide_eq_false_2 by by intros [? ?].
    simpl. unfold mkdirSync_recursive. rewrite Hmk.
    unfold readdirSync. rewrite Hsrc1. exact Hloop.
Qed.

Lemma copyDir_fresh stack : ∀ src dest fs (es : gmap string Node),
  diverge src dest →
  lookup_path src fs = Some (Dir es) →
  depth (Dir es) ≤ stack →
  lookup_path dest fs = Some (Dir ∅) →
  ∃ fs', copyDir stack src dest fs = (fs', Ok tt) ∧
         frames dest fs fs' ∧ is_dir dest fs'.
Proof.
  induction stack as [|stack IH]; intros src dest fs es Hdiv Hsrc Hdepth Hdest.
  { simpl in Hdepth. lia. }
  cbn [copyDir].
  destruct (for_of_fresh fst
    (λ entry : string * bool,
       if (entry.2 : bool)
       then mkdirSync_recursive (path_join dest entry.1) ;;
            copyDir stack (path_join src entry.1) (path_join dest entry.1)
       else copyFileSync (path_join src entry.1) (path_join dest entry.1))
    dest fs (prod_map id isDirectory <$> scandir es)) with (fs := fs)
    as (fs' & Hloop & Hframe & Hdir).
  - intros [x isDir] fs2 ([x' c] & [= <- ->] & Hin)%list_elem_of_fmap Hframe2 Hdir2 Hnew2.
    apply elem_of_scandir in Hin. simpl.
    assert (lookup_path (src ++ [x]) fs2 = Some c) as Hc.
    { rewrite Hframe2 by by apply diverge_app_r, diverge_sym.
      rewrite lookup_path_snoc, Hsrc. done. }
    destruct c as [data|esc]; simpl.
    + exact (copyFileSync_fresh src dest x data fs2 Hc Hdir2 Hnew2).
    + destruct (mkdir_p_entry dest x fs2 Hdir2 Hnew2) as (fs3 & Hmk & Hdir3).
      pose proof (mkdir_p_frames _ _ _ Hmk) as Hframe3.
      destruct (IH (src ++ [x]) (dest ++ [x]) fs3 esc) as (fs4 & Hcopy & ? & [es4 Hes4]).
      * by apply diverge_app_l, diverge_app_r.
      * rewrite Hframe3; [done|].
        by apply diverge_app_r, diverge_app_l, diverge_sym.
      * pose proof (depth_entry es x _ Hin). lia.
      * done.
      * exists fs4. split; [|split].
        -- unfold mbind, Fs_bind, mkdirSync_recursive, path_join. by rewrite Hmk.
        -- by eapply frames_trans.
        -- rewrite Hes4. by eexists.
  - rewrite <- list_fmap_compose.
    rewrite (list_fmap_ext _ fst (scandir es)) by by intros ? [].
    apply NoDup_fst_scandir.
  - apply frames_refl.
  - by exists ∅.
  - intros [x isDir] _. rewrite lookup_path_snoc, Hdest. simpl. apply lookup_empty.
  - exists fs'. split; [|done].
    unfold mbind at 1, Fs_bind at 1, readdirSync_withFileTypes. rewrite Hsrc.
    exact Hloop.
Qed.

(** X16.  A first installation: the bundle is there, the destination is
    not yet but can be made, it does not lie below the bundle, and the stack
    is as deep as the bundle.  Then the run ends with status 0. *)
Theorem first_install_succeeds script stack dirname cwd fs (es : gmap string Node) :
  lookup_path (source_dir script dirname) fs = Some (Dir es) →
  depth (Dir es) ≤ stack →
  lookup_path (target_dir cwd) fs = None →
  is_Ok (mkdir_p (target_dir cwd) fs) →
  ¬ inside (target_dir cwd) (source_dir script dirname) →
  (run script stack dirname cwd fs).2 = 0.
Proof.
  intros Hsrc Hdepth Hnew Hmk Hts.
  assert (diverge (source_dir script dirname) (target_dir cwd)) as Hdiv.
  { destruct (not_inside_diverge (source_dir script dirname) (target_dir cwd))
      as [Heq|?]; [|done| |done].
    - intros [[k Hk] _]. rewrite Hk, lookup_path_app, Hnew in Hsrc. done.
    - rewrite Heq in Hsrc. congruence. }
  destruct script; unfold run, source_dir, target_dir in *.
  - unfold install.
    destruct (copyDirectory_fresh stack _ _ fs es Hdiv Hsrc Hdepth Hnew Hmk)
      as (fs' & -> & _). done.
  - unfold postinstall. destruct Hmk as [fs1 Hmk].
    pose proof (mkdir_p_frames _ _ _ Hmk) as Hframe1.
    destruct (copyDir_fresh stack (removelast dirname ++ ["src"; "contessa"])
                (cwd ++ ["src"; "contessa"]) fs1 es) as (fs' & Hcopy & _);
      [done | | done | |].
    + rewrite Hframe1; [done | by apply diverge_sym].
    + by eapply mkdir_p_absent.
    + unfold mbind at 1 2, Fs_bind at 1 2, existsSync.
      rewrite Hnew.
      rewrite bool_decide_eq_false_2 by by intros [? ?].
      simpl. unfold mkdirSync_recursive. rewrite Hmk. by rewrite Hcopy.
Qed.

(** ** What the extra runs of an installer leave *)

(** X11.  A run of an installer, whether it ends with status 0 or 1,
    changes nothing outside the destination: a path that diverges from the
    destination leads to what it led to before the run. *)
Theorem install_writes_below_target script stack dirname cwd fs q :
  diverge (target_dir cwd) q →
  lookup_path q (run script stack dirname cwd fs).1 = lookup_path q fs.
Proof. apply run_writes_below. Qed.

(** ** The loop, entry by entry *)

Lemma for_of_entries {A} (name : A → string) (body : A → Fs unit)
    (Q : string → option Node → option Node → option Node → Prop)
    source target (xs : list A) :
  diverge source target →
  (∀ (a : A) fs fs', a ∈ xs → body a fs = (fs', Ok tt) →
     frames (target ++ [name a]) fs fs' ∧
     Q (name a) (lookup_path (source ++ [name a]) fs)
       (lookup_path (target ++ [name a]) fs)
       (lookup_path (target ++ [name a]) fs')) →
  NoDup (name <$> xs) →
  ∀ fs1 fs2, for_of xs body fs1 = (fs2, Ok tt) →
    (∀ q, (∀ a : A, a ∈ xs → diverge (target ++ [name a]) q) →
          lookup_path q fs2 = lookup_path q fs1) ∧
    (∀ a : A, a ∈ xs →
       Q (name a) (lookup_path (source ++ [name a]) fs1)
         (lookup_path (target ++ [name a]) fs1)
         (lookup_path (target ++ [name a]) fs2)).
Proof.
  intros Hdiv. induction xs as [|a xs IH]; intros Hbody Hnodup fs1 fs2; simpl.
  { intros [= <-]. split; [done|]. by intros a ?%elem_of_nil. }
  intros (fsm & [] & Ha & Hxs)%fs_bind_inv.
  rewrite fmap_cons in Hnodup. apply NoDup_cons in Hnodup as [Hfresh Hnodup].
  destruct (Hbody a fs1 fsm) as [Hframe HQ]; [by left | done |].
  destruct (IH) with (fs1 := fsm) (fs2 := fs2) as [IH1 IH2]; [ | done | done | ].
  { intros b fs fs' Hb. apply Hbody. by right. }
  assert (∀ b : A, b ∈ xs → name b ≠ name a) as Hne.
  { intros b Hb Heq. apply Hfresh. rewrite <- Heq. by apply list_elem_of_fmap_2. }
  split.
  - intros q Hq. rewrite IH1 by (intros b Hb; apply Hq; by right).
    apply Hframe, Hq. by left.
  - intros b [->|Hb]%elem_of_cons.
    + rewrite IH1; [done|].
      intros c Hc. apply (diverge_entries target (name c) (name a) [] []).
      by apply Hne.
    + specialize (IH2 b Hb).
      rewrite (Hframe (source ++ [name b])) in IH2
        by by apply diverge_app_l, diverge_app_r, diverge_sym.
      rewrite (Hframe (target ++ [name b])) in IH2; [done|].
      apply (diverge_entries target (name a) (name b) [] []).
      intros Heq. by apply (Hne b).
Qed.

Lemma lookup_path_cons_app p x rel n :
  lookup_path (p ++ x :: rel) n = lookup_path (p ++ [x]) n ≫= lookup_path rel.
Proof. by rewrite cons_middle, app_assoc, lookup_path_app. Qed.

Lemma readdir_names (es : gmap string Node) x :
  x ∈ (scandir es).*1 ↔ is_Some (es !! x).
Proof.
  split.
  - intros [c Hc]%readdir_member. by exists c.
  - intros [c Hc]. apply list_elem_of_fmap. exists (x, c). split; [done|].
    by apply elem_of_scandir.
Qed.

Lemma readdir_types (es : gmap string Node) (entry : string * bool) :
  entry ∈ prod_map id isDirectory <$> scandir es ↔
  ∃ c, es !! entry.1 = Some c ∧ entry.2 = isDirectory c.
Proof.
  destruct entry as [x b]. simpl. rewrite list_elem_of_fmap. split.
  - intros ([x' c] & [= -> ->] & Hin). exists c. split; [|done].
    by apply elem_of_scandir.
  - intros (c & Hc & ->). exists (x, c). split; [done|].
    by apply elem_of_scandir.
Qed.

Lemma NoDup_readdir_types (es : gmap string Node) :
  NoDup (fst <$> (prod_map id isDirectory <$> scandir es)).
Proof.
  rewrite <- list_fmap_compose.
  rewrite (list_fmap_ext _ fst (scandir es)) by by intros ? [].
  apply NoDup_fst_scandir.
Qed.

(** ** A first installation gives an exact copy *)

Lemma dir_entries_eq target fs fs1 (es : gmap string Node) :
  lookup_path target fs1 = Some (Dir ∅) →
  (∀ q, (∀ x, is_Some (es !! x) → diverge (target ++ [x]) q) →
        lookup_path q fs = lookup_path q fs1) →
  (∀ x c, es !! x = Some c → lookup_path (target ++ [x]) fs = Some c) →
  lookup_path target fs = Some (Dir es).
Proof.
  intros Hempty Hframe Hentries.
  assert (∃ et, lookup_path target fs = Some (Dir et)) as [et Het].
  { destruct (map_choose_or_empty es) as [(x & c & Hx)| ->].
    - eapply is_dir_parent. by apply (Hentries x c).
    - exists ∅. rewrite Hframe; [done|]. by intros x [c ?%lookup_empty_Some]. }
  rewrite Het. do 2 f_equal. apply map_eq. intros x.
  pose proof (lookup_path_snoc target x fs) as Hx. rewrite Het in Hx. simpl in Hx.
  rewrite <- Hx. destruct (es !! x) as [c|] eqn:Hc.
  - by apply Hentries.
  - rewrite Hframe.
    + rewrite lookup_path_snoc, Hempty. simpl. apply lookup_empty.
    + intros y [c' Hy]. apply (diverge_entries target y x [] []). congruence.
Qed.

Lemma copyDirectory_exact stack : ∀ source target fs fs',
  diverge source target →
  copyDirectory stack source target fs = (fs', Ok tt) →
  lookup_path target fs = None →
  lookup_path target fs' = lookup_path source fs.
Proof.
  induction stack as [|stack IH]; intros source target fs fs' Hdiv; [done|].
  cbn [copyDirectory]. intros Hrun Hnew.
  apply fs_bind_inv in Hrun as (fs0 & there & [= <- <-] & Hrest).
  rewrite Hnew in Hrest.
  rewrite bool_decide_eq_false_2 in Hrest by by intros [? ?]. simpl in Hrest.
  apply fs_bind_inv in Hrest as (fs1 & [] & Hmk & Hrest).
  unfold mkdirSync_recursive in Hmk.
  destruct (mkdir_p target fs) as [fs1'|] eqn:Hmk'; [|done]. injection Hmk as <-.
  pose proof (mkdir_p_frames _ _ _ Hmk') as Hframe1.
  pose proof (mkdir_p_absent _ _ _ Hnew Hmk') as Hempty.
  apply fs_bind_inv in Hrest as (fs2 & files & Hread & Hloop).
  unfold readdirSync in Hread.
  destruct (lookup_path source fs1') as [[data|es]|] eqn:Hsrc; try done.
  injection Hread as <- <-.
  rewrite <- (Hframe1 source) by by apply diverge_sym. rewrite Hsrc.
  eapply (for_of_entries id _ (λ _ s b a, b = None → a = s) source target)
    in Hloop as [Hloop1 Hloop2]; [ | done | | ].
  2:{ intros x fs2 fs3 _.
      intros (fs2' & isDir & Hstat & Hcopy)%fs_bind_inv.
      unfold statSync_isDirectory in Hstat. simpl.
      destruct (lookup_path (path_join source x) fs2) eqn:Hx; [|done].
      injection Hstat as <- <-.
      destruct (isDirectory _).
      - split.
        + exact (writes_below_run _ _ _ _ _ (copyDirectory_writes_below _ _ _ _) Hcopy).
        + intros Hnone. unfold path_join in *.
          apply (IH (source ++ [x]) (target ++ [x]) fs2 fs3);
            [by apply diverge_app_l, diverge_app_r | done | done].
      - apply copyFileSync_spec in Hcopy as (Hframe & data & Hs & Hd).
        split; [done|]. intros _. unfold path_join in *. congruence. }
  2:{ rewrite list_fmap_id. apply NoDup_fst_scandir. }
  apply (dir_entries_eq target fs' fs1' es Hempty).
  - intros q Hq. apply Hloop1. intros x Hx%readdir_names. by apply Hq.
  - intros x c Hc. simpl in Hloop2. rewrite Hloop2.
    + by rewrite lookup_path_snoc, Hsrc.
    + apply readdir_names. by exists c.
    + rewrite lookup_path_snoc, Hempty. simpl. apply lookup_empty.
Qed.

Lemma copyDir_exact stack : ∀ src dest fs fs',
  diverge src dest →
  copyDir stack src dest fs = (fs', Ok tt) →
  lookup_path dest fs = Some (Dir ∅) →
  lookup_path dest fs' = lookup_path src fs.
Proof.
  induction stack as [|stack IH]; intros src dest fs fs' Hdiv; [done|].
  cbn [copyDir]. intros Hrun Hempty.
  apply fs_bind_inv in Hrun as (fs1 & entries & Hread & Hloop).
  unfold readdirSync_withFileTypes in Hread.
  destruct (lookup_path src fs) as [[data|es]|] eqn:Hsrc; try done.
  injection Hread as <- <-.
  eapply (for_of_entries fst _ (λ _ s b a, b = None → a = s) src dest)
    in Hloop as [Hloop1 Hloop2]; [ | done | | apply NoDup_readdir_types ].
  2:{ intros [x isDir] fs2 fs3 _. simpl. destruct isDir.
      - intros (fs2' & [] & Hmk & Hcopy)%fs_bind_inv.
        split.
        { eapply frames_trans.
          - exact (writes_below_run _ _ _ _ _ (mkdirSync_recursive_writes_below _ _) Hmk).
          - exact (writes_below_run _ _ _ _ _ (copyDir_writes_below _ _ _ _) Hcopy). }
        intros Hnone. unfold mkdirSync_recursive, path_join in *.
        destruct (mkdir_p (dest ++ [x]) fs2) as [fs2''|] eqn:Hmk'; [|done].
        injection Hmk as <-.
        rewrite (IH _ _ _ _ (diverge_app_r _ _ _ (diverge_app_l _ _ _ Hdiv)) Hcopy).
        + apply (mkdir_p_frames _ _ _ Hmk').
          by apply diverge_app_r, diverge_app_l, diverge_sym.
        + by eapply mkdir_p_absent.
      - intros (Hframe & data & Hs & Hd)%copyFileSync_spec.
        split; [done|]. intros _. unfold path_join in *. congruence. }
  apply (dir_entries_eq dest fs' fs es Hempty).
  - intros q Hq. apply Hloop1. intros [x b] (c & Hc & _)%readdir_types. by apply Hq.
  - intros x c Hc.
    pose proof (Hloop2 (x, isDirectory c)) as Hx. simpl in Hx. rewrite Hx.
    + by rewrite lookup_path_snoc, Hsrc.
    + apply readdir_types. by exists c.
    + rewrite lookup_path_snoc, Hempty. simpl. apply lookup_empty.
Qed.

(** Where the bundle is a directory and the destination is absent and not
    below it, the two paths diverge. *)
Lemma fresh_diverge source target fs c :
  lookup_path source fs = Some c →
  lookup_path target fs = None →
  ¬ inside target source →
  diverge source target.
Proof.
  intros Hsrc Hnew Hts.
  destruct (not_inside_diverge source target) as [Heq|?]; [|done| |done].
  - intros [[k Hk] _]. rewrite Hk, lookup_path_app, Hnew in Hsrc. done.
  - rewrite Heq in Hsrc. congruence.
Qed.

Lemma run_exact script stack dirname cwd fs fs' c :
  lookup_path (source_dir script dirname) fs = Some c →
  lookup_path (target_dir cwd) fs = None →
  ¬ inside (target_dir cwd) (source_dir script dirname) →
  run script stack dirname cwd fs = (fs', 0) →
  lookup_path (target_dir cwd) fs' = Some c.
Proof.
  intros Hsrc Hnew Hts.
  pose proof (fresh_diverge _ _ _ _ Hsrc Hnew Hts) as Hdiv.
  rewrite <- Hsrc.
  destruct script; unfold run, source_dir, target_dir in *.
  - unfold install.
    destruct (copyDirectory _ _ _ fs) as [fs1 [[]|e]] eqn:Hcopy; [|done].
    intros [= <-]. by apply (copyDirectory_exact stack).
  - unfold postinstall.
    match goal with |- context [?m fs] => destruct (m fs) as [fs1 [[]|e]] eqn:Hrun end;
      [|done].
    intros [= <-].
    apply fs_bind_inv in Hrun as (fs0 & there & [= <- <-] & Hrest).
    rewrite Hnew in Hrest.
    rewrite bool_decide_eq_false_2 in Hrest by by intros [? ?]. simpl in Hrest.
    apply fs_bind_inv in Hrest as (fs2 & [] & Hmk & Hcopy).
    unfold mkdirSync_recursive in Hmk.
    destruct (mkdir_p (cwd ++ ["src"; "contessa"]) fs) as [fs2'|] eqn:Hmk'; [|done].
    injection Hmk as <-.
    rewrite (copyDir_exact stack _ _ _ _ Hdiv Hcopy).
    + apply (mkdir_p_frames _ _ _ Hmk'). by apply diverge_sym.
    + by eapply mkdir_p_absent.
Qed.

(** X12.  A first installation that ends with status 0 leaves at the
    destination an exact copy of the bundle: its files with their bytes, its
    directories, the empty ones too, and nothing else. *)
Theorem fresh_install_is_exact_copy script stack dirname cwd fs fs' bundle :
  lookup_path (source_dir script dirname) fs = Some bundle →
  lookup_path (target_dir cwd) fs = None →
  ¬ inside (target_dir cwd) (source_dir script dirname) →
  run script stack dirname cwd fs = (fs', 0) →
  lookup_path (target_dir cwd) fs' = Some bundle.
Proof. apply run_exact. Qed.

(** ** What the destination held is kept *)

Lemma lookup_path_empty_dir p x : lookup_path (p ++ [x]) (Dir ∅) = None.
Proof. destruct p; simpl; by rewrite lookup_empty. Qed.

Lemma lookup_path_below_empty p x rel : lookup_path (p ++ x :: rel) (Dir ∅) = None.
Proof. destruct p; simpl; by rewrite lookup_empty. Qed.

(** [mkdir -p] changes nothing below the directory it is asked for. *)
Lemma mkdir_p_below p x rel : ∀ n n',
  mkdir_p p n = Ok n' →
  lookup_path (p ++ x :: rel) n' = lookup_path (p ++ x :: rel) n.
Proof.
  induction p as [|y p IH]; intros [data|es] n'; try done.
  { by intros [= <-]. }
  cbn [mkdir_p].
  destruct (mkdir_p p (default (Dir ∅) (es !! y))) as [c'|] eqn:Hc; [|done].
  intros [= <-]. simpl. rewrite lookup_insert_eq, (IH _ _ Hc).
  destruct (es !! y); simpl; [done|]. apply lookup_path_below_empty.
Qed.

(** A file is written where there was a file or nothing. *)
Lemma write_file_before p data : ∀ n n',
  write_file p data n = Ok n' →
  lookup_path p n = None ∨ ∃ old, lookup_path p n = Some (File old).
Proof.
  induction p as [|x p IH]; intros [old|es] n'; simpl; try done.
  - intros _. right. by exists old.
  - destruct (es !! x) as [c|] eqn:Hx.
    + destruct p as [|y p];
        (destruct (write_file _ data c) as [c'|] eqn:Hc; [|done]);
        intros _; by apply (IH c c').
    + intros _. by left.
Qed.

Lemma below_file_None (o : option Node) x rel :
  (o = None ∨ ∃ data, o = Some (File data)) → o ≫= lookup_path (x :: rel) = None.
Proof. by intros [->|[data ->]]. Qed.

Lemma copyFileSync_keeps source target x fs fs' :
  copyFileSync (path_join source x) (path_join target x) fs = (fs', Ok tt) →
  ∀ rel, lookup_path (source ++ [x]) fs ≫= lookup_path rel = None →
         lookup_path (target ++ [x]) fs' ≫= lookup_path rel
         = lookup_path (target ++ [x]) fs ≫= lookup_path rel.
Proof.
  unfold copyFileSync, path_join.
  destruct (lookup_path (source ++ [x]) fs) as [[data|es]|] eqn:Hsrc; try done.
  destruct (write_file (target ++ [x]) data fs) as [fs1|] eqn:Hw; [|done].
  intros [= <-] [|y rel]; [done|]. intros _.
  rewrite (write_file_lookup _ _ _ _ Hw).
  symmetry. apply below_file_None. by eapply write_file_before.
Qed.

(** The first step of both installers: the destination is made when it is
    not there. *)
Lemma make_target_below target fs fs1 (there : bool) x rel :
  there = bool_decide (is_Some (lookup_path target fs)) →
  (if negb there then mkdirSync_recursive target else mret tt) fs = (fs1, Ok tt) →
  lookup_path (target ++ x :: rel) fs1 = lookup_path (target ++ x :: rel) fs.
Proof.
  intros -> Hmk. case_bool_decide; simpl in Hmk.
  - by injection Hmk as <-.
  - unfold mkdirSync_recursive in Hmk.
    destruct (mkdir_p target fs) as [fs1'|] eqn:Hmk'; [|done]. injection Hmk as <-.
    by eapply mkdir_p_below.
Qed.

Lemma make_target_frames target fs fs1 (there : bool) :
  (if negb there then mkdirSync_recursive target else mret tt) fs = (fs1, Ok tt) →
  frames target fs fs1.
Proof.
  destruct (negb there); [by apply mkdirSync_recursive_frames|].
  intros [= <-]. apply frames_refl.
Qed.

Lemma keeps_entries source target fs fs1 fs' (es : gmap string Node) :
  diverge source target →
  frames target fs fs1 →
  (∀ x rel, lookup_path (target ++ x :: rel) fs1 = lookup_path (target ++ x :: rel) fs) →
  lookup_path source fs1 = Some (Dir es) →
  (∀ q, (∀ x, is_Some (es !! x) → diverge (target ++ [x]) q) →
        lookup_path q fs' = lookup_path q fs1) →
  (∀ x, is_Some (es !! x) →
     ∀ rel, lookup_path (source ++ [x]) fs1 ≫= lookup_path rel = None →
            lookup_path (target ++ [x]) fs' ≫= lookup_path rel
            = lookup_path (target ++ [x]) fs1 ≫= lookup_path rel) →
  keeps source target fs fs'.
Proof.
  intros Hdiv Hframe1 Hbelow Hsrc Hloop1 Hloop2 [|x rel] Hrel.
  { rewrite app_nil_r in Hrel. rewrite (Hframe1 source) in Hsrc by by apply diverge_sym.
    congruence. }
  rewrite <- Hbelow.
  destruct (es !! x) as [c|] eqn:Hx.
  - rewrite (lookup_path_cons_app target x rel fs'),
      (lookup_path_cons_app target x rel fs1).
    apply Hloop2; [by exists c|].
    rewrite <- (lookup_path_cons_app source x rel fs1).
    rewrite Hframe1; [done|]. by apply diverge_app_r, diverge_sym.
  - apply Hloop1. intros y [c Hy]. apply (diverge_entries target y x [] rel).
    congruence.
Qed.

Lemma copyDirectory_keeps stack : ∀ source target fs fs',
  diverge source target →
  copyDirectory stack source target fs = (fs', Ok tt) →
  keeps source target fs fs'.
Proof.
  induction stack as [|stack IH]; intros source target fs fs' Hdiv; [done|].
  cbn [copyDirectory].
  intros (fs0 & there & [= <- Hthere] & Hrest)%fs_bind_inv.
  apply fs_bind_inv in Hrest as (fs1 & [] & Hmk & Hrest).
  apply fs_bind_inv in Hrest as (fs1' & files & Hread & Hloop).
  unfold readdirSync in Hread.
  destruct (lookup_path source fs1) as [[data|es]|] eqn:Hsrc; try done.
  injection Hread as <- <-.
  eapply (for_of_entries id _
            (λ _ s b a, ∀ rel, s ≫= lookup_path rel = None →
                               a ≫= lookup_path rel = b ≫= lookup_path rel)
            source target)
    in Hloop as [Hloop1 Hloop2]; [ | done | | ].
  2:{ intros x fs2 fs3 _.
      intros (fs2' & isDir & Hstat & Hcopy)%fs_bind_inv.
      unfold statSync_isDirectory in Hstat. simpl.
      destruct (lookup_path (path_join source x) fs2) eqn:Hx; [|done].
      injection Hstat as <- <-.
      destruct (isDirectory _).
      - split.
        + exact (writes_below_run _ _ _ _ _ (copyDirectory_writes_below _ _ _ _) Hcopy).
        + intros rel Hrel. rewrite <- !lookup_path_app.
          apply (IH (path_join source x) (path_join target x) fs2 fs3);
            [by apply diverge_app_l, diverge_app_r | done |].
          unfold path_join. by rewrite lookup_path_app.
      - split.
        + exact (writes_below_run _ _ _ _ _ (copyFileSync_writes_below _ _ _) Hcopy).
        + by apply copyFileSync_keeps. }
  2:{ rewrite list_fmap_id. apply NoDup_fst_scandir. }
  apply (keeps_entries source target fs fs1 fs' es); [done | | | done | |].
  - by eapply make_target_frames.
  - intros x rel. by eapply make_target_below.
  - intros q Hq. apply Hloop1. intros x Hx%readdir_names. by apply Hq.
  - intros x Hx%readdir_names. by apply (Hloop2 x).
Qed.

Lemma copyDir_source_dir stack src dest fs fs' :
  copyDir stack src dest fs = (fs', Ok tt) → is_dir src fs.
Proof.
  destruct stack as [|stack]; [done|]. cbn [copyDir].
  intros (fs1 & entries & Hread & _)%fs_bind_inv.
  unfold readdirSync_withFileTypes in Hread. unfold is_dir.
  destruct (lookup_path src fs) as [[data|es]|]; try done. by exists es.
Qed.

Lemma copyDir_keeps stack : ∀ src dest fs fs',
  diverge src dest →
  copyDir stack src dest fs = (fs', Ok tt) →
  keeps src dest fs fs'.
Proof.
  induction stack as [|stack IH]; intros src dest fs fs' Hdiv; [done|].
  cbn [copyDir].
  intros (fs1 & entries & Hread & Hloop)%fs_bind_inv.
  unfold readdirSync_withFileTypes in Hread.
  destruct (lookup_path src fs) as [[data|es]|] eqn:Hsrc; try done.
  injection Hread as <- <-.
  eapply (for_of_entries fst _
            (λ _ s b a, ∀ rel, s ≫= lookup_path rel = None →
                               a ≫= lookup_path rel = b ≫= lookup_path rel)
            src dest)
    in Hloop as [Hloop1 Hloop2]; [ | done | | apply NoDup_readdir_types ].
  2:{ intros [x isDir] fs2 fs3 _. simpl. destruct isDir.
      - intros (fs2' & [] & Hmk & Hcopy)%fs_bind_inv.
        pose proof (writes_below_run _ _ _ _ _
                      (mkdirSync_recursive_writes_below _ _) Hmk) as Hframe2.
        split.
        { eapply frames_trans; [done|].
          exact (writes_below_run _ _ _ _ _ (copyDir_writes_below _ _ _ _) Hcopy). }
        assert (lookup_path (src ++ [x]) fs2' = lookup_path (src ++ [x]) fs2) as Hsame.
        { apply Hframe2. by apply diverge_app_r, diverge_app_l, diverge_sym. }
        intros [|y rel] Hrel.
        { destruct (copyDir_source_dir _ _ _ _ _ Hcopy) as [esx Hesx].
          unfold path_join in Hesx. rewrite Hsame in Hesx.
          rewrite Hesx in Hrel. done. }
        rewrite <- !lookup_path_app.
        rewrite (IH (path_join src x) (path_join dest x) fs2' fs3);
          [ | by apply diverge_app_l, diverge_app_r | done | ].
        + unfold mkdirSync_recursive, path_join in *.
          destruct (mkdir_p (dest ++ [x]) fs2) as [fs2''|] eqn:Hmk'; [|done].
          injection Hmk as <-. by eapply mkdir_p_below.
        + unfold path_join. by rewrite lookup_path_app, Hsame.
      - intros Hcopy. split.
        + exact (writes_below_run _ _ _ _ _ (copyFileSync_writes_below _ _ _) Hcopy).
        + by apply copyFileSync_keeps. }
  apply (keeps_entries src dest fs fs fs' es); [done | apply frames_refl | done | done | |].
  - intros q Hq. apply Hloop1. intros [x b] (c & Hc & _)%readdir_types. by apply Hq.
  - intros x [c Hc]. apply (Hloop2 (x, isDirectory c)).
    apply readdir_types. by exists c.
Qed.

Lemma run_keeps script stack dirname cwd fs fs' :
  diverge (source_dir script dirname) (target_dir cwd) →
  run script stack dirname cwd fs = (fs', 0) →
  keeps (source_dir script dirname) (target_dir cwd) fs fs'.
Proof.
  intros Hdiv. destruct script; unfold run, source_dir, target_dir in *.
  - unfold install.
    destruct (copyDirectory _ _ _ fs) as [fs1 [[]|e]] eqn:Hcopy; [|done].
    intros [= <-]. by apply (copyDirectory_keeps stack).
  - unfold postinstall.
    match goal with |- context [?m fs] => destruct (m fs) as [fs1 [[]|e]] eqn:Hrun end;
      [|done].
    intros [= <-].
    apply fs_bind_inv in Hrun as (fs0 & there & [= <- Hthere] & Hrest).
    apply fs_bind_inv in Hrest as (fs2 & [] & Hmk & Hcopy).
    pose proof (make_target_frames _ _ _ _ Hmk) as Hframe.
    destruct (copyDir_source_dir _ _ _ _ _ Hcopy) as [es Hes].
    apply copyDir_keeps in Hcopy; [|done].
    intros rel Hrel. rewrite Hcopy.
    + destruct rel as [|x rel]; [|by eapply make_target_below].
      rewrite app_nil_r in Hrel. rewrite Hframe in Hes by by apply diverge_sym.
      congruence.
    + rewrite Hframe; [done|]. by apply diverge_app_r, diverge_sym.
Qed.

(** X13.  After a run that ends with status 0, what the destination held
    at a relative path where the bundle has nothing is as it was: the
    installers add and overwrite, and remove nothing. *)
Theorem install_keeps_other_files script stack dirname cwd fs fs' rel :
  diverge (source_dir script dirname) (target_dir cwd) →
  run script stack dirname cwd fs = (fs', 0) →
  lookup_path (source_dir script dirname ++ rel) fs = None →
  lookup_path (target_dir cwd ++ rel) fs' = lookup_path (target_dir cwd ++ rel) fs.
Proof. intros Hdiv Hrun. by apply (run_keeps script stack dirname cwd). Qed.

(** ** A destination that is up to date *)

Lemma for_of_noop {A} (body : A → Fs unit) (xs : list A) fs :
  (∀ a : A, a ∈ xs → body a fs = (fs, Ok tt)) →
  for_of xs body fs = (fs, Ok tt).
Proof.
  induction xs as [|a xs IH]; intros Hbody; simpl; [done|].
  unfold mbind, Fs_bind. rewrite Hbody by by left.
  apply IH. intros b Hb. apply Hbody. by right.
Qed.

Lemma uptodate_entry source target x fs :
  uptodate source target fs → uptodate (source ++ [x]) (target ++ [x]) fs.
Proof.
  intros Hup rel. specialize (Hup (x :: rel)).
  by rewrite <- !app_assoc.
Qed.

Lemma copyDirectory_uptodate stack : ∀ source target fs (es : gmap string Node),
  lookup_path source fs = Some (Dir es) →
  depth (Dir es) ≤ stack →
  uptodate source target fs →
  copyDirectory stack source target fs = (fs, Ok tt).
Proof.
  induction stack as [|stack IH]; intros source target fs es Hsrc Hdepth Hup.
  { simpl in Hdepth. lia. }
  cbn [copyDirectory].
  assert (is_dir target fs) as [et Het].
  { specialize (Hup []). rewrite !app_nil_r, Hsrc in Hup. done. }
  unfold mbind at 1 2 3, Fs_bind at 1 2 3, existsSync.
  rewrite bool_decide_eq_true_2 by by rewrite Het. simpl.
  unfold readdirSync. rewrite Hsrc.
  apply for_of_noop. intros x [c Hc]%readdir_member.
  assert (lookup_path (source ++ [x]) fs = Some c) as Hx.
  { by rewrite lookup_path_snoc, Hsrc. }
  unfold mbind, Fs_bind, statSync_isDirectory, path_join. rewrite Hx.
  destruct c as [data|esc]; simpl.
  - unfold copyFileSync. rewrite Hx.
    specialize (Hup [x]). rewrite Hx in Hup.
    by rewrite (write_file_same _ _ _ Hup).
  - apply (IH _ _ _ esc Hx).
    + pose proof (depth_entry es x _ Hc). lia.
    + by apply uptodate_entry.
Qed.

Lemma copyDir_uptodate stack : ∀ src dest fs (es : gmap string Node),
  lookup_path src fs = Some (Dir es) →
  depth (Dir es) ≤ stack →
  uptodate src dest fs →
  copyDir stack src dest fs = (fs, Ok tt).
Proof.
  induction stack as [|stack IH]; intros src dest fs es Hsrc Hdepth Hup.
  { simpl in Hdepth. lia. }
  cbn [copyDir].
  unfold mbind at 1, Fs_bind at 1, readdirSync_withFileTypes. rewrite Hsrc.
  apply for_of_noop. intros [x b] (c & Hc & Hb)%readdir_types.
  simpl in Hc, Hb. subst b. simpl.
  assert (lookup_path (src ++ [x]) fs = Some c) as Hx.
  { by rewrite lookup_path_snoc, Hsrc. }
  pose proof (Hup [x]) as Hupx. rewrite Hx in Hupx.
  destruct c as [data|esc]; simpl; unfold path_join.
  - unfold copyFileSync. rewrite Hx.
    by rewrite (write_file_same _ _ _ Hupx).
  - destruct Hupx as [et Het].
    unfold mbind, Fs_bind, mkdirSync_recursive.
    rewrite (mkdir_p_same _ _ _ Het).
    apply (IH _ _ _ esc Hx).
    + pose proof (depth_entry es x _ Hc). lia.
    + by apply uptodate_entry.
Qed.

Lemma run_uptodate script stack dirname cwd fs (es : gmap string Node) :
  lookup_path (source_dir script dirname) fs = Some (Dir es) →
  depth (Dir es) ≤ stack →
  uptodate (source_dir script dirname) (target_dir cwd) fs →
  run script stack dirname cwd fs = (fs, 0).
Proof.
  intros Hsrc Hdepth Hup. destruct script; unfold run, source_dir, target_dir in *.
  - unfold install. by rewrite (copyDirectory_uptodate stack _ _ fs es).
  - unfold postinstall.
    assert (is_dir (cwd ++ ["src"; "contessa"]) fs) as [et Het].
    { specialize (Hup []). rewrite !app_nil_r, Hsrc in Hup. done. }
    unfold mbind at 1 2, Fs_bind at 1 2, existsSync.
    rewrite bool_decide_eq_true_2 by by rewrite Het. simpl.
    by rewrite (copyDir_uptodate stack _ _ fs es).
Qed.

(** X14.  When the destination already holds every file of the bundle
    with the same bytes, and every directory of it, a run with a stack as
    deep as the bundle ends with status 0 and leaves the disk as it was. *)
Theorem reinstall_changes_nothing script stack dirname cwd fs (es : gmap string Node) :
  lookup_path (source_dir script dirname) fs = Some (Dir es) →
  depth (Dir es) ≤ stack →
  uptodate (source_dir script dirname) (target_dir cwd) fs →
  run script stack dirname cwd fs = (fs, 0).
Proof. apply run_uptodate. Qed.

(** ** The bundle is missing *)

Lemma mkdir_p_keeps_absent target source : ∀ fs fs1,
  mkdir_p target fs = Ok fs1 →
  lookup_path source fs = None →
  ¬ source `prefix_of` target →
  lookup_path source fs1 = None.
Proof.
  intros fs fs1 Hmk Hsrc Hpre.
  destruct (decide (target `prefix_of` source)) as [[k ->]|Hts].
  - destruct k as [|x r].
    { destruct Hpre. by rewrite app_nil_r. }
    by rewrite (mkdir_p_below _ _ _ _ _ Hmk).
  - rewrite (mkdir_p_frames _ _ _ Hmk); [done|].
    by apply diverge_not_prefix.
Qed.

Lemma make_target_keeps_absent target source fs fs1 (there : bool) :
  (if negb there then mkdirSync_recursive target else mret tt) fs = (fs1, Ok tt) →
  lookup_path source fs = None →
  ¬ source `prefix_of` target →
  lookup_path source fs1 = None.
Proof.
  destruct (negb there); simpl.
  - unfold mkdirSync_recursive.
    destruct (mkdir_p target fs) as [fs1'|] eqn:Hmk; [|done].
    intros [= <-]. by apply mkdir_p_keeps_absent.
  - by intros [= <-].
Qed.

Lemma run_missing script stack dirname cwd fs :
  lookup_path (source_dir script dirname) fs = None →
  ¬ source_dir script dirname `prefix_of` target_dir cwd →
  (run script stack dirname cwd fs).2 = 1.
Proof.
  intros Hsrc Hpre. destruct script; unfold run, source_dir, target_dir in *.
  - unfold install.
    destruct (copyDirectory _ _ _ fs) as [fs1 [[]|e]] eqn:Hcopy; [|done].
    destruct stack as [|stack]; [done|]. cbn [copyDirectory] in Hcopy.
    apply fs_bind_inv in Hcopy as (fs0 & there & [= <- Hthere] & Hrest).
    apply fs_bind_inv in Hrest as (fs2 & [] & Hmk & Hrest).
    apply fs_bind_inv in Hrest as (fs3 & files & Hread & _).
    unfold readdirSync in Hread.
    by rewrite (make_target_keeps_absent _ _ _ _ _ Hmk Hsrc Hpre) in Hread.
  - unfold postinstall.
    match goal with |- context [?m fs] => destruct (m fs) as [fs1 [[]|e]] eqn:Hrun end;
      [|done].
    apply fs_bind_inv in Hrun as (fs0 & there & [= <- Hthere] & Hrest).
    apply fs_bind_inv in Hrest as (fs2 & [] & Hmk & Hcopy).
    destruct (copyDir_source_dir _ _ _ _ _ Hcopy) as [es Hes].
    by rewrite (make_target_keeps_absent _ _ _ _ _ Hmk Hsrc Hpre) in Hes.
Qed.

(** X15.  When the bundle is missing the run ends with status 1; a
    destination that was missing too, and could be made, is left behind as
    an empty directory. *)
Theorem missing_bundle_fails script stack dirname cwd fs :
  lookup_path (source_dir script dirname) fs = None →
  ¬ source_dir script dirname `prefix_of` target_dir cwd →
  (run script stack dirname cwd fs).2 = 1 ∧
  (0 < stack → lookup_path (target_dir cwd) fs = None →
   is_Ok (mkdir_p (target_dir cwd) fs) →
   lookup_path (target_dir cwd) (run script stack dirname cwd fs).1 = Some (Dir ∅)).
Proof.
  intros Hsrc Hpre. split; [by apply run_missing|].
  intros Hstack Hnew [fs1 Hmk].
  pose proof (mkdir_p_keeps_absent _ _ _ _ Hmk Hsrc Hpre) as Hsrc1.
  pose proof (mkdir_p_absent _ _ _ Hnew Hmk) as Hempty.
  destruct script; unfold run, source_dir, target_dir in *.
  - unfold install. destruct stack as [|stack]; [lia|]. cbn [copyDirectory].
    unfold mbind at 1 2 3, Fs_bind at 1 2 3, existsSync. rewrite Hnew.
    rewrite bool_decide_eq_false_2 by by intros [? ?]. simpl.
    unfold mkdirSync_recursive. rewrite Hmk.
    unfold readdirSync. by rewrite Hsrc1.
  - unfold postinstall. destruct stack as [|stack]; [lia|]. cbn [copyDir].
    unfold mbind at 1 2 3, Fs_bind at 1 2 3, existsSync. rewrite Hnew.
    rewrite bool_decide_eq_false_2 by by intros [? ?]. simpl.
    unfold mkdirSync_recursive. rewrite Hmk.
    unfold readdirSync_withFileTypes. by rewrite Hsrc1.
Qed.

(** ** The destination inside the bundle, again *)

(** X17.  With the destination inside the bundle no run ends with status
    0: the installer copies a directory into itself, one level deeper with
    each call, until the stack or the disk ends the run. *)
Theorem install_into_bundle_fails script stack dirname cwd fs :
  inside (target_dir cwd) (source_dir script dirname) →
  (run script stack dirname cwd fs).2 = 1.
Proof. apply run_inside. Qed.

(** A destination that holds the very node of the bundle is up to date. *)
Lemma uptodate_same_node source target fs n :
  lookup_path source fs = Some n →
  lookup_path target fs = Some n →
  uptodate source target fs.
Proof.
  intros Hs Ht rel. unfold is_dir. rewrite !lookup_path_app, Hs, Ht. simpl.
  destruct (lookup_path rel n) as [[data|es]|]; [done | by exists es | done].
Qed.

(** ** A run of each installer *)

(** C9, witness: the TypeScript installer of [pkg] and the post-install
    script of [pkg], each run in [app]. *)
Lemma installed_files_match_source_witness :
  (let fs' := (run IndexTs 8 ["pkg"] ["app"] disk_ts).1 in
   lookup_path (target_dir ["app"] ++ ["hooks"; "useStoredState.ts"]) fs'
     = Some (File [x41; x42]) ∧
   (∀ depth, depth < 2 →
      ∃ es, lookup_path (target_dir ["app"] ++ take depth ["hooks"; "useStoredState.ts"]) fs'
            = Some (Dir es)) ∧
   lookup_path (source_dir IndexTs ["pkg"] ++ ["hooks"; "useStoredState.ts"]) fs'
     = Some (File [x41; x42])) ∧
  (let fs' := (run PostinstallJs 8 ["pkg"; "scripts"] ["app"] disk_js).1 in
   lookup_path (target_dir ["app"] ++ ["hooks"; "useStoredState.ts"]) fs'
     = Some (File [x41; x42]) ∧
   (∀ depth, depth < 2 →
      ∃ es, lookup_path (target_dir ["app"] ++ take depth ["hooks"; "useStoredState.ts"]) fs'
            = Some (Dir es)) ∧
   lookup_path (source_dir PostinstallJs ["pkg"; "scripts"] ++ ["hooks"; "useStoredState.ts"])
     fs' = Some (File [x41; x42])).
Proof.
  split.
  - apply (installed_files_match_source IndexTs 8 ["pkg"] ["app"] disk_ts).
    + intros [[k Hk] _]. discriminate Hk.
    + vm_compute. reflexivity.
    + vm_compute. reflexivity.
  - apply (installed_files_match_source PostinstallJs 8 ["pkg"; "scripts"] ["app"] disk_js).
    + intros [[k Hk] _]. discriminate Hk.
    + vm_compute. reflexivity.
    + vm_compute. reflexivity.
Defined.

Example postinstall_run :
  let r := run PostinstallJs 8 ["pkg"; "scripts"] ["app"] disk_js in
  r.2 = 0 ∧
  lookup_path ["app"; "src"; "contessa"; "hooks"; "useStoredState.ts"] r.1
    = Some (File [x41; x42]) ∧
  lookup_path ["app"; "src"; "contessa"; "README.md"] r.1 = Some (File [x43]).
Proof. vm_compute. done. Qed.

(** C9, counterexample: the bundle inside the destination.  The entries
    are copied in the order of their names: the directory [contessa] of the
    bundle first, whose copy goes into the bundle itself, overwrites its
    [index.ts] and adds [z] to it; [index.ts] next, with the bytes just
    written.  The run ends with status 0; the destination holds [index.ts]
    with other bytes than the bundle had, and has no [z] although the bundle
    now has one. *)
Lemma nested_bundle_is_overwritten :
  let source := source_dir IndexTs ["src"; "contessa"] in
  let target := target_dir [] in
  let r := run IndexTs 8 ["src"; "contessa"] [] disk_nested in
  inside source target ∧
  r.2 = 0 ∧
  lookup_path (source ++ ["index.ts"]) disk_nested = Some (File [x41]) ∧
  lookup_path (target ++ ["index.ts"]) r.1 = Some (File [x42]) ∧
  lookup_path (source ++ ["z"]) r.1 = Some (File [x43]) ∧
  lookup_path (target ++ ["z"]) r.1 = None.
Proof.
  split; [|vm_compute; done].
  split; [by exists ["contessa"] | discriminate].
Qed.

(** With the destination inside the bundle no run ends with status 0. *)
Example install_into_the_bundle :
  (run IndexTs 8 ["pkg"] ["pkg"; "contessa"] disk_ts).2 = 1.
Proof. vm_compute. done. Qed.

(** X16, witness: the first installation of [pkg] into [app]. *)
Lemma first_install_succeeds_witness : (run IndexTs 3 ["pkg"] ["app"] disk_ts).2 = 0.
Proof.
  apply (first_install_succeeds IndexTs 3 ["pkg"] ["app"] disk_ts
           (<["hooks" := Dir {[ "useStoredState.ts" := File [x41; x42] ]}]>
              {[ "README.md" := File [x43] ]})).
  - vm_compute. reflexivity.
  - vm_compute. lia.
  - vm_compute. reflexivity.
  - eexists. vm_compute. reflexivity.
  - intros [[k Hk] _]. discriminate Hk.
Defined.

(** A recursion deeper than the stack ends the run with status 1. *)
Example install_stack_overflow : (run IndexTs 1 ["pkg"] ["app"] disk_ts).2 = 1.
Proof. vm_compute. done. Qed.

(** X11, witness: the bundle of [pkg] after the installation into
    [app]. *)
Lemma install_writes_below_target_witness :
  lookup_path ["pkg"; "contessa"; "README.md"] (run IndexTs 8 ["pkg"] ["app"] disk_ts).1
  = lookup_path ["pkg"; "contessa"; "README.md"] disk_ts.
Proof.
  apply (install_writes_below_target IndexTs 8 ["pkg"] ["app"] disk_ts).
  left. discriminate.
Defined.

(** X12, witness: the first installation of [pkg] into [app]. *)
Lemma fresh_install_is_exact_copy_witness :
  lookup_path (target_dir ["app"]) disk_ts_installed = Some bundle.
Proof.
  apply (fresh_install_is_exact_copy IndexTs 8 ["pkg"] ["app"] disk_ts
           disk_ts_installed bundle).
  - vm_compute. reflexivity.
  - vm_compute. reflexivity.
  - intros [[k Hk] _]. discriminate Hk.
  - vm_compute. reflexivity.
Defined.

(** X13, witness: the project has notes of its own in [src/contessa]. *)
Lemma install_keeps_other_files_witness :
  lookup_path (target_dir ["app"] ++ ["notes.md"]) (run IndexTs 8 ["pkg"] ["app"] disk_ts_used).1
  = lookup_path (target_dir ["app"] ++ ["notes.md"]) disk_ts_used.
Proof.
  apply (install_keeps_other_files IndexTs 8 ["pkg"] ["app"] disk_ts_used
           (run IndexTs 8 ["pkg"] ["app"] disk_ts_used).1 ["notes.md"]).
  - left. discriminate.
  - vm_compute. reflexivity.
  - vm_compute. reflexivity.
Defined.

(** X14, witness: the installer runs a second time. *)
Lemma reinstall_changes_nothing_witness :
  run IndexTs 8 ["pkg"] ["app"] disk_ts_installed = (disk_ts_installed, 0).
Proof.
  apply (reinstall_changes_nothing IndexTs 8 ["pkg"] ["app"] disk_ts_installed
           (<["hooks" := Dir {[ "useStoredState.ts" := File [x41; x42] ]}]>
              {[ "README.md" := File [x43] ]})).
  - vm_compute. reflexivity.
  - vm_compute. lia.
  - apply (uptodate_same_node _ _ _ bundle); vm_compute; reflexivity.
Defined.

(** X15, witness: a project without the package. *)
Lemma missing_bundle_fails_witness :
  (run IndexTs 8 ["pkg"] ["app"] disk_without_bundle).2 = 1 ∧
  lookup_path (target_dir ["app"]) (run IndexTs 8 ["pkg"] ["app"] disk_without_bundle).1
  = Some (Dir ∅).
Proof.
  destruct (missing_bundle_fails IndexTs 8 ["pkg"] ["app"] disk_without_bundle)
    as [Hstatus Hleft].
  - vm_compute. reflexivity.
  - intros [k Hk]. discriminate Hk.
  - split; [exact Hstatus|]. apply Hleft.
    + lia.
    + vm_compute. reflexivity.
    + eexists. vm_compute. reflexivity.
Defined.

(** X17, witness: the post-install script runs in the package itself. *)
Lemma install_into_bundle_fails_witness :
  (run PostinstallJs 8 ["pkg"; "scripts"] ["pkg"; "src"; "contessa"] disk_js).2 = 1.
Proof.
  apply (install_into_bundle_fails PostinstallJs 8 ["pkg"; "scripts"]
           ["pkg"; "src"; "contessa"] disk_js).
  split; [by exists ["src"; "contessa"] | discriminate].
Defined.

End InstallerFacts.
